(** * OAK Estimator: the Firebase synchronisation core

    A shallow embedding of [firebase/sync-manager.js] (change-detection hash,
    merge engine, upload queue, realtime filter) and of the retry and fetch
    policy of the Firestore data service, with the properties of the
    specification stated and proved over it; then of what these rest on:
    local storage, batched writes, the error handler with its messages,
    logger and second retry loop, the connection monitor and the
    initialisation of Firebase, each with the properties the code shows.

    Conventions of the embedding
    - A JavaScript string is a [string]: the characters are read as UTF-16
      code units below 256.
    - A JavaScript number is an integer ([Z]).  The engine does no
      arithmetic on the numbers of a record: it tests them for zero, reads
      them as epoch milliseconds, compares them as Map keys and prints
      them.  [NaN] only arises as the time value of an invalid [Date] and
      is modelled by [None].
    - An exception is an explicit result ([TypeError], [Thrown e]).
    - Asynchronous code is a transition system: one [step] per turn of the
      event loop. *)

From Stdlib Require Import ZArith List String Ascii Bool Lia.
Import ListNotations.
Local Open Scope string_scope.
Local Open Scope list_scope.
Local Open Scope Z_scope.
Set Warnings "-register-all".

(** ** JavaScript values *)

Inductive value : Type :=
| VUndef
| VNull
| VBool (b : bool)
| VNum (n : Z)
| VStr (s : string)
| VArr (items : list value)
| VObj (fields : list (string * value)).

(** An object is the sequence of its own enumerable properties, in the
    order [Object.keys] lists them. *)
Definition object : Type := list (string * value).

(** [o.k] and [o[k]] for an own property; [undefined] when there is none. *)
Fixpoint get (o : object) (k : string) : value :=
  match o with
  | [] => VUndef
  | (k', v) :: rest => if (k' =? k)%string then v else get rest k
  end.

Definition hasOwn (o : object) (k : string) : bool :=
  existsb (fun kv => (fst kv =? k)%string) o.

(** The names every plain object inherits from [Object.prototype]; each of
    them is a function or an object, hence truthy. *)
Definition inheritedName (k : string) : bool :=
  existsb (fun n => (n =? k)%string)
    ["constructor"; "hasOwnProperty"; "isPrototypeOf"; "propertyIsEnumerable";
     "toLocaleString"; "toString"; "valueOf"; "__proto__";
     "__defineGetter__"; "__defineSetter__"; "__lookupGetter__";
     "__lookupSetter__"].

(** ToBoolean. *)
Definition truthy (v : value) : bool :=
  match v with
  | VUndef | VNull => false
  | VBool b => b
  | VNum n => negb (n =? 0)
  | VStr s => negb (s =? "")%string
  | VArr _ | VObj _ => true
  end.

(** [!!o[k]], the prototype chain included. *)
Definition truthyAt (o : object) (k : string) : bool :=
  if hasOwn o k then truthy (get o k) else inheritedName k.

(** [a || b]. *)
Definition or_else (a b : value) : value := if truthy a then a else b.

(** Decimal value of a string of digits. *)
Definition digitOf (c : ascii) : option Z :=
  let n := Z.of_nat (nat_of_ascii c) in
  if (48 <=? n) && (n <=? 57) then Some (n - 48) else None.

Fixpoint decimalValue (s : string) (acc : Z) : option Z :=
  match s with
  | EmptyString => Some acc
  | String c rest =>
      match digitOf c with
      | Some d => decimalValue rest (acc * 10 + d)
      | None => None
      end
  end.

(** A property key that is an array index (a canonical numeric string below
    2^32 - 1): [Object.keys] lists these first, in ascending order. *)
Definition arrayIndex (k : string) : option Z :=
  match k with
  | EmptyString => None
  | String c rest =>
      if (c =? "0")%char && negb (rest =? "")%string then None
      else match decimalValue k 0 with
           | Some n => if n <? 2 ^ 32 - 1 then Some n else None
           | None => None
           end
  end.

Fixpoint replaceField (o : object) (k : string) (v : value) : object :=
  match o with
  | [] => []
  | (k', v') :: rest =>
      if (k' =? k)%string then (k', v) :: rest
      else (k', v') :: replaceField rest k v
  end.

Fixpoint insertIndex (o : object) (n : Z) (k : string) (v : value) : object :=
  match o with
  | [] => [(k, v)]
  | (k', v') :: rest =>
      match arrayIndex k' with
      | Some n' => if n' <? n then (k', v') :: insertIndex rest n k v
                   else (k, v) :: o
      | None => (k, v) :: o
      end
  end.

(** [o[k] = v]: an existing property keeps its place, a new one goes after
    the others, or among the array indices when its key is one. *)
Definition setField (o : object) (k : string) (v : value) : object :=
  if hasOwn o k then replaceField o k v
  else match arrayIndex k with
       | Some n => insertIndex o n k v
       | None => o ++ [(k, v)]
       end.

(** [({ k, ...rest }) => rest]. *)
Definition removeField (o : object) (k : string) : object :=
  filter (fun kv => negb (fst kv =? k)%string) o.

(** SameValueZero, the key equality of [Map].  Primitive keys are compared
    by value.  An array or object key is compared by reference; the
    collections merged here come out of [JSON.parse] and of a Firestore
    snapshot, where such a key is a reference of its own in every record,
    equal to no other key. *)
Definition sameValueZero (a b : value) : bool :=
  match a, b with
  | VUndef, VUndef => true
  | VNull, VNull => true
  | VBool x, VBool y => Bool.eqb x y
  | VNum x, VNum y => x =? y
  | VStr x, VStr y => (x =? y)%string
  | _, _ => false
  end.

(** ** Number and string conversions *)

Definition digitChar (d : Z) : ascii :=
  if d <? 10 then ascii_of_nat (Z.to_nat (48 + d))
  else ascii_of_nat (Z.to_nat (87 + d)).

Fixpoint radixDigits (radix : Z) (fuel : nat) (n : Z) : string :=
  match fuel with
  | O => EmptyString
  | S fuel' =>
      if n <? radix then String (digitChar n) EmptyString
      else (radixDigits radix fuel' (n / radix)
              ++ String (digitChar (n mod radix)) EmptyString)%string
  end.

(** [n.toString(radix)] for an integer [n]; the fuel is one more than the
    binary logarithm, which bounds the number of digits in any radix. *)
Definition numberToString (radix : Z) (n : Z) : string :=
  let digits m := radixDigits radix (S (Z.to_nat (Z.log2 m))) m in
  if n <? 0 then ("-" ++ digits (- n))%string else digits n.

(** ToString, as [ToPrimitive] applies it to the argument of [new Date]. *)
Fixpoint ToString (v : value) : string :=
  match v with
  | VUndef => "undefined"
  | VNull => "null"
  | VBool true => "true"
  | VBool false => "false"
  | VNum n => numberToString 10 n
  | VStr s => s
  | VArr items =>
      String.concat ","
        (map (fun e => match e with
                       | VUndef | VNull => EmptyString
                       | _ => ToString e
                       end) items)
  | VObj _ => "[object Object]"
  end.

(** TimeClip: a time value is at most 8.64e15 ms away from the epoch. *)
Definition timeClip (n : Z) : option Z :=
  if Z.abs n <=? 8640000000000000 then Some n else None.

(** [a > b] on two time values, either of which may be [NaN]. *)
Definition time_gt (a b : option Z) : bool :=
  match a, b with
  | Some x, Some y => y <? x
  | _, _ => false
  end.

(** ** The merge engine ([mergeProjects], sync-manager.js 158-246) *)

Inductive strategy : Type :=
| SERVER_WINS | LOCAL_WINS | LATEST_WINS | MERGE | MANUAL.

Inductive completion (A : Type) : Type :=
| Done (a : A)
| TypeError.
Arguments Done {A} a.
Arguments TypeError {A}.

(** A [Map] keeps its entries in insertion order. *)
Definition jsmap : Type := list (value * object).

Fixpoint map_get (m : jsmap) (k : value) : option object :=
  match m with
  | [] => None
  | (k', v) :: rest => if sameValueZero k' k then Some v else map_get rest k
  end.

Fixpoint map_set (m : jsmap) (k : value) (v : object) : jsmap :=
  match m with
  | [] => [(k, v)]
  | (k', v') :: rest =>
      if sameValueZero k' k then (k', v) :: rest
      else (k', v') :: map_set rest k v
  end.

(** [{ ...o, source: origin }]. *)
Definition withSource (o : object) (origin : string) : object :=
  setField o "source" (VStr origin).
Arguments withSource : simpl never.

(** [x.length]: a TypeError on [undefined] and [null]. *)
Definition lengthOf (v : value) : completion value :=
  match v with
  | VUndef | VNull => TypeError
  | VStr s => Done (VNum (Z.of_nat (String.length s)))
  | VArr items => Done (VNum (Z.of_nat (List.length items)))
  | VObj fields => Done (get fields "length")
  | VBool _ | VNum _ => Done VUndef
  end.

Section Runtime.

(** What the engine supplies: [Date.parse] ([None] for [NaN]) and the
    relational operator on operands that are not both numbers. *)
Variable Date_parse : string -> option Z.
Variable runtime_gt : value -> value -> bool.

(** [new Date(v).getTime()]. *)
Definition getTime (v : value) : option Z :=
  match v with
  | VUndef => None
  | VNull => Some 0
  | VBool b => Some (if b then 1 else 0)
  | VNum n => timeClip n
  | VStr s => Date_parse s
  | VArr _ | VObj _ => Date_parse (ToString v)
  end.

(** [new Date(p.updatedAt || 0).getTime()]. *)
Definition updatedTime (p : object) : option Z :=
  getTime (or_else (get p "updatedAt") (VNum 0)).

(** [a > b]. *)
Definition js_gt (a b : value) : bool :=
  match a, b with
  | VNum x, VNum y => y <? x
  | VUndef, _ | _, VUndef => false
  | _, _ => runtime_gt a b
  end.

(** One turn of [Object.keys(localProject).forEach] (lines 211-230). *)
Definition mergeField (localProject remoteProject : object)
    (acc : completion object) (key : string) : completion object :=
  match acc with
  | TypeError => TypeError
  | Done resolvedProject =>
      if (key =? "updatedAt")%string then
        let localTime := updatedTime localProject in
        let remoteTime := updatedTime remoteProject in
        Done (setField resolvedProject "updatedAt"
                (if time_gt localTime remoteTime
                 then get localProject "updatedAt"
                 else get remoteProject "updatedAt"))
      else if (key =? "lineItems")%string then
        match lengthOf (get localProject "lineItems") with
        | TypeError => TypeError
        | Done localLength =>
            match lengthOf (get remoteProject "lineItems") with
            | TypeError => TypeError
            | Done remoteLength =>
                if js_gt localLength remoteLength
                then Done (setField resolvedProject "lineItems"
                             (get localProject "lineItems"))
                else Done resolvedProject
            end
        end
      else if truthy (get localProject key)
              && negb (truthyAt remoteProject key)
      then Done (setField resolvedProject key (get localProject key))
      else Done resolvedProject
  end.

(** The value of [resolvedProject] after the conflict branch (lines
    193-231); [None] is [undefined], left by a strategy that has no
    branch of its own. *)
Definition resolveConflict (s : strategy)
    (localProject remoteProject : object) : completion (option object) :=
  match s with
  | LATEST_WINS =>
      let localTime := updatedTime localProject in
      let remoteTime := updatedTime remoteProject in
      Done (Some (if time_gt localTime remoteTime
                  then localProject else remoteProject))
  | MERGE =>
      match fold_left (mergeField localProject remoteProject)
              (map fst localProject) (Done remoteProject) with
      | Done resolvedProject => Done (Some resolvedProject)
      | TypeError => TypeError
      end
  | _ => Done None
  end.

(** [{ ...resolvedProject }]; nothing is copied from [undefined]. *)
Definition spread (r : option object) : object :=
  match r with Some o => o | None => [] end.

(** [remoteProjects.forEach] (lines 174-179). *)
Definition addRemote (projectMap : jsmap) (project : object) : jsmap :=
  map_set projectMap (get project "id") (withSource project "remote").

(** [localProjects.forEach] (lines 182-238). *)
Definition mergeLocal (s : strategy) (acc : completion jsmap)
    (localProject : object) : completion jsmap :=
  match acc with
  | TypeError => TypeError
  | Done projectMap =>
      match map_get projectMap (get localProject "id") with
      | None =>
          Done (map_set projectMap (get localProject "id")
                  (withSource localProject "local"))
      | Some remoteProject =>
          match resolveConflict s localProject remoteProject with
          | TypeError => TypeError
          | Done resolvedProject =>
              Done (map_set projectMap (get localProject "id")
                      (withSource (spread resolvedProject) "merged"))
          end
      end
  end.

(** [Array.from(projectMap.values()).map(({ source, ...project }) => project)]. *)
Definition stripSource (projectMap : jsmap) : list object :=
  map (fun entry => removeField (snd entry) "source") projectMap.

Definition mergeProjects (localProjects remoteProjects : list object)
    (s : strategy) : completion (list object) :=
  match s with
  | SERVER_WINS => Done remoteProjects
  | LOCAL_WINS => Done localProjects
  | _ =>
      match fold_left (mergeLocal s) localProjects
              (Done (fold_left addRemote remoteProjects [])) with
      | Done projectMap => Done (stripSource projectMap)
      | TypeError => TypeError
      end
  end.

End Runtime.

(** Collections whose records carry pairwise different ids. *)
Definition uniqueIds (projects : list object) : Prop :=
  ForallOrdPairs
    (fun a b => sameValueZero (get a "id") (get b "id") = false) projects.

(** ** A date parser for the examples

    The two forms of the ECMAScript date-time string format the application
    writes: [YYYY-MM-DD] and the output of [toISOString],
    [YYYY-MM-DDTHH:mm:ss.sssZ].  Any other string is an invalid date. *)

Definition isLeapYear (y : Z) : bool :=
  ((y mod 4 =? 0) && negb (y mod 100 =? 0)) || (y mod 400 =? 0).

Definition daysInMonth (y m : Z) : Z :=
  if m =? 2 then (if isLeapYear y then 29 else 28)
  else if (m =? 4) || (m =? 6) || (m =? 9) || (m =? 11) then 30
  else 31.

(** Days between 1970-01-01 and the given civil date. *)
Definition daysFromCivil (y m d : Z) : Z :=
  let y' := if m <=? 2 then y - 1 else y in
  let era := y' / 400 in
  let yoe := y' - era * 400 in
  let doy := (153 * ((m + 9) mod 12) + 2) / 5 + d - 1 in
  let doe := yoe * 365 + yoe / 4 - yoe / 100 + doy in
  era * 146097 + doe - 719468.

Definition digitsAt (s : string) (start len : nat) : option Z :=
  let t := substring start len s in
  if Nat.eqb (String.length t) len then decimalValue t 0 else None.

Definition charAt (s : string) (i : nat) (c : string) : bool :=
  (substring i 1 s =? c)%string.

Definition isoDateParse (s : string) : option Z :=
  match digitsAt s 0 4, digitsAt s 5 2, digitsAt s 8 2 with
  | Some y, Some m, Some d =>
      if charAt s 4 "-" && charAt s 7 "-" && (1 <=? m) && (m <=? 12)
         && (1 <=? d) && (d <=? daysInMonth y m)
      then
        let day := daysFromCivil y m d * 86400000 in
        if Nat.eqb (String.length s) 10 then Some day
        else if Nat.eqb (String.length s) 24 && charAt s 10 "T"
                && charAt s 13 ":" && charAt s 16 ":" && charAt s 19 "."
                && charAt s 23 "Z"
        then
          match digitsAt s 11 2, digitsAt s 14 2, digitsAt s 17 2,
                digitsAt s 20 3 with
          | Some h, Some mi, Some sec, Some ms =>
              if (h <=? 23) && (mi <=? 59) && (sec <=? 59)
              then Some (day + h * 3600000 + mi * 60000 + sec * 1000 + ms)
              else None
          | _, _, _, _ => None
          end
        else None
      else None
  | _, _, _ => None
  end.

(** The relational operator of the examples, which compare numbers only. *)
Definition noOtherOrder (a b : value) : bool := false.

Definition sameId (a b : object) : bool :=
  sameValueZero (get a "id") (get b "id").

(** The record of a collection that carries the id of [p], if any. *)
Definition counterpart (projects : list object) (p : object) : option object :=
  find (fun q => sameId q p) projects.

Definition withoutCounterpart (projects : list object) (p : object) : bool :=
  match counterpart projects p with
  | Some _ => false
  | None => true
  end.


(** ** Sample records *)

Definition kitchenItem : value :=
  VObj [("description", VStr "Oak cabinet"); ("quantity", VNum 4)].

Definition kitchenLocal : object :=
  [("id", VStr "p1"); ("name", VStr "Kitchen");
   ("updatedAt", VStr "2024-01-02T09:30:00.000Z");
   ("lineItems", VArr [kitchenItem])].

Definition kitchenRemote : object :=
  [("id", VStr "p1"); ("name", VStr "Kitchen remodel");
   ("updatedAt", VStr "2024-01-01T17:00:00.000Z");
   ("lineItems", VArr [])].

(** A local edit stamped with the very time of the remote version. *)
Definition kitchenEdited : object :=
  [("id", VStr "p1"); ("name", VStr "Kitchen and pantry");
   ("updatedAt", VStr "2024-01-01T17:00:00.000Z");
   ("lineItems", VArr [kitchenItem])].

(** The same project as the server holds it when it never had line items. *)
Definition kitchenBare : object :=
  [("id", VStr "p1"); ("name", VStr "Kitchen remodel");
   ("updatedAt", VStr "2024-01-01T17:00:00.000Z")].


Definition garageLocal : object :=
  [("id", VStr "p2"); ("name", VStr "Garage"); ("source", VStr "import");
   ("updatedAt", VStr "2024-02-10"); ("lineItems", VArr [])].

Definition garageRemote : object :=
  [("id", VStr "p2"); ("name", VStr "Garage door");
   ("updatedAt", VStr "2024-02-01"); ("lineItems", VArr [])].

Definition deckRemote : object :=
  [("id", VStr "p3"); ("name", VStr "Deck");
   ("updatedAt", VStr "2024-03-05"); ("lineItems", VArr [])].

(** ** The fingerprint ([calculateHash], sync-manager.js 74-90) *)

Definition dquote : ascii := "034"%char.
Definition backslash : ascii := "092"%char.

Definition charCode (c : ascii) : Z := Z.of_nat (nat_of_ascii c).

(** The escape [JSON.stringify] writes for one code unit. *)
Definition escapeChar (c : ascii) : string :=
  let n := charCode c in
  let esc x := String backslash (String x EmptyString) in
  if n =? 34 then esc dquote
  else if n =? 92 then esc backslash
  else if n =? 8 then esc "b"%char
  else if n =? 12 then esc "f"%char
  else if n =? 10 then esc "n"%char
  else if n =? 13 then esc "r"%char
  else if n =? 9 then esc "t"%char
  else if n <? 32 then
    String backslash
      (String "u" (String "0" (String "0"
         (String (digitChar (n / 16))
            (String (digitChar (n mod 16)) EmptyString)))))
  else String c EmptyString.

Fixpoint escapeJSON (s : string) : string :=
  match s with
  | EmptyString => EmptyString
  | String c rest => (escapeChar c ++ escapeJSON rest)%string
  end.

Definition quoteJSON (s : string) : string :=
  String dquote (escapeJSON s ++ String dquote EmptyString)%string.

(** [JSON.stringify]: an [undefined] array element is written [null], an
    [undefined] property is left out. *)
Fixpoint JSON_stringify (v : value) : string :=
  match v with
  | VUndef | VNull => "null"
  | VBool true => "true"
  | VBool false => "false"
  | VNum n => numberToString 10 n
  | VStr s => quoteJSON s
  | VArr items =>
      ("[" ++ String.concat "," (map JSON_stringify items) ++ "]")%string
  | VObj fields =>
      ("{" ++ String.concat ","
                ((fix properties (fs : list (string * value)) : list string :=
                    match fs with
                    | [] => []
                    | (k, VUndef) :: rest => properties rest
                    | (k, x) :: rest =>
                        (quoteJSON k ++ ":" ++ JSON_stringify x)%string
                        :: properties rest
                    end) fields)
           ++ "}")%string
  end.

(** ToInt32. *)
Definition toInt32 (z : Z) : Z := (z + 2 ^ 31) mod 2 ^ 32 - 2 ^ 31.

(** [a << n] on 32-bit integers. *)
Definition shl32 (a n : Z) : Z := toInt32 (Z.shiftl (toInt32 a) (Z.land n 31)).

(** The body of the loop: [hash = ((hash << 5) - hash) + char] and then
    [hash = hash & hash]. *)
Definition hashStep (hash : Z) (c : ascii) : Z :=
  let hash := shl32 hash 5 - hash + charCode c in
  toInt32 hash.

Definition hash32 (str : string) : Z :=
  fold_left hashStep (list_ascii_of_string str) 0.

(** [projects] is [None] when the argument is [null] or [undefined]. *)
Definition calculateHash (projects : option (list object)) : string :=
  match projects with
  | None => "empty"
  | Some [] => "empty"
  | Some ps => numberToString 36 (hash32 (JSON_stringify (VArr (map VObj ps))))
  end.

(** The value of a numeral in radix 36. *)
Definition digitValue (c : ascii) : Z :=
  let n := charCode c in if n <? 58 then n - 48 else n - 87.

Fixpoint valueOf36 (s : string) (acc : Z) : Z :=
  match s with
  | EmptyString => acc
  | String c rest => valueOf36 rest (acc * 36 + digitValue c)
  end.

(** A project whose one-record collection hashes to the numeral 'empty'. *)
Definition kitchenClash : object :=
  [("id", VStr "ampoiywo"); ("name", VStr "Kitchen");
   ("updatedAt", VStr "2024-01-02"); ("lineItems", VArr [])].

(** ** Errors and their classification *)

(** An error object: [error.code] and [error.message], [None] when the
    property is missing. *)
Record jsError : Type := mkError {
  code : option string;
  message : option string
}.

Inductive outcome (A : Type) : Type :=
| Returned (a : A)
| Thrown (e : jsError).
Arguments Returned {A} a.
Arguments Thrown {A} e.

(** [s.includes(needle)]. *)
Fixpoint includes (s needle : string) : bool :=
  prefix needle s
  || match s with
     | EmptyString => false
     | String _ rest => includes rest needle
     end.

(** [s.toLowerCase()] on code units below 256. *)
Definition lowerChar (c : ascii) : ascii :=
  let n := charCode c in
  if ((65 <=? n) && (n <=? 90))
     || ((192 <=? n) && (n <=? 222) && negb (n =? 215))
  then ascii_of_nat (Z.to_nat (n + 32)) else c.

Fixpoint toLowerCase (s : string) : string :=
  match s with
  | EmptyString => EmptyString
  | String c rest => String (lowerChar c) (toLowerCase rest)
  end.

Definition orEmpty (s : option string) : string :=
  match s with Some x => x | None => EmptyString end.

(** [categorizeError] (error-handler.js 148-188); [None] is a missing
    error. *)
Inductive category : Type := AUTH | NETWORK | PERMISSION | DATA | UNKNOWN.

Definition categorizeError (error : option jsError) : category :=
  match error with
  | None => UNKNOWN
  | Some e =>
      match code e with
      | None => UNKNOWN
      | Some c =>
          if (c =? "")%string then UNKNOWN
          else if prefix "auth/" c then AUTH
          else if (c =? "unavailable")%string
                  || (c =? "deadline-exceeded")%string
                  || (c =? "cancelled")%string
                  || includes c "network" then NETWORK
          else if (c =? "permission-denied")%string
                  || (c =? "unauthenticated")%string then PERMISSION
          else if (c =? "invalid-argument")%string
                  || (c =? "not-found")%string
                  || (c =? "already-exists")%string then DATA
          else UNKNOWN
      end
  end.

(** [isOfflineError] (firestore-service.js 57-71), on an error object. *)
Definition isOfflineError (error : jsError) : bool :=
  let code := orEmpty (code error) in
  let message := toLowerCase (orEmpty (message error)) in
  (code =? "unavailable")%string
  || (code =? "offline")%string
  || (code =? "failed-precondition")%string
  || includes message "offline"
  || includes message "network"
  || includes message "unavailable".

(** ** Retry with backoff ([executeWithRetry], firestore-service.js 80-113) *)

Record RetryConfig : Type := mkRetryConfig {
  maxRetries : nat;
  initialDelay : Z;
  maxDelay : Z;
  backoffMultiplier : Z
}.

Definition RETRY_CONFIG : RetryConfig :=
  {| maxRetries := 3; initialDelay := 1000; maxDelay := 10000;
     backoffMultiplier := 2 |}.

(** What a remote operation is seen to do. *)
Inductive event : Type :=
| Attempt
| Sleep (ms : Z)
| CacheRead.

Definition event_eq_dec (a b : event) : {a = b} + {a <> b}.
Proof. decide equality. apply Z.eq_dec. Defined.

Section Retry.

(** The remote store is a state [W]; an operation reads and changes it
    and comes back with a value or an error. *)
Context {W A : Type}.
Variable cfg : RetryConfig.

Definition getBackoffDelay (attempt : Z) : Z :=
  let delay := initialDelay cfg * backoffMultiplier cfg ^ attempt in
  Z.min delay (maxDelay cfg).

(** The errors the loop does not retry (line 98). *)
Definition nonRetryable (error : jsError) : bool :=
  match code error with
  | Some c => (c =? "permission-denied")%string
              || (c =? "unauthenticated")%string
  | None => false
  end.

(** The loop from [attempt] on, [remaining] being [maxRetries - attempt];
    it ends in [throw lastError] once no retry remains. *)
Fixpoint retryFrom (operation : W -> outcome A * W) (remaining : nat)
    (attempt : Z) (w : W) : outcome A * W * list event :=
  let slept := if 0 <? attempt then [Sleep (getBackoffDelay (attempt - 1))]
               else [] in
  match operation w with
  | (Returned result, w') => (Returned result, w', slept ++ [Attempt])
  | (Thrown error, w') =>
      if nonRetryable error then (Thrown error, w', slept ++ [Attempt])
      else match remaining with
           | O => (Thrown error, w', slept ++ [Attempt])
           | S remaining' =>
               let '(result, w'', events) :=
                 retryFrom operation remaining' (attempt + 1) w' in
               (result, w'', slept ++ Attempt :: events)
           end
  end.

Definition executeWithRetry (operation : W -> outcome A * W) (w : W)
  : outcome A * W * list event :=
  retryFrom operation (maxRetries cfg) 0 w.

(** What an operation that never succeeds and is always retried is seen
    to do from [attempt] on. *)
Fixpoint exhaustedFrom (remaining : nat) (attempt : Z) : list event :=
  (if 0 <? attempt then [Sleep (getBackoffDelay (attempt - 1))] else [])
  ++ Attempt :: match remaining with
                | O => []
                | S remaining' => exhaustedFrom remaining' (attempt + 1)
                end.

End Retry.

(** ** Fetch with cache fallback ([fetchDocument], firestore-service.js 122-188) *)

Record snapshot : Type := mkSnapshot {
  exists_ : bool;
  snapshotData : value
}.

Record FirestoreResult : Type := mkResult {
  success : bool;
  data : value;
  error : option string;
  fromCache : bool
}.

(** A document reference: [get({ source: 'server' })] and
    [get({ source: 'cache' })]. *)
Record docRef (W : Type) : Type := mkDocRef {
  getServer : W -> outcome snapshot * W;
  getCache : W -> outcome snapshot * W
}.
Arguments getServer {W} d.
Arguments getCache {W} d.

Section Fetch.

Context {W : Type}.
(** [getDocument] throws while Firebase is not initialised. *)
Variable getDocument : string -> string -> outcome (docRef W).

(** The result of the outer [catch] (lines 178-187). *)
Definition fetchFailure (error : jsError) : FirestoreResult :=
  {| success := false; data := VNull;
     error := Some (match message error with
                    | Some m => if (m =? "")%string
                                then "Failed to fetch document" else m
                    | None => "Failed to fetch document"
                    end);
     fromCache := false |}.

Definition fetchDocument (collectionName documentId : string) (w : W)
  : FirestoreResult * W * list event :=
  match getDocument collectionName documentId with
  | Thrown error => (fetchFailure error, w, [])
  | Returned ref =>
      match executeWithRetry RETRY_CONFIG (getServer ref) w with
      | (Returned snap, w1, events) =>
          if exists_ snap
          then ({| success := true; data := snapshotData snap;
                   error := None; fromCache := false |}, w1, events)
          else ({| success := true; data := VNull;
                   error := None; fromCache := false |}, w1, events)
      | (Thrown serverError, w1, events) =>
          if isOfflineError serverError then
            match getCache ref w1 with
            | (Returned cachedSnapshot, w2) =>
                if exists_ cachedSnapshot
                then ({| success := true;
                         data := snapshotData cachedSnapshot;
                         error := None; fromCache := true |},
                      w2, events ++ [CacheRead])
                else (fetchFailure serverError, w2, events ++ [CacheRead])
            | (Thrown cacheError, w2) =>
                (fetchFailure serverError, w2, events ++ [CacheRead])
            end
          else (fetchFailure serverError, w1, events)
      end
  end.

End Fetch.

(** A store that is down: every read fails with the same error and is
    counted. *)
Definition unavailableError : jsError :=
  {| code := Some "unavailable";
     message := Some "Failed to get document because the client is offline." |}.

Definition deniedError : jsError :=
  {| code := Some "permission-denied";
     message := Some "Missing or insufficient permissions." |}.

Definition failingRead (error : jsError) (reads : nat)
  : outcome snapshot * nat := (Thrown error, S reads).

Definition cachedKitchen : snapshot :=
  {| exists_ := true;
     snapshotData := VObj [("projects", VArr [VObj kitchenRemote])] |}.

Definition offlineRef : docRef nat :=
  {| getServer := failingRead unavailableError;
     getCache := fun reads => (Returned cachedKitchen, reads) |}.

(** The same store with nothing to offer from its cache: the cache read
    fails as well. *)
Definition cacheMissError : jsError :=
  {| code := Some "unavailable";
     message := Some "Failed to get document from cache." |}.

Definition uncachedRef : docRef nat :=
  {| getServer := failingRead unavailableError;
     getCache := failingRead cacheMissError |}.

(** The delays of a run, in order. *)
Fixpoint delays (events : list event) : list Z :=
  match events with
  | [] => []
  | Sleep ms :: rest => ms :: delays rest
  | _ :: rest => delays rest
  end.

(** ** The sync coordinator and the realtime filter

    [syncToCloud] and the snapshot handler of [startRealtimeSync] as a
    transition system.  An input is one turn of the event loop: a call from
    the application, the settling of the pending [saveUserProjects], the
    firing of a [setTimeout], a snapshot delivered by the subscription. *)

(** A queued closure [() => syncToCloud(projects).then(resolve)]: the
    projects and the caller whose promise it resolves. *)
Record request : Type := mkRequest {
  caller : nat;
  payload : list object
}.

(** A [saveUserProjects] that has not settled yet, with the [hash] its
    [syncToCloud] computed before the call. *)
Record pendingSave : Type := mkPending {
  saveCaller : nat;
  saveProjects : list object;
  saveHash : string
}.

Record SyncResult : Type := mkSyncResult {
  resultSuccess : bool;
  resultProjects : list object;
  resultError : option string;
  resultFromCache : bool;
  direction : string
}.

(** What the coordinator is seen to do. *)
Inductive observation : Type :=
| Notified (status : string) (isSyncing : bool)
| SaveStarted (who : nat) (projects : list object)
| SaveEnded (who : nat)
| Resolved (who : nat) (result : SyncResult)
| Stored (key json : string)
| Updated (projects : list object) (fromCache hasPendingWrites : bool).

(** [syncState] (lines 19-28).  [realtimeUnsubscribe] is [Some b] while a
    subscription is on, [b] telling whether an [onUpdate] was given. *)
Record syncState : Type := mkSyncState {
  lastSyncTime : option Z;
  lastSyncedHash : option string;
  syncInProgress : bool;
  realtimeUnsubscribe : option bool;
  autoSyncEnabled : bool;
  syncQueue : list request
}.

(** The coordinator with its surroundings: the session, [localStorage],
    the timers set and the saves under way. *)
Record machine : Type := mkMachine {
  state : syncState;
  authenticated : bool;
  userId : option string;
  localStorage : list (string * string);
  quotaExceeded : bool;
  timers : list request;
  inFlight : list pendingSave;
  log : list observation
}.

Definition withState (m : machine) (s : syncState) : machine :=
  {| state := s; authenticated := authenticated m; userId := userId m;
     localStorage := localStorage m; quotaExceeded := quotaExceeded m;
     timers := timers m; inFlight := inFlight m; log := log m |}.

Definition observe (m : machine) (o : observation) : machine :=
  {| state := state m; authenticated := authenticated m; userId := userId m;
     localStorage := localStorage m; quotaExceeded := quotaExceeded m;
     timers := timers m; inFlight := inFlight m; log := log m ++ [o] |}.

Definition withTimers (m : machine) (t : list request) : machine :=
  {| state := state m; authenticated := authenticated m; userId := userId m;
     localStorage := localStorage m; quotaExceeded := quotaExceeded m;
     timers := t; inFlight := inFlight m; log := log m |}.

Definition withInFlight (m : machine) (f : list pendingSave) : machine :=
  {| state := state m; authenticated := authenticated m; userId := userId m;
     localStorage := localStorage m; quotaExceeded := quotaExceeded m;
     timers := timers m; inFlight := f; log := log m |}.

Definition withStorage (m : machine) (l : list (string * string)) : machine :=
  {| state := state m; authenticated := authenticated m; userId := userId m;
     localStorage := l; quotaExceeded := quotaExceeded m;
     timers := timers m; inFlight := inFlight m; log := log m |}.

Definition withSession (m : machine) (auth : bool) (uid : option string)
  : machine :=
  {| state := state m; authenticated := auth; userId := uid;
     localStorage := localStorage m; quotaExceeded := quotaExceeded m;
     timers := timers m; inFlight := inFlight m; log := log m |}.

Definition setInProgress (s : syncState) (b : bool) : syncState :=
  {| lastSyncTime := lastSyncTime s; lastSyncedHash := lastSyncedHash s;
     syncInProgress := b; realtimeUnsubscribe := realtimeUnsubscribe s;
     autoSyncEnabled := autoSyncEnabled s; syncQueue := syncQueue s |}.

Definition setQueue (s : syncState) (q : list request) : syncState :=
  {| lastSyncTime := lastSyncTime s; lastSyncedHash := lastSyncedHash s;
     syncInProgress := syncInProgress s;
     realtimeUnsubscribe := realtimeUnsubscribe s;
     autoSyncEnabled := autoSyncEnabled s; syncQueue := q |}.

Definition setSynced (s : syncState) (now : Z) (hash : string) : syncState :=
  {| lastSyncTime := Some now; lastSyncedHash := Some hash;
     syncInProgress := syncInProgress s;
     realtimeUnsubscribe := realtimeUnsubscribe s;
     autoSyncEnabled := autoSyncEnabled s; syncQueue := syncQueue s |}.

Definition setRealtime (s : syncState) (u : option bool) : syncState :=
  {| lastSyncTime := lastSyncTime s; lastSyncedHash := lastSyncedHash s;
     syncInProgress := syncInProgress s; realtimeUnsubscribe := u;
     autoSyncEnabled := autoSyncEnabled s; syncQueue := syncQueue s |}.

(** [getStorageKey] (lines 97-102). *)
Definition getStorageKey (m : machine) : string :=
  match userId m with
  | Some uid => if (uid =? "")%string then "constructionEstimatorProjects"
                else ("constructionEstimatorProjects:" ++ uid)%string
  | None => "constructionEstimatorProjects"
  end.

Fixpoint setItem (store : list (string * string)) (key item : string)
  : list (string * string) :=
  match store with
  | [] => [(key, item)]
  | (k, v) :: rest => if (k =? key)%string then (k, item) :: rest
                      else (k, v) :: setItem rest key item
  end.

(** [saveLocalProjects] (lines 136-148): a write that exceeds the quota
    throws inside the [try] and leaves the store as it was. *)
Definition saveLocalProjects (m : machine) (projects : list object) : machine :=
  let key := getStorageKey m in
  let json := JSON_stringify (VArr (map VObj projects)) in
  let m := observe m (Stored key json) in
  if quotaExceeded m then m
  else withStorage m (setItem (localStorage m) key json).

(** [notifySyncListeners]. *)
Definition notifySyncListeners (m : machine) (status : string)
    (isSyncing : bool) : machine :=
  observe m (Notified status isSyncing).

Definition uploadResult (success : bool) (projects : list object)
    (error : option string) : SyncResult :=
  {| resultSuccess := success; resultProjects := projects;
     resultError := error; resultFromCache := false; direction := "upload" |}.

(** [syncToCloud] up to its [await] (lines 254-282). *)
Definition syncToCloud (r : request) (m : machine) : machine :=
  if negb (authenticated m) then
    observe m (Resolved (caller r)
                 (uploadResult false [] (Some "Not authenticated")))
  else if syncInProgress (state m) then
    withState m (setQueue (state m) (syncQueue (state m) ++ [r]))
  else
    let m := withState m (setInProgress (state m) true) in
    let m := notifySyncListeners m "syncing" true in
    let hash := calculateHash (Some (payload r)) in
    let m := withInFlight m
               (inFlight m ++ [mkPending (caller r) (payload r) hash]) in
    observe m (SaveStarted (caller r) (payload r)).

(** The [finally] block (lines 319-327). *)
Definition finallyBlock (m : machine) : machine :=
  let m := withState m (setInProgress (state m) false) in
  match syncQueue (state m) with
  | [] => m
  | nextSync :: rest =>
      let m := withState m (setQueue (state m) rest) in
      withTimers m (timers m ++ [nextSync])
  end.

(** The message of [new Error(result.error)], or 'Sync failed'. *)
Definition syncErrorMessage (error : option string) : string :=
  match error with
  | Some e => if (e =? "")%string then "Sync failed" else e
  | None => "null"
  end.

(** [syncToCloud] from the settling of [saveUserProjects] on (lines
    284-327). *)
Definition resume (p : pendingSave) (result : FirestoreResult) (now : Z)
    (m : machine) : machine :=
  let m := observe m (SaveEnded (saveCaller p)) in
  if success result then
    let m := withState m (setSynced (state m) now (saveHash p)) in
    let m := saveLocalProjects m (saveProjects p) in
    let m := notifySyncListeners m "success" false in
    let m := finallyBlock m in
    observe m (Resolved (saveCaller p)
                 (uploadResult true (saveProjects p) None))
  else
    let m := notifySyncListeners m "error" false in
    let m := finallyBlock m in
    observe m (Resolved (saveCaller p)
                 (uploadResult false []
                    (Some (syncErrorMessage (error result))))).

Fixpoint takeSave (who : nat) (saves : list pendingSave)
  : option (pendingSave * list pendingSave) :=
  match saves with
  | [] => None
  | p :: rest =>
      if Nat.eqb (saveCaller p) who then Some (p, rest)
      else match takeSave who rest with
           | Some (q, rest') => Some (q, p :: rest')
           | None => None
           end
  end.

(** The snapshot handler of [startRealtimeSync] (lines 420-452). *)
Definition onSnapshot (onUpdate : bool) (projects : list object)
    (fromCache hasPendingWrites : bool) (now : Z) (m : machine) : machine :=
  if syncInProgress (state m) then m
  else
    let newHash := calculateHash (Some projects) in
    if match lastSyncedHash (state m) with
       | Some h => (newHash =? h)%string
       | None => false
       end
    then m
    else
      let m := saveLocalProjects m projects in
      let m := withState m (setSynced (state m) now newHash) in
      if onUpdate then observe m (Updated projects fromCache hasPendingWrites)
      else m.

(** [clearSyncState] (lines 526-536). *)
Definition clearSyncState (m : machine) : machine :=
  withState m
    {| lastSyncTime := None; lastSyncedHash := None; syncInProgress := false;
       realtimeUnsubscribe := None;
       autoSyncEnabled := autoSyncEnabled (state m); syncQueue := [] |}.

Inductive input : Type :=
| Upload (who : nat) (projects : list object)
| SaveSettled (who : nat) (result : FirestoreResult) (now : Z)
| TimerFired
| Snapshot (projects : list object) (fromCache hasPendingWrites : bool)
    (now : Z)
| StartRealtime (onUpdate : bool)
| StopRealtime
| ClearSyncState
| SessionChanged (isAuthenticated : bool) (uid : option string).

Definition step (m : machine) (i : input) : machine :=
  match i with
  | Upload who projects => syncToCloud (mkRequest who projects) m
  | SaveSettled who result now =>
      match takeSave who (inFlight m) with
      | Some (p, rest) => resume p result now (withInFlight m rest)
      | None => m
      end
  | TimerFired =>
      match timers m with
      | nextSync :: rest => syncToCloud nextSync (withTimers m rest)
      | [] => m
      end
  | Snapshot projects fromCache hasPendingWrites now =>
      match realtimeUnsubscribe (state m) with
      | Some onUpdate =>
          onSnapshot onUpdate projects fromCache hasPendingWrites now m
      | None => m
      end
  | StartRealtime onUpdate =>
      if negb (authenticated m) then m
      else match realtimeUnsubscribe (state m) with
           | Some _ => m
           | None => withState m (setRealtime (state m) (Some onUpdate))
           end
  | StopRealtime => withState m (setRealtime (state m) None)
  | ClearSyncState => clearSyncState m
  | SessionChanged isAuthenticated uid => withSession m isAuthenticated uid
  end.

Definition run (m : machine) (inputs : list input) : machine :=
  fold_left step inputs m.

(** The engine as the module leaves it, with a user signed in. *)
Definition signedIn (uid : string) : machine :=
  {| state := {| lastSyncTime := None; lastSyncedHash := None;
                 syncInProgress := false; realtimeUnsubscribe := None;
                 autoSyncEnabled := true; syncQueue := [] |};
     authenticated := true; userId := Some uid;
     localStorage := []; quotaExceeded := false;
     timers := []; inFlight := []; log := [] |}.

(** The callers whose save was started, in the order of the starts. *)
Fixpoint savesStarted (l : list observation) : list nat :=
  match l with
  | [] => []
  | SaveStarted who _ :: rest => who :: savesStarted rest
  | _ :: rest => savesStarted rest
  end.

(** The callers whose promise was resolved, in order. *)
Fixpoint resolved (l : list observation) : list nat :=
  match l with
  | [] => []
  | Resolved who _ :: rest => who :: resolved rest
  | _ :: rest => resolved rest
  end.

(** Starts and ends of saves, the rest left out. *)
Fixpoint saveCalls (l : list observation) : list observation :=
  match l with
  | [] => []
  | SaveStarted who p :: rest => SaveStarted who p :: saveCalls rest
  | SaveEnded who :: rest => SaveEnded who :: saveCalls rest
  | _ :: rest => saveCalls rest
  end.

Definition saved : FirestoreResult :=
  {| success := true; data := VNull; error := None; fromCache := false |}.

(** ** The map of the merge, as the proofs follow it *)

(** The keys of the map are pairwise different. *)
Definition distinctKeys (m : jsmap) : Prop :=
  ForallOrdPairs (fun a b => sameValueZero (fst a) (fst b) = false) m.

(** Every entry holds a record whose id is its key. *)
Definition keyedById (m : jsmap) : Prop :=
  Forall (fun e => get (snd e) "id" = fst e) m.

Section Shape.

(** [f l r] is what the conflict branch leaves in [resolvedProject]. *)
Variable f : object -> object -> option object.

(** The entry written for a conflict between [l] and the remote [r]. *)
Definition mergedEntry (l r : object) : object :=
withSource (spread (f l (withSource r "remote"))) "merged".

(** The entry under the id of the remote record [r] once the local
  records [locals] have been gone through. *)
Definition entryOf (locals : list object) (r : object) : object :=
match counterpart locals r with
| Some l => mergedEntry l r
| None => withSource r "remote"
end.

(** The whole map at that point. *)
Definition shapeOf (locals remote : list object) : jsmap :=
map (fun r => (get r "id", entryOf locals r)) remote
++ map (fun l => (get l "id", withSource l "local"))
     (filter (withoutCounterpart remote) locals).

End Shape.

(** Unfolding of the coordinator's steps, by need: the fields of a machine
    are read off without the machine being written out. *)
Ltac frame :=
  lazy beta iota zeta delta
    [state authenticated userId localStorage quotaExceeded timers inFlight
     log lastSyncTime lastSyncedHash syncInProgress realtimeUnsubscribe
     autoSyncEnabled syncQueue saveCaller saveProjects saveHash caller payload
     withState observe withTimers withInFlight withStorage withSession
     setInProgress setQueue setSynced setRealtime notifySyncListeners
     saveLocalProjects finallyBlock resume syncToCloud onSnapshot
     clearSyncState step takeSave negb app].

(** At most one save is under way, and none while no sync is in progress. *)
Definition singleFlight (m : machine) : Prop :=
  (syncInProgress (state m) = true /\ exists p, inFlight m = [p])
  \/ (syncInProgress (state m) = false /\ inFlight m = []).

(** ** Vocabulary of the further properties *)

(** The id of a record, as [project.id] reads it. *)
Definition idOf (p : object) : value := get p "id".


(** The polynomial hash with multiplier 31 over the integers, before
    any wrap-around. *)
Definition polyHash (str : string) : Z :=
  fold_left (fun h c => 31 * h + charCode c) (list_ascii_of_string str) 0.

(** Reading back what [n.toString(36)] writes, sign included. *)
Definition signedValueOf36 (s : string) : Z :=
  match s with
  | String c rest =>
      if (c =? "-")%char then - valueOf36 rest 0 else valueOf36 s 0
  | EmptyString => 0
  end.

Fixpoint noMinus (s : string) : bool :=
  match s with
  | EmptyString => true
  | String c rest => negb (c =? "-")%char && noMinus rest
  end.

(** ** The second retry loop ([retryOperation], error-handler.js 364-411) *)

(** What an operation may reject with.  The loop and [categorizeError]
    read the rejection through [!error], [error.code] and the string
    methods of the code.  [Nullish] stands for [null], [undefined] and
    the other falsy values; [ErrorObject e] for a value whose [code] is
    missing, falsy or a string (an [Error], a plain object, a thrown
    string); [OddCode] for an object whose [code] is truthy and not a
    string, as the numeric code of a [DOMException]. *)
Inductive rejection : Type :=
| Nullish
| ErrorObject (e : jsError)
| OddCode (message : option string).

Inductive attempted (A : Type) : Type :=
| Value (a : A)
| Raised (r : rejection).
Arguments Value {A} a.
Arguments Raised {A} r.

(** [categorizeError(error)] on any rejection: on a code that is not a
    string, [code.startsWith] is not a function. *)
Definition categorizeRejection (r : rejection) : completion category :=
  match r with
  | Nullish => Done UNKNOWN
  | ErrorObject e => Done (categorizeError (Some e))
  | OddCode _ => TypeError
  end.

(** The [TypeError] of that call. *)
Definition notAFunction : jsError :=
  {| code := None; message := Some "code.startsWith is not a function" |}.

Section RetryOperation.

Context {W A : Type}.

(** [options]: the four numbers of a [RetryConfig] and [onRetry], a
    callback that may itself throw.  The line written through
    [logger.debug] before each wait is not part of the trace. *)
Variable options : RetryConfig.
Variable onRetry : option (Z -> rejection -> W -> attempted unit * W).

(** The loop from [attempt] on, [remaining] being [maxRetries - attempt].
    The wait and the callback stand inside the [try], so an error thrown by
    the callback is handled like one of the operation.  An error thrown
    by [categorizeError] inside the [catch] leaves the loop at once. *)
Fixpoint retryOperationFrom (operation : W -> attempted A * W)
    (remaining : nat) (attempt : Z) (lastError : rejection) (w : W)
  : attempted A * W * list event :=
  let delay := Z.min (initialDelay options
                      * backoffMultiplier options ^ (attempt - 1))
                     (maxDelay options) in
  let slept := if 0 <? attempt then [Sleep delay] else [] in
  let caught (error : rejection) (w' : W) (events : list event) :=
    match categorizeRejection error with
    | TypeError => (Raised (ErrorObject notAFunction), w', events)
    | Done PERMISSION => (Raised error, w', events)
    | Done _ =>
        match remaining with
        | O => (Raised error, w', events)
        | S remaining' =>
            let '(result, w'', later) :=
              retryOperationFrom operation remaining' (attempt + 1) error w' in
            (result, w'', events ++ later)
        end
    end in
  let called := match (if 0 <? attempt then onRetry else None) with
                | Some callback => callback attempt lastError w
                | None => (Value tt, w)
                end in
  match called with
  | (Raised error, w') => caught error w' slept
  | (Value _, w') =>
      match operation w' with
      | (Value result, w'') => (Value result, w'', slept ++ [Attempt])
      | (Raised error, w'') => caught error w'' (slept ++ [Attempt])
      end
  end.

(** [let lastError = null] before the loop. *)
Definition retryOperation (operation : W -> attempted A * W) (w : W)
  : attempted A * W * list event :=
  retryOperationFrom operation (maxRetries options) 0 Nullish w.

End RetryOperation.

(** An operation of the Firestore service, which rejects with error
    objects, as an operation of the second loop; and its outcome. *)
Definition asAttempted {A : Type} (o : outcome A) : attempted A :=
  match o with
  | Returned a => Value a
  | Thrown e => Raised (ErrorObject e)
  end.

Definition asOperation {W A : Type} (operation : W -> outcome A * W) (w : W)
  : attempted A * W :=
  let '(o, w') := operation w in (asAttempted o, w').

Definition asRun {W A : Type} (result : outcome A * W * list event)
  : attempted A * W * list event :=
  let '(o, w', events) := result in (asAttempted o, w', events).

(** A read that fails the first [failures] times it is made. *)
Definition flakyRead (failures : nat) (reads : nat) : outcome snapshot * nat :=
  if (reads <? failures)%nat then (Thrown unavailableError, S reads)
  else (Returned cachedKitchen, S reads).

(** ** Vocabulary of the coordinator's invariants *)

Definition isUpload (i : input) : bool :=
  match i with
  | Upload _ _ => true
  | _ => false
  end.

(** A change of session that signs a user in. *)
Definition signsIn (i : input) : bool :=
  match i with
  | SessionChanged true _ => true
  | _ => false
  end.

(** The requests the coordinator holds: queued, waiting for their timer,
    or being saved. *)
Definition waiting (m : machine) : nat :=
  (List.length (syncQueue (state m)) + List.length (timers m)
   + List.length (inFlight m))%nat.

(** The promises of [syncToCloud] resolved so far. *)
Definition answered (m : machine) : nat :=
  List.length (resolved (log m)).

(** Reading the record of saves from the left: [Some b] when every start
    of a save found none under way and every end found one, [b] telling
    whether one is under way at the end; [None] otherwise. *)
Definition scanStep (s : option bool) (o : observation) : option bool :=
  match o with
  | SaveStarted _ _ => match s with
                       | Some false => Some true
                       | _ => None
                       end
  | SaveEnded _ => match s with
                   | Some true => Some false
                   | _ => None
                   end
  | _ => s
  end.

Definition saveDiscipline (l : list observation) : option bool :=
  fold_left scanStep l (Some false).

(** [localStorage.getItem]. *)
Fixpoint getItem (store : list (string * string)) (key : string)
  : option string :=
  match store with
  | [] => None
  | (k, v) :: rest => if (k =? key)%string then Some v else getItem rest key
  end.

(** As [frame], with the lists of the machine left as they are written. *)
Ltac frameLog :=
  lazy beta iota zeta delta
    [state authenticated userId localStorage quotaExceeded timers inFlight
     log lastSyncTime lastSyncedHash syncInProgress realtimeUnsubscribe
     autoSyncEnabled syncQueue saveCaller saveProjects saveHash caller payload
     withState observe withTimers withInFlight withStorage withSession
     setInProgress setQueue setSynced setRealtime notifySyncListeners
     saveLocalProjects finallyBlock resume syncToCloud onSnapshot
     clearSyncState step negb answered waiting success error].

(** ** Messages for the user ([getUserFriendlyError], error-handler.js
    196-250) *)

Definition getUserFriendlyError (error : option jsError) : string :=
  match error with
  | None => "An unknown error occurred."
  | Some e =>
      let code := orEmpty (code e) in
      match categorizeError error with
      | AUTH =>
          if (code =? "auth/popup-closed-by-user")%string
          then "Sign-in was cancelled."
          else if (code =? "auth/popup-blocked")%string
          then "Sign-in popup was blocked. Please allow popups for this site."
          else if (code =? "auth/network-request-failed")%string
          then "Network error during sign-in. Please check your connection."
          else if (code =? "auth/too-many-requests")%string
          then "Too many sign-in attempts. Please try again later."
          else if (code =? "auth/user-disabled")%string
          then "This account has been disabled."
          else if (code =? "auth/invalid-credential")%string
          then "Invalid credentials. Please try again."
          else "Authentication failed. Please try again."
      | NETWORK =>
          "Network connection issue. Please check your internet and try again."
      | PERMISSION =>
          "You don't have permission to perform this action. Please sign in."
      | DATA =>
          if (code =? "not-found")%string
          then "The requested data was not found."
          else if (code =? "already-exists")%string
          then "This data already exists."
          else if (code =? "invalid-argument")%string
          then "Invalid data provided."
          else "Data operation failed. Please try again."
      | UNKNOWN =>
          match message e with
          | Some m => if (m =? "")%string
                      then "An error occurred. Please try again." else m
          | None => "An error occurred. Please try again."
          end
      end
  end.

(** ** The logger ([log], error-handler.js 70-114) *)

Record logEntry : Type := mkLogEntry {
  timestamp : string;
  levelName : option string;
  logMessage : string;
  logData : value
}.

(** [loggerConfig] and [storedLogs], with what went to the console. *)
Record logger : Type := mkLogger {
  minLevel : Z;
  enableStorage : bool;
  storedLogs : list logEntry;
  console : list (string * string * value)
}.

(** [loggerConfig.maxStoredLogs]; the module has no way to change it. *)
Definition maxStoredLogs : nat := 100.

(** [Object.keys(LOG_LEVEL).find(key => LOG_LEVEL[key] === level)]. *)
Definition levelNameOf (level : Z) : option string :=
  if level =? 0 then Some "DEBUG"
  else if level =? 1 then Some "INFO"
  else if level =? 2 then Some "WARN"
  else if level =? 3 then Some "ERROR"
  else None.

(** [push] and, past the limit, [shift]. *)
Definition pushLimited (stored : list logEntry) (entry : logEntry)
  : list logEntry :=
  let pushed := stored ++ [entry] in
  if (maxStoredLogs <? List.length pushed)%nat then tl pushed else pushed.

(** The default of the parameter [data = null]. *)
Definition dataOrNull (data : value) : value :=
  match data with
  | VUndef => VNull
  | _ => data
  end.

(** [log(level, message, data)] at the time [now]; the [switch] prints
    nothing for a level that has no name. *)
Definition logAt (level : Z) (message : string) (data : value) (now : string)
    (l : logger) : logger :=
  if level <? minLevel l then l
  else
    let data := dataOrNull data in
    let entry := {| timestamp := now; levelName := levelNameOf level;
                    logMessage := message; logData := data |} in
    {| minLevel := minLevel l;
       enableStorage := enableStorage l;
       storedLogs := if enableStorage l then pushLimited (storedLogs l) entry
                     else storedLogs l;
       console := match levelNameOf level with
                  | Some name =>
                      console l
                      ++ [(("[OAK-Estimator] [" ++ name ++ "]")%string, message,
                           if truthy data then data else VStr "")]
                  | None => console l
                  end |}.

(** One call of [log]: level, message, data and the time of the call. *)
Record logCall : Type := mkLogCall {
  callLevel : Z;
  callMessage : string;
  callData : value;
  callTime : string
}.

Definition entryOfCall (c : logCall) : logEntry :=
  {| timestamp := callTime c; levelName := levelNameOf (callLevel c);
     logMessage := callMessage c; logData := dataOrNull (callData c) |}.

Definition logAll (calls : list logCall) (l : logger) : logger :=
  fold_left (fun l c => logAt (callLevel c) (callMessage c) (callData c)
                          (callTime c) l) calls l.

(** The last [n] elements of a list. *)
Definition lastN {A : Type} (n : nat) (l : list A) : list A :=
  skipn (List.length l - n) l.

(** The user whose storage key is read: an empty id counts as none. *)
Definition keyOwner (uid : option string) : option string :=
  match uid with
  | Some u => if (u =? "")%string then None else Some u
  | None => None
  end.

(** ** Vocabulary of the stability of the merge *)


Section Latest.

Variable Date_parse : string -> option Z.


End Latest.

(** ** A burst of uploads *)

(** The settling of the save of one request. *)
Record settlement : Type := mkSettlement {
  settledRequest : request;
  settledResult : FirestoreResult;
  settledAt : Z
}.

Definition uploadOf (r : request) : input :=
  Upload (caller r) (payload r).

(** The save of the request settles, then the timer set by [finally]
    fires. *)
Definition drainOf (s : settlement) : list input :=
  [SaveSettled (caller (settledRequest s)) (settledResult s) (settledAt s);
   TimerFired].

(** All uploads are asked for before the first save settles, and nothing
    else is asked for until the last one has. *)
Definition burst (settlements : list settlement) : list input :=
  map (fun s => uploadOf (settledRequest s)) settlements
  ++ flat_map drainOf settlements.

(** ** Batched writes ([batchWrite], firestore-service.js 366-415) *)

(** One element of [operations]; [opType] is [None] when [op.type] is
    missing. *)
Record batchOperation : Type := mkBatchOperation {
  opType : option string;
  opCollection : string;
  opDocId : string;
  opData : value;
  opMerge : value
}.

(** What [batch.set], [batch.update] and [batch.delete] put into the
    batch. *)
Inductive stagedWrite (R : Type) : Type :=
| BatchSet (ref : R) (data : value) (merge : bool)
| BatchUpdate (ref : R) (data : value)
| BatchDelete (ref : R).
Arguments BatchSet {R} ref data merge.
Arguments BatchUpdate {R} ref data.
Arguments BatchDelete {R} ref.

Definition knownType (t : option string) : bool :=
  match t with
  | Some t => (t =? "set")%string || (t =? "update")%string
              || (t =? "delete")%string
  | None => false
  end.

Section Batch.

Context {W R F : Type}.
(** [getFirestore] and [getDocument] throw while Firebase is not
    initialised; [commit] is [batch.commit()] on the remote store. *)
Variable getFirestore : outcome F.
Variable getDocument : string -> string -> outcome R.
Variable commit : list (stagedWrite R) -> W -> outcome unit * W.

(** [new Error(`Unknown batch operation type: ${op.type}`)]. *)
Definition unknownTypeError (t : option string) : jsError :=
  {| code := None;
     message := Some ("Unknown batch operation type: "
                      ++ match t with
                         | Some t => t
                         | None => "undefined"
                         end)%string |}.

(** One turn of the loop (lines 373-389). *)
Definition stageOperation (op : batchOperation) : outcome (stagedWrite R) :=
  match getDocument (opCollection op) (opDocId op) with
  | Thrown e => Thrown e
  | Returned docRef =>
      match opType op with
      | Some t =>
          if (t =? "set")%string
          then Returned (BatchSet docRef (opData op) (truthy (opMerge op)))
          else if (t =? "update")%string
          then Returned (BatchUpdate docRef (opData op))
          else if (t =? "delete")%string
          then Returned (BatchDelete docRef)
          else Thrown (unknownTypeError (opType op))
      | None => Thrown (unknownTypeError None)
      end
  end.

Fixpoint stageAll (operations : list batchOperation)
  : outcome (list (stagedWrite R)) :=
  match operations with
  | [] => Returned []
  | op :: rest =>
      match stageOperation op with
      | Thrown e => Thrown e
      | Returned write =>
          match stageAll rest with
          | Thrown e => Thrown e
          | Returned writes => Returned (write :: writes)
          end
      end
  end.

Definition batchFailure (error : jsError) : FirestoreResult :=
  {| success := false; data := VNull;
     error := Some (match message error with
                    | Some m => if (m =? "")%string
                                then "Failed to execute batch write" else m
                    | None => "Failed to execute batch write"
                    end);
     fromCache := false |}.

Definition batchWrite (operations : list batchOperation) (w : W)
  : FirestoreResult * W * list event :=
  match getFirestore with
  | Thrown e => (batchFailure e, w, [])
  | Returned _ =>
      match stageAll operations with
      | Thrown e => (batchFailure e, w, [])
      | Returned batch =>
          match executeWithRetry RETRY_CONFIG (commit batch) w with
          | (Returned _, w', events) =>
              ({| success := true;
                  data := VObj [("operationsCount",
                                 VNum (Z.of_nat (List.length operations)))];
                  error := None; fromCache := false |}, w', events)
          | (Thrown e, w', events) => (batchFailure e, w', events)
          end
      end
  end.

End Batch.

(** A store that counts the batches committed to it. *)
Definition countingCommit (batch : list (stagedWrite string)) (commits : nat)
  : outcome unit * nat :=
  (Returned tt, S commits).

Definition pathOf (collectionName documentId : string) : outcome string :=
  Returned (collectionName ++ "/" ++ documentId)%string.

(** ** The connection monitor (connection-monitor.js, in
    error-handler.js from line 439 on) *)

Record ConnectionStatus : Type := mkStatus {
  isOnline : bool;
  isFirestoreConnected : bool;
  lastStatusChange : Z
}.

(** [connectionState], whether the handlers of the window's [online] and
    [offline] events are installed, and the calls of listeners made so
    far.  A listener is named by a number; [listeners] is a [Set]. *)
Record monitor : Type := mkMonitor {
  connectionState : ConnectionStatus;
  watching : bool;
  listeners : list nat;
  calls : list (nat * ConnectionStatus)
}.

(** [updateConnectionStatus] (lines 507-530) at the time [now]. *)
Definition updateConnectionStatus (online firestoreConnected : bool) (now : Z)
    (m : monitor) : monitor :=
  let statusChanged :=
    negb (Bool.eqb (isOnline (connectionState m)) online)
    || negb (Bool.eqb (isFirestoreConnected (connectionState m))
               firestoreConnected) in
  if statusChanged then
    let status := {| isOnline := online;
                     isFirestoreConnected := firestoreConnected;
                     lastStatusChange := now |} in
    {| connectionState := status; watching := watching m;
       listeners := listeners m;
       calls := calls m ++ map (fun listener => (listener, status))
                             (listeners m) |}
  else m.

Inductive monitorInput : Type :=
| InitConnectionMonitor (navigatorOnLine : bool) (callback : option nat)
    (now : Z)
| WindowOnline (now : Z)
| WindowOffline (now : Z)
| SetFirestoreConnectionStatus (isConnected : bool) (now : Z)
| OnConnectionChange (listener : nat)
| Unsubscribe (listener : nat)
| Cleanup.

Definition monitorStep (m : monitor) (i : monitorInput) : monitor :=
  match i with
  | InitConnectionMonitor navigatorOnLine callback now =>
      let m := {| connectionState := connectionState m; watching := true;
                  listeners := listeners m; calls := calls m |} in
      let m := updateConnectionStatus navigatorOnLine
                 (isFirestoreConnected (connectionState m)) now m in
      match callback with
      | Some f => {| connectionState := connectionState m;
                     watching := watching m; listeners := listeners m;
                     calls := calls m ++ [(f, connectionState m)] |}
      | None => m
      end
  | WindowOnline now =>
      if watching m
      then updateConnectionStatus true
             (isFirestoreConnected (connectionState m)) now m
      else m
  | WindowOffline now =>
      if watching m then updateConnectionStatus false false now m else m
  | SetFirestoreConnectionStatus isConnected now =>
      updateConnectionStatus (isOnline (connectionState m)) isConnected now m
  | OnConnectionChange listener =>
      {| connectionState := connectionState m; watching := watching m;
         listeners := if existsb (Nat.eqb listener) (listeners m)
                      then listeners m else listeners m ++ [listener];
         calls := calls m ++ [(listener, connectionState m)] |}
  | Unsubscribe listener =>
      {| connectionState := connectionState m; watching := watching m;
         listeners := filter (fun l => negb (Nat.eqb listener l))
                        (listeners m);
         calls := calls m |}
  | Cleanup =>
      {| connectionState := connectionState m; watching := false;
         listeners := []; calls := calls m |}
  end.

Definition runMonitor (m : monitor) (inputs : list monitorInput) : monitor :=
  fold_left monitorStep inputs m.

(** The statuses a listener was called with, in order. *)
Definition seenBy (listener : nat) (l : list (nat * ConnectionStatus))
  : list ConnectionStatus :=
  map snd (filter (fun c => Nat.eqb (fst c) listener) l).

Definition sameConnectivity (a b : ConnectionStatus) : bool :=
  Bool.eqb (isOnline a) (isOnline b)
  && Bool.eqb (isFirestoreConnected a) (isFirestoreConnected b).

Fixpoint lastOf {A : Type} (l : list A) : option A :=
  match l with
  | [] => None
  | a :: rest => match rest with
                 | [] => Some a
                 | _ => lastOf rest
                 end
  end.

(** No two statuses in a row tell the same connectivity. *)
Fixpoint changesOnly (l : list ConnectionStatus) : bool :=
  match l with
  | [] => true
  | a :: rest => match rest with
                 | [] => true
                 | b :: _ => negb (sameConnectivity a b)
                 end && changesOnly rest
  end.

(** The inputs that subscribe or unsubscribe the listener, or call it as
    the callback of [initConnectionMonitor]. *)
Definition concerns (listener : nat) (i : monitorInput) : bool :=
  match i with
  | InitConnectionMonitor _ (Some f) _ => Nat.eqb f listener
  | OnConnectionChange l | Unsubscribe l => Nat.eqb l listener
  | Cleanup => true
  | _ => false
  end.

(** What the listener knows is what holds. *)
Definition informed (listener : nat) (m : monitor) : Prop :=
  NoDup (listeners m) /\ In listener (listeners m)
  /\ lastOf (seenBy listener (calls m)) = Some (connectionState m)
  /\ changesOnly (seenBy listener (calls m)) = true.

(** The module as loaded in a browser that is online. *)
Definition monitorAtLoad : monitor :=
  {| connectionState := {| isOnline := true; isFirestoreConnected := false;
                           lastStatusChange := 0 |};
     watching := false; listeners := []; calls := [] |}.

(** ** From a document snapshot to the projects of the realtime handler *)

(** The handler of [subscribeToDocument] (firestore-service.js 328-348):
    [snapshot.data()] of a document that exists, [null] otherwise. *)
Definition documentData (snap : snapshot) : value :=
  if exists_ snap then snapshotData snap else VNull.

(** The handler of [subscribeToUserProjects] (firestore-service.js
    485-488): [data ? data.projects || [] : []]. *)
Definition projectsOfData (data : value) : value :=
  if truthy data
  then or_else match data with
               | VObj fields => get fields "projects"
               | _ => VUndef
               end (VArr [])
  else VArr [].

(** ** Initialisation ([initializeFirebase], firebase-init.js 33-119) *)

Inductive promiseState : Type :=
| Pending
| Fulfilled
| Rejected (e : jsError).

(** The module's variables, the promises made so far (a promise is named
    by its position), how often the body of the initialisation was
    entered, and the promise each call of [initializeFirebase] returned. *)
Record firebase : Type := mkFirebase {
  initialized : bool;
  initializationPromise : option nat;
  initializationError : option jsError;
  promises : list promiseState;
  attempts : nat;
  handedOut : list nat
}.

Inductive firebaseInput : Type :=
| InitializeFirebase (early : option jsError)
| PersistenceSettled (promise : nat) (late : option jsError)
| ResetFirebase.

Fixpoint settle (l : list promiseState) (k : nat) (st : promiseState)
  : list promiseState :=
  match l, k with
  | [], _ => []
  | _ :: rest, O => st :: rest
  | p :: rest, S k' => p :: settle rest k' st
  end.

(** [InitializeFirebase early]: a call of [initializeFirebase]; when the
    body runs, [early] is what it throws before its [await] (the SDK is
    not loaded, the configuration is not set, [firebase.initializeApp]
    fails), or [None] when it reaches the [await].
    [PersistenceSettled k late]: [enablePersistence] has settled, either
    way, and the body behind promise [k] runs to its end or throws
    [late]. *)
Definition firebaseStep (fb : firebase) (i : firebaseInput) : firebase :=
  match i with
  | InitializeFirebase early =>
      match initializationPromise fb with
      | Some k =>
          {| initialized := initialized fb;
             initializationPromise := Some k;
             initializationError := initializationError fb;
             promises := promises fb; attempts := attempts fb;
             handedOut := handedOut fb ++ [k] |}
      | None =>
          let k := List.length (promises fb) in
          if initialized fb then
            {| initialized := true; initializationPromise := None;
               initializationError := initializationError fb;
               promises := promises fb ++ [Fulfilled];
               attempts := attempts fb; handedOut := handedOut fb ++ [k] |}
          else
            {| initialized := false; initializationPromise := Some k;
               initializationError := match early with
                                      | Some e => Some e
                                      | None => initializationError fb
                                      end;
               promises := promises fb ++ [match early with
                                           | Some e => Rejected e
                                           | None => Pending
                                           end];
               attempts := S (attempts fb);
               handedOut := handedOut fb ++ [k] |}
      end
  | PersistenceSettled k late =>
      match nth_error (promises fb) k with
      | Some Pending =>
          match late with
          | None =>
              {| initialized := true;
                 initializationPromise := initializationPromise fb;
                 initializationError := initializationError fb;
                 promises := settle (promises fb) k Fulfilled;
                 attempts := attempts fb; handedOut := handedOut fb |}
          | Some e =>
              {| initialized := initialized fb;
                 initializationPromise := initializationPromise fb;
                 initializationError := Some e;
                 promises := settle (promises fb) k (Rejected e);
                 attempts := attempts fb; handedOut := handedOut fb |}
          end
      | _ => fb
      end
  | ResetFirebase =>
      {| initialized := false; initializationPromise := None;
         initializationError := None; promises := promises fb;
         attempts := attempts fb; handedOut := handedOut fb |}
  end.

Definition runFirebase (fb : firebase) (inputs : list firebaseInput)
  : firebase :=
  fold_left firebaseStep inputs fb.

Definition firebaseAtLoad : firebase :=
  {| initialized := false; initializationPromise := None;
     initializationError := None; promises := []; attempts := 0;
     handedOut := [] |}.



(** ** The conflict branch where it returns *)

Section Resolved.

Variable Date_parse : string -> option Z.
Variable runtime_gt : value -> value -> bool.

(** What the conflict branch leaves in [resolvedProject] for a pair it
    goes through; nothing for a pair on which it throws. *)
Definition resolvedOf (s : strategy) (localProject remoteProject : object)
  : option object :=
  match resolveConflict Date_parse runtime_gt s localProject remoteProject with
  | Done resolvedProject => resolvedProject
  | TypeError => None
  end.

End Resolved.

(* ================================================================== *)
(** * Properties *)

(** ** Objects *)

Section ObjectFacts.

Lemma get_hasOwn (o : object) (k : string) :
  hasOwn o k = false -> get o k = VUndef.
Proof.
  induction o as [|[k' v'] rest IH]; simpl; [reflexivity|].
  destruct (k' =? k)%string; simpl; [discriminate | exact IH].
Qed.

Lemma truthy_get_hasOwn (o : object) (k : string) :
  truthy (get o k) = true -> hasOwn o k = true.
Proof.
  destruct (hasOwn o k) eqn:E; [reflexivity|].
  rewrite (get_hasOwn _ _ E). discriminate.
Qed.

Lemma get_replaceField_other (o : object) (k k' : string) (v : value) :
  k <> k' -> get (replaceField o k v) k' = get o k'.
Proof.
  intros Hne. induction o as [|[k0 v0] rest IH]; simpl; [reflexivity|].
  destruct (String.eqb_spec k0 k) as [->|Hk]; simpl.
  - destruct (String.eqb_spec k k'); [contradiction | reflexivity].
  - destruct (k0 =? k')%string; [reflexivity | exact IH].
Qed.

Lemma get_insertIndex_other (o : object) (n : Z) (k k' : string) (v : value) :
  k <> k' -> get (insertIndex o n k v) k' = get o k'.
Proof.
  intros Hne. induction o as [|[k0 v0] rest IH]; simpl.
  - destruct (String.eqb_spec k k'); [contradiction | reflexivity].
  - destruct (arrayIndex k0) as [n'|]; [destruct (n' <? n)|]; simpl;
      try (destruct (String.eqb_spec k k'); [contradiction | reflexivity]).
    destruct (k0 =? k')%string; [reflexivity | exact IH].
Qed.

Lemma get_app_other (o : object) (k k' : string) (v : value) :
  k <> k' -> get (o ++ [(k, v)]) k' = get o k'.
Proof.
  intros Hne. induction o as [|[k0 v0] rest IH]; simpl.
  - destruct (String.eqb_spec k k'); [contradiction | reflexivity].
  - destruct (k0 =? k')%string; [reflexivity | exact IH].
Qed.

Lemma get_setField_other (o : object) (k k' : string) (v : value) :
  k <> k' -> get (setField o k v) k' = get o k'.
Proof.
  intros Hne. unfold setField.
  destruct (hasOwn o k); [now apply get_replaceField_other|].
  destruct (arrayIndex k);
    [now apply get_insertIndex_other | now apply get_app_other].
Qed.

Lemma removeField_replaceField (o : object) (k : string) (v : value) :
  removeField (replaceField o k v) k = removeField o k.
Proof.
  induction o as [|[k0 v0] rest IH]; simpl; [reflexivity|].
  destruct (String.eqb_spec k0 k) as [->|Hk]; simpl.
  - now rewrite String.eqb_refl.
  - destruct (String.eqb_spec k0 k); [contradiction|]. simpl.
    now rewrite IH.
Qed.

Lemma removeField_insertIndex (o : object) (n : Z) (k : string) (v : value) :
  removeField (insertIndex o n k v) k = removeField o k.
Proof.
  induction o as [|[k0 v0] rest IH]; simpl.
  - now rewrite String.eqb_refl.
  - destruct (arrayIndex k0) as [n'|]; [destruct (n' <? n)|]; simpl;
      rewrite ?String.eqb_refl; simpl; try reflexivity.
    now rewrite IH.
Qed.

Lemma removeField_setField (o : object) (k : string) (v : value) :
  removeField (setField o k v) k = removeField o k.
Proof.
  unfold setField. destruct (hasOwn o k).
  - apply removeField_replaceField.
  - destruct (arrayIndex k); [apply removeField_insertIndex|].
    unfold removeField. rewrite filter_app. simpl.
    rewrite String.eqb_refl. simpl. apply app_nil_r.
Qed.

Lemma get_withSource (o : object) (origin k : string) :
  k <> "source" -> get (withSource o origin) k = get o k.
Proof. intros H. apply get_setField_other. congruence. Qed.

Lemma removeField_withSource (o : object) (origin : string) :
  removeField (withSource o origin) "source" = removeField o "source".
Proof. apply removeField_setField. Qed.

Lemma hasOwn_removeField (o : object) (k : string) :
  hasOwn (removeField o k) k = false.
Proof.
  induction o as [|[k0 v0] rest IH]; simpl; [reflexivity|].
  destruct (k0 =? k)%string eqn:E; simpl; [exact IH|].
  now rewrite E.
Qed.


Lemma get_removeField_other (o : object) (k k' : string) :
  k <> k' -> get (removeField o k) k' = get o k'.
Proof.
  intros Hne. induction o as [|[k0 v0] rest IH]; simpl; [reflexivity|].
  destruct (String.eqb_spec k0 k) as [->|Hk]; simpl.
  - destruct (String.eqb_spec k k'); [contradiction | exact IH].
  - destruct (k0 =? k')%string; [reflexivity | exact IH].
Qed.

Lemma sameValueZero_eq (a b : value) : sameValueZero a b = true -> a = b.
Proof.
  destruct a, b; simpl; try discriminate; try reflexivity; intros H.
  - apply Bool.eqb_prop in H. now subst.
  - apply Z.eqb_eq in H. now subst.
  - apply String.eqb_eq in H. now subst.
Qed.

Lemma sameValueZero_sym (a b : value) :
  sameValueZero a b = sameValueZero b a.
Proof.
  destruct a, b; simpl; try reflexivity.
  - now destruct b, b0.
  - apply Z.eqb_sym.
  - apply String.eqb_sym.
Qed.

End ObjectFacts.

Example isoDateParse_date : isoDateParse "2024-01-02" = Some 1704153600000.
Proof. reflexivity. Qed.

Example isoDateParse_instant :
  isoDateParse "2024-01-01T12:30:15.250Z" = Some 1704112215250.
Proof. reflexivity. Qed.

Example isoDateParse_invalid : isoDateParse "garbage" = None.
Proof. reflexivity. Qed.

(** ** The map of the merge *)

Section MapFacts.

Lemma map_set_keys (Q : value -> Prop) (m : jsmap) (k : value) (v : object) :
  Forall (fun e => Q (fst e)) m -> Q k ->
  Forall (fun e => Q (fst e)) (map_set m k v).
Proof.
  intros Hm Hk. induction m as [|[k' v'] rest IH]; simpl.
  - constructor; [exact Hk | constructor].
  - inversion Hm as [|? ? Hhd Htl]; subst.
    destruct (sameValueZero k' k); constructor; auto.
Qed.

Lemma map_set_distinct (m : jsmap) (k : value) (v : object) :
  distinctKeys m -> distinctKeys (map_set m k v).
Proof.
  unfold distinctKeys. induction m as [|[k' v'] rest IH]; simpl; intros H.
  - constructor; constructor.
  - inversion H as [|? ? Hhd Htl]; subst.
    destruct (sameValueZero k' k) eqn:E.
    + constructor; [exact Hhd | exact Htl].
    + constructor; [|now apply IH].
      apply (map_set_keys (fun x => sameValueZero k' x = false));
        [exact Hhd | exact E].
Qed.

Lemma map_set_keyed (m : jsmap) (k : value) (v : object) :
  keyedById m -> get v "id" = k -> keyedById (map_set m k v).
Proof.
  unfold keyedById. intros Hm Hv.
  induction m as [|[k' v'] rest IH]; simpl.
  - constructor; [exact Hv | constructor].
  - apply Forall_cons_iff in Hm as [Hhd Htl].
    destruct (sameValueZero k' k) eqn:E.
    + constructor; [|exact Htl]. simpl.
      rewrite Hv. symmetry. now apply sameValueZero_eq.
    + constructor; [exact Hhd | now apply IH].
Qed.

Lemma map_get_keyed (m : jsmap) (k : value) (v : object) :
  keyedById m -> map_get m k = Some v -> get v "id" = k.
Proof.
  unfold keyedById. induction m as [|[k' v'] rest IH]; simpl; intros Hm Hg.
  - discriminate.
  - apply Forall_cons_iff in Hm as [Hhd Htl]. simpl in Hhd.
    destruct (sameValueZero k' k) eqn:E.
    + injection Hg as <-. rewrite Hhd. now apply sameValueZero_eq.
    + now apply IH.
Qed.

Lemma stripSource_unique (m : jsmap) :
  distinctKeys m -> keyedById m ->
  uniqueIds (map (fun entry => removeField (snd entry) "source") m).
Proof.
  unfold distinctKeys, keyedById, uniqueIds.
  induction m as [|[k v] rest IH]; simpl; intros Hd Hk.
  - constructor.
  - inversion Hd as [|? ? Hhd Htl]; subst.
    inversion Hk as [|? ? Hkh Hkt]; subst. simpl in Hkh.
    constructor; [|now apply IH].
    rewrite Forall_map. rewrite Forall_forall in *.
    intros [k' v'] Hin. simpl.
    rewrite !get_removeField_other by discriminate.
    pose proof (Hkt _ Hin) as Hk'. simpl in Hk'.
    rewrite Hkh, Hk'. exact (Hhd _ Hin).
Qed.

End MapFacts.

(** ** The merge engine *)

Section MergeFacts.

Variable Date_parse : string -> option Z.
Variable runtime_gt : value -> value -> bool.

Local Abbreviation merge := (mergeProjects Date_parse runtime_gt).
Local Abbreviation mergeLocal' := (mergeLocal Date_parse runtime_gt).
Local Abbreviation resolve := (resolveConflict Date_parse runtime_gt).

Lemma fold_mergeLocal_TypeError (s : strategy) (l : list object) :
  fold_left (mergeLocal' s) l TypeError = TypeError.
Proof. induction l; simpl; auto. Qed.

Lemma fold_mergeField_TypeError (lp rp : object) (keys : list string) :
  fold_left (mergeField Date_parse runtime_gt lp rp) keys TypeError
  = TypeError.
Proof. induction keys; simpl; auto. Qed.

Lemma fold_addRemote_distinct (remote : list object) (m : jsmap) :
  distinctKeys m -> distinctKeys (fold_left addRemote remote m).
Proof.
  revert m. induction remote as [|p rest IH]; simpl; intros m H; [exact H|].
  apply IH. now apply map_set_distinct.
Qed.

Lemma fold_addRemote_keyed (remote : list object) (m : jsmap) :
  keyedById m -> keyedById (fold_left addRemote remote m).
Proof.
  revert m. induction remote as [|p rest IH]; simpl; intros m H; [exact H|].
  apply IH. apply map_set_keyed; [exact H|].
  apply get_withSource. discriminate.
Qed.

(** Every path of [mergeLocal] ends in a [projectMap.set]. *)
Lemma mergeLocal_distinct (s : strategy) (m m' : jsmap) (lp : object) :
  distinctKeys m -> mergeLocal' s (Done m) lp = Done m' -> distinctKeys m'.
Proof.
  intros Hd. simpl.
  destruct (map_get m (get lp "id")) as [rp|].
  - destruct (resolve s lp rp) as [r|]; [|discriminate].
    intros [= <-]. now apply map_set_distinct.
  - intros [= <-]. now apply map_set_distinct.
Qed.

(** The field-level merge leaves the id of the remote version in place. *)
Lemma mergeField_id (lp rp : object) (keys : list string) (acc res : object) :
  get lp "id" = get rp "id" ->
  get acc "id" = get rp "id" ->
  fold_left (mergeField Date_parse runtime_gt lp rp) keys (Done acc)
  = Done res ->
  get res "id" = get rp "id".
Proof.
  intros Hl. revert acc.
  induction keys as [|key rest IH]; simpl; intros acc Hacc.
  - now intros [= <-].
  - destruct (String.eqb_spec key "updatedAt") as [->|Hu].
    { apply IH. rewrite get_setField_other by discriminate. exact Hacc. }
    destruct (String.eqb_spec key "lineItems") as [->|Hi].
    { destruct (lengthOf (get lp "lineItems")) as [ll|];
        [|now rewrite fold_mergeField_TypeError].
      destruct (lengthOf (get rp "lineItems")) as [rl|];
        [|now rewrite fold_mergeField_TypeError].
      destruct (js_gt runtime_gt ll rl); apply IH; [|exact Hacc].
      rewrite get_setField_other by discriminate. exact Hacc. }
    destruct (truthy (get lp key) && negb (truthyAt rp key)) eqn:E;
      [|now apply IH].
    apply IH. destruct (String.eqb_spec key "id") as [->|Hk].
    + exfalso. apply andb_prop in E. destruct E as [E1 E2].
      unfold truthyAt in E2. rewrite Hl in E1.
      rewrite (truthy_get_hasOwn _ _ E1), E1 in E2. discriminate.
    + rewrite get_setField_other by exact Hk. exact Hacc.
Qed.

Lemma resolveConflict_id (s : strategy) (lp rp : object) (r : option object) :
  s = LATEST_WINS \/ s = MERGE ->
  get lp "id" = get rp "id" ->
  resolve s lp rp = Done r ->
  get (spread r) "id" = get rp "id".
Proof.
  intros [-> | ->] Hid; simpl.
  - intros [= <-]. simpl.
    now destruct (time_gt _ _).
  - destruct (fold_left _ _ _) as [res|] eqn:E; [|discriminate].
    intros [= <-]. simpl.
    now apply (mergeField_id lp rp (map fst lp) rp res).
Qed.

Lemma mergeLocal_keyed (s : strategy) (m m' : jsmap) (lp : object) :
  s = LATEST_WINS \/ s = MERGE ->
  keyedById m -> mergeLocal' s (Done m) lp = Done m' -> keyedById m'.
Proof.
  intros Hs Hk. simpl.
  destruct (map_get m (get lp "id")) as [rp|] eqn:G.
  - destruct (resolve s lp rp) as [r|] eqn:E; [|discriminate].
    intros [= <-]. apply map_set_keyed; [exact Hk|].
    rewrite get_withSource by discriminate.
    pose proof (map_get_keyed _ _ _ Hk G) as Hrp.
    rewrite (resolveConflict_id s lp rp r Hs); congruence.
  - intros [= <-]. apply map_set_keyed; [exact Hk|].
    apply get_withSource. discriminate.
Qed.

Lemma fold_mergeLocal_inv (s : strategy) (l : list object) (m m' : jsmap) :
  s = LATEST_WINS \/ s = MERGE ->
  distinctKeys m -> keyedById m ->
  fold_left (mergeLocal' s) l (Done m) = Done m' ->
  distinctKeys m' /\ keyedById m'.
Proof.
  intros Hs. revert m. induction l as [|lp rest IH]; intros m Hd Hk.
  - simpl. intros [= <-]. now split.
  - cbn [fold_left].
    destruct (mergeLocal' s (Done m) lp) as [m1|] eqn:E;
      [|now rewrite fold_mergeLocal_TypeError].
    apply IH.
    + now apply (mergeLocal_distinct s m m1 lp).
    + now apply (mergeLocal_keyed s m m1 lp).
Qed.

Lemma mergeProjects_map_unique_ids (s : strategy)
    (localProjects remoteProjects merged : list object) :
  s = LATEST_WINS \/ s = MERGE ->
  merge localProjects remoteProjects s = Done merged ->
  uniqueIds merged.
Proof.
  intros Hs H.
  assert (exists m, fold_left (mergeLocal' s) localProjects
                      (Done (fold_left addRemote remoteProjects []))
                    = Done m /\ merged = stripSource m) as [m [Hm ->]].
  { destruct Hs as [-> | ->]; simpl in H;
      destruct (fold_left _ localProjects _) as [m|];
      try discriminate; injection H as <-; now exists m. }
  apply fold_mergeLocal_inv in Hm; [|exact Hs| |].
  - destruct Hm. now apply stripSource_unique.
  - apply fold_addRemote_distinct. constructor.
  - apply fold_addRemote_keyed. constructor.
Qed.

(** C1 (amended).  Under latest_wins and under merge, whatever the two
    input collections, a collection returned by [mergeProjects] never
    holds two records with the same id; server_wins and local_wins
    return the remote, respectively the local, collection as it is, so
    their output is free of duplicate ids whenever that input is. *)
Theorem mergeProjects_unique_ids (s : strategy)
    (localProjects remoteProjects merged : list object) :
  s <> MANUAL ->
  (s = SERVER_WINS -> uniqueIds remoteProjects) ->
  (s = LOCAL_WINS -> uniqueIds localProjects) ->
  merge localProjects remoteProjects s = Done merged ->
  uniqueIds merged.
Proof.
  intros Hm Hserver Hlocal H. destruct s.
  - injection H as <-. now apply Hserver.
  - injection H as <-. now apply Hlocal.
  - apply (mergeProjects_map_unique_ids LATEST_WINS localProjects
             remoteProjects); [now left | exact H].
  - apply (mergeProjects_map_unique_ids MERGE localProjects
             remoteProjects); [now right | exact H].
  - contradiction.
Qed.

(** Only the field-level merge can fail. *)
Lemma mergeProjects_returns (s : strategy)
    (localProjects remoteProjects : list object) :
  s <> MERGE ->
  exists merged, merge localProjects remoteProjects s = Done merged.
Proof.
  intros Hs.
  assert (forall l m, exists m',
             fold_left (mergeLocal' s) l (Done m) = Done m') as Hfold.
  { induction l as [|lp rest IH]; intros m; [now exists m|].
    cbn [fold_left]. unfold mergeLocal at 2.
    destruct (map_get m (get lp "id")) as [rp|]; [|apply IH].
    destruct s; try contradiction; apply IH. }
  destruct s; try contradiction; try (eexists; reflexivity);
    simpl;
    [destruct (Hfold localProjects (fold_left addRemote remoteProjects []))
       as [m' Hm'];
     change (mergeLocal Date_parse runtime_gt LATEST_WINS)
       with (mergeLocal' LATEST_WINS); rewrite Hm'
    |destruct (Hfold localProjects (fold_left addRemote remoteProjects []))
       as [m' Hm'];
     change (mergeLocal Date_parse runtime_gt MANUAL)
       with (mergeLocal' MANUAL); rewrite Hm'];
    eexists; reflexivity.
Qed.

(** C10.  Outside server_wins and local_wins no record returned by
    [mergeProjects] has a field named 'source', so a 'source' field of
    an input record is dropped; server_wins and local_wins return the
    remote, respectively the local, collection as it came. *)
Theorem mergeProjects_source_field (s : strategy)
    (localProjects remoteProjects merged : list object) :
  merge localProjects remoteProjects s = Done merged ->
  match s with
  | SERVER_WINS => merged = remoteProjects
  | LOCAL_WINS => merged = localProjects
  | _ => Forall (fun project => hasOwn project "source" = false) merged
  end.
Proof.
  destruct s; simpl; try (now intros [= <-]);
    (destruct (fold_left _ localProjects _) as [m|]; [|discriminate];
     intros [= <-]; unfold stripSource; rewrite Forall_map;
     apply Forall_forall; intros e _; apply hasOwn_removeField).
Qed.

End MergeFacts.

(** ** The merged collection, record by record *)

Section MergeShape.

Variable Date_parse : string -> option Z.
Variable runtime_gt : value -> value -> bool.

Local Abbreviation merge := (mergeProjects Date_parse runtime_gt).
Local Abbreviation mergeLocal' := (mergeLocal Date_parse runtime_gt).
Local Abbreviation resolve := (resolveConflict Date_parse runtime_gt).

Lemma sameValueZero_trans (a b c : value) :
  sameValueZero a b = true -> sameValueZero b c = true ->
  sameValueZero a c = true.
Proof. intros H1 H2. apply sameValueZero_eq in H1. now subst. Qed.

Lemma uniqueIds_snoc (ps : list object) (p : object) :
  uniqueIds (ps ++ [p]) ->
  uniqueIds ps /\ Forall (fun q => sameId q p = false) ps.
Proof.
  unfold uniqueIds. induction ps as [|q rest IH]; simpl; intros H.
  - split; constructor.
  - inversion H as [|? ? Hhd Htl]; subst.
    destruct (IH Htl) as [Hu Hf].
    apply Forall_app in Hhd as [Hhd1 Hhd2].
    split; constructor; auto.
    now inversion Hhd2.
Qed.

Lemma map_set_fresh (m : jsmap) (k : value) (v : object) :
  Forall (fun e => sameValueZero (fst e) k = false) m ->
  map_set m k v = m ++ [(k, v)].
Proof.
  induction m as [|[k' v'] rest IH]; simpl; intros H; [reflexivity|].
  apply Forall_cons_iff in H as [Hhd Htl]. simpl in Hhd.
  now rewrite Hhd, IH.
Qed.

Lemma map_get_fresh (m : jsmap) (k : value) :
  Forall (fun e => sameValueZero (fst e) k = false) m ->
  map_get m k = None.
Proof.
  induction m as [|[k' v'] rest IH]; simpl; intros H; [reflexivity|].
  apply Forall_cons_iff in H as [Hhd Htl]. simpl in Hhd.
  now rewrite Hhd, IH.
Qed.

Lemma map_get_keyed_list (g : object -> object) (ps : list object)
    (rest : jsmap) (k : value) :
  map_get (map (fun r => (get r "id", g r)) ps ++ rest) k
  = match find (fun r => sameValueZero (get r "id") k) ps with
    | Some r => Some (g r)
    | None => map_get rest k
    end.
Proof.
  induction ps as [|r ps' IH]; simpl; [reflexivity|].
  now destruct (sameValueZero (get r "id") k).
Qed.

Lemma map_set_hit (g h : object -> object) (ps : list object)
    (rest : jsmap) (k : value) (r : object) :
  uniqueIds ps ->
  find (fun r => sameValueZero (get r "id") k) ps = Some r ->
  map_set (map (fun r => (get r "id", g r)) ps ++ rest) k (h r)
  = map (fun r' => (get r' "id",
                    if sameValueZero (get r' "id") k then h r' else g r')) ps
    ++ rest.
Proof.
  unfold uniqueIds. induction ps as [|r0 ps' IH]; simpl; intros Hu Hf.
  - discriminate.
  - inversion Hu as [|? ? Hhd Htl]; subst.
    destruct (sameValueZero (get r0 "id") k) eqn:E.
    + injection Hf as <-. f_equal. f_equal.
      apply map_ext_in. intros r' Hin.
      rewrite Forall_forall in Hhd. specialize (Hhd r' Hin).
      apply sameValueZero_eq in E. subst k.
      rewrite sameValueZero_sym, Hhd. reflexivity.
    + f_equal. now apply IH.
Qed.

(** The map once the remote records are in. *)
Lemma fold_addRemote_shape (remote : list object) (m : jsmap) :
  uniqueIds remote ->
  Forall (fun e => Forall (fun r => sameValueZero (fst e) (get r "id") = false)
                     remote) m ->
  fold_left addRemote remote m
  = m ++ map (fun r => (get r "id", withSource r "remote")) remote.
Proof.
  unfold uniqueIds. revert m.
  induction remote as [|r rest IH]; simpl; intros m Hu Hm.
  - now rewrite app_nil_r.
  - inversion Hu as [|? ? Hhd Htl]; subst.
    unfold addRemote at 2. rewrite map_set_fresh.
    + rewrite IH; [now rewrite <- app_assoc | exact Htl |].
      apply Forall_app. split.
      * eapply Forall_impl; [|exact Hm]. intros e He.
        now apply Forall_cons_iff in He as [_ He].
      * constructor; [|constructor]. exact Hhd.
    + eapply Forall_impl; [|exact Hm]. intros e He.
      now apply Forall_cons_iff in He as [He _].
Qed.

Section Resolution.

(** A strategy whose conflict branch always yields [f l r]. *)
Variable s : strategy.
Variable f : object -> object -> option object.
Hypothesis resolve_f : forall l r, resolve s l r = Done (f l r).

Local Abbreviation merged := (mergedEntry f).
Local Abbreviation entry := (entryOf f).
Local Abbreviation shape := (shapeOf f).

Lemma counterpart_snoc_other (locals : list object) (l r : object) :
  sameId l r = false ->
  counterpart (locals ++ [l]) r = counterpart locals r.
Proof.
  intros H. unfold counterpart. induction locals as [|q rest IH]; simpl.
  - now rewrite H.
  - now destruct (sameId q r).
Qed.

Lemma counterpart_snoc_hit (locals : list object) (l r : object) :
  Forall (fun q => sameId q r = false) locals ->
  sameId l r = true ->
  counterpart (locals ++ [l]) r = Some l.
Proof.
  intros Hf H. unfold counterpart.
  induction locals as [|q rest IH]; simpl.
  - now rewrite H.
  - apply Forall_cons_iff in Hf as [Hq Hrest]. rewrite Hq. now apply IH.
Qed.

Lemma counterpart_none (ps : list object) (p : object) :
  Forall (fun q => sameId q p = false) ps -> counterpart ps p = None.
Proof.
  unfold counterpart. induction ps as [|q rest IH]; simpl; intros H.
  - reflexivity.
  - apply Forall_cons_iff in H as [Hq Hrest]. rewrite Hq. now apply IH.
Qed.

Lemma fold_mergeLocal_shape (locals remote : list object) :
  uniqueIds locals -> uniqueIds remote ->
  fold_left (mergeLocal' s) locals
    (Done (map (fun r => (get r "id", withSource r "remote")) remote
           : jsmap))
  = Done (shape locals remote).
Proof.
  intros Hl Hr. induction locals as [|l locals' IH] using rev_ind.
  - simpl. unfold shape. simpl. now rewrite app_nil_r.
  - apply uniqueIds_snoc in Hl as [Hl' Hfresh].
    rewrite fold_left_app, (IH Hl'). cbn [fold_left mergeLocal].
    unfold shape at 1. rewrite map_get_keyed_list.
    change (find (fun r => sameValueZero (get r "id") (get l "id")) remote)
      with (counterpart remote l).
    destruct (counterpart remote l) as [r|] eqn:C.
    + (* a remote record has the id of [l] *)
      assert (Hnone : forall r', sameId r' l = true ->
                                 counterpart locals' r' = None).
      { intros r' Hr'. apply counterpart_none.
        eapply Forall_impl; [|exact Hfresh]. intros q Hq. simpl in Hq.
        destruct (sameId q r') eqn:E; [|reflexivity].
        unfold sameId in *.
        now rewrite (sameValueZero_trans _ _ _ E Hr') in Hq. }
      assert (Hrl : sameId r l = true).
      { unfold counterpart in C. now apply find_some in C. }
      unfold entry at 1. rewrite (Hnone r Hrl), resolve_f.
      unfold shape.
      rewrite (map_set_hit (entry locals') (merged l) remote _ _ r Hr C).
      f_equal. f_equal.
      * apply map_ext_in. intros r' _. f_equal.
        change (sameValueZero (get r' "id") (get l "id"))
          with (sameId r' l).
        destruct (sameId r' l) eqn:E; unfold entry.
        -- rewrite counterpart_snoc_hit; [reflexivity| |].
           ++ pose proof (Hnone r' E) as Hn. unfold counterpart in Hn.
              apply Forall_forall. intros q Hq.
              exact (find_none _ _ Hn q Hq).
           ++ unfold sameId. now rewrite sameValueZero_sym.
        -- rewrite counterpart_snoc_other; [reflexivity|].
           unfold sameId. now rewrite sameValueZero_sym.
      * rewrite filter_app. cbn [filter].
        assert (withoutCounterpart remote l = false) as ->
          by (unfold withoutCounterpart; now rewrite C).
        now rewrite app_nil_r.
    + (* no remote record has the id of [l] *)
      assert (Hrem : Forall (fun r' => sameId r' l = false) remote).
      { apply Forall_forall. intros q Hq.
        exact (find_none _ _ C q Hq). }
      rewrite map_get_fresh.
      2:{ rewrite Forall_map. apply Forall_forall. intros q Hq. simpl.
          apply filter_In in Hq as [Hq _].
          rewrite Forall_forall in Hfresh. exact (Hfresh q Hq). }
      rewrite map_set_fresh.
      2:{ apply Forall_app. split; rewrite Forall_map.
          - eapply Forall_impl; [|exact Hrem]. now intros q Hq.
          - apply Forall_forall. intros q Hq. simpl.
            apply filter_In in Hq as [Hq _].
            rewrite Forall_forall in Hfresh. exact (Hfresh q Hq). }
      f_equal. unfold shape. rewrite <- app_assoc. f_equal.
      * apply map_ext_in. intros r' Hin. f_equal. unfold entry.
        rewrite counterpart_snoc_other; [reflexivity|].
        rewrite Forall_forall in Hrem. specialize (Hrem r' Hin).
        unfold sameId in *. now rewrite sameValueZero_sym.
      * rewrite filter_app, map_app. cbn [filter].
        assert (withoutCounterpart remote l = true) as ->
          by (unfold withoutCounterpart; now rewrite C).
        reflexivity.
Qed.

(** The merged collection: the remote records in their order, each
    replaced by the resolution when a local record has its id, then the
    local records no remote record matches; all without 'source'. *)
Lemma mergeProjects_shape (locals remote : list object) :
  s <> SERVER_WINS -> s <> LOCAL_WINS ->
  uniqueIds locals -> uniqueIds remote ->
  merge locals remote s
  = Done (map (fun r => match counterpart locals r with
                        | Some l => removeField
                                      (spread (f l (withSource r "remote"))) "source"
                        | None => removeField r "source"
                        end) remote
          ++ map (fun l => removeField l "source")
               (filter (withoutCounterpart remote) locals)).
Proof.
  intros Hs1 Hs2 Hl Hr.
  assert (merge locals remote s
          = match fold_left (mergeLocal' s) locals
                    (Done (fold_left addRemote remote [])) with
            | Done m => Done (stripSource m)
            | TypeError => TypeError
            end) as -> by (destruct s; try reflexivity; contradiction).
  rewrite (fold_addRemote_shape remote [] Hr) by constructor.
  rewrite app_nil_l, (fold_mergeLocal_shape locals remote Hl Hr).
  f_equal. unfold stripSource, shape. rewrite map_app, !map_map.
  f_equal; apply map_ext; intros p; cbn [snd].
  - unfold entry, merged. destruct (counterpart locals p);
      apply removeField_withSource.
  - apply removeField_withSource.
Qed.

End Resolution.

End MergeShape.

(** ** latest_wins and manual *)

Section Strategies.

Variable Date_parse : string -> option Z.
Variable runtime_gt : value -> value -> bool.

Local Abbreviation merge := (mergeProjects Date_parse runtime_gt).
Local Abbreviation time := (updatedTime Date_parse).

Lemma updatedTime_withSource (p : object) (origin : string) :
  time (withSource p origin) = time p.
Proof.
  unfold updatedTime. now rewrite get_withSource by discriminate.
Qed.



(** C5.  Under manual, for collections with unique ids, a remote record
    whose id a local record shares comes back as the empty object:
    neither version reaches the caller. *)
Theorem manual_merge (localProjects remoteProjects : list object) :
  uniqueIds localProjects -> uniqueIds remoteProjects ->
  merge localProjects remoteProjects MANUAL
  = Done (map (fun r => match counterpart localProjects r with
                        | Some _ => []
                        | None => removeField r "source"
                        end) remoteProjects
          ++ map (fun l => removeField l "source")
               (filter (withoutCounterpart remoteProjects) localProjects)).
Proof.
  intros Hl Hr.
  rewrite (mergeProjects_shape Date_parse runtime_gt MANUAL
             (fun _ _ => None));
    try discriminate; try assumption; reflexivity.
Qed.

Lemma mergeField_lineItems_throws (lp rp : object) (keys : list string)
    (acc : object) :
  In "lineItems" keys ->
  lengthOf (get rp "lineItems") = TypeError ->
  fold_left (mergeField Date_parse runtime_gt lp rp) keys (Done acc)
  = TypeError.
Proof.
  intros Hin Hrp. revert acc.
  induction keys as [|key rest IH]; intros acc; [contradiction|].
  cbn [fold_left]. unfold mergeField at 2.
  destruct (String.eqb_spec key "updatedAt") as [->|Hu].
  { destruct Hin as [Hin|Hin]; [discriminate | now apply IH]. }
  destruct (String.eqb_spec key "lineItems") as [->|Hi].
  { rewrite Hrp. destruct (lengthOf (get lp "lineItems"));
      apply fold_mergeField_TypeError. }
  destruct Hin as [Hin|Hin]; [congruence|].
  destruct (truthy (get lp key) && negb (truthyAt rp key)); now apply IH.
Qed.

Lemma hasOwn_In (o : object) (k : string) :
  hasOwn o k = true -> In k (map fst o).
Proof.
  induction o as [|[k' v'] rest IH]; simpl; [discriminate|].
  destruct (String.eqb_spec k' k); [now left | right; now apply IH].
Qed.

(** C4.  Under merge, a local record that has a [lineItems] field and
    shares its id with a remote record that has none makes
    [mergeProjects] throw: [remoteProject.lineItems.length] is read off
    [undefined]. *)
Theorem merge_missing_lineItems_throws (localProject remoteProject : object) :
  hasOwn localProject "lineItems" = true ->
  hasOwn remoteProject "lineItems" = false ->
  sameId remoteProject localProject = true ->
  merge [localProject] [remoteProject] MERGE = TypeError.
Proof.
  intros Hl Hr Hid. unfold sameId in Hid.
  cbn [mergeProjects fold_left addRemote map_set mergeLocal map_get].
  rewrite Hid. cbn [resolveConflict].
  rewrite mergeField_lineItems_throws; [reflexivity | now apply hasOwn_In |].
  rewrite get_withSource by discriminate.
  now rewrite (get_hasOwn _ _ Hr).
Qed.

End Strategies.

Lemma uniqueIds_singleton (p : object) : uniqueIds [p].
Proof. constructor; constructor. Qed.

Lemma uniqueIds_pair (p q : object) :
  sameId p q = false -> uniqueIds [p; q].
Proof.
  intros H. constructor; [|apply uniqueIds_singleton].
  constructor; [exact H | constructor].
Qed.

(** C1, as stated, fails: server_wins hands back a remote collection that
    holds the same id twice. *)
Lemma server_wins_keeps_duplicates :
  mergeProjects isoDateParse noOtherOrder [] [kitchenRemote; kitchenBare]
    SERVER_WINS = Done [kitchenRemote; kitchenBare]
  /\ ~ uniqueIds [kitchenRemote; kitchenBare].
Proof.
  split; [reflexivity|].
  intros H. inversion H as [|? ? Hhd _]; subst.
  inversion Hhd as [|? ? Hsame _]; subst. discriminate Hsame.
Qed.

Lemma mergeProjects_unique_ids_witness :
  mergeProjects isoDateParse noOtherOrder [kitchenLocal; garageLocal]
    [kitchenRemote; deckRemote] MERGE
  = Done [ [("id", VStr "p1"); ("name", VStr "Kitchen remodel");
            ("updatedAt", VStr "2024-01-02T09:30:00.000Z");
            ("lineItems", VArr [kitchenItem])];
           deckRemote;
           [("id", VStr "p2"); ("name", VStr "Garage");
            ("updatedAt", VStr "2024-02-10"); ("lineItems", VArr [])] ]
  /\ uniqueIds
       [ [("id", VStr "p1"); ("name", VStr "Kitchen remodel");
          ("updatedAt", VStr "2024-01-02T09:30:00.000Z");
          ("lineItems", VArr [kitchenItem])];
         deckRemote;
         [("id", VStr "p2"); ("name", VStr "Garage");
          ("updatedAt", VStr "2024-02-10"); ("lineItems", VArr [])] ].
Proof.
  split; [reflexivity|].
  apply (mergeProjects_unique_ids isoDateParse noOtherOrder MERGE
           [kitchenLocal; garageLocal] [kitchenRemote; deckRemote]);
    [discriminate | discriminate | discriminate | reflexivity].
Defined.

Lemma mergeProjects_source_field_witness :
  Forall (fun project => hasOwn project "source" = false)
    [removeField kitchenLocal "source"; deckRemote;
     removeField garageLocal "source"].
Proof.
  apply (mergeProjects_source_field isoDateParse noOtherOrder LATEST_WINS
           [kitchenLocal; garageLocal] [kitchenRemote; deckRemote]).
  reflexivity.
Defined.



(** On equal timestamps the remote record stays. *)
Example latest_wins_tie :
  mergeProjects isoDateParse noOtherOrder [kitchenEdited] [kitchenRemote]
    LATEST_WINS = Done [kitchenRemote].
Proof. reflexivity. Qed.

(** Two conflicts under manual leave two records that have no id at all. *)
Example manual_conflicts_lose_ids :
  mergeProjects isoDateParse noOtherOrder [kitchenLocal; garageLocal]
    [kitchenRemote; garageRemote] MANUAL = Done [ []; [] ]
  /\ ~ uniqueIds [ []; [] ].
Proof.
  split; [reflexivity|].
  intros H. inversion H as [|? ? Hhd _]; subst.
  inversion Hhd as [|? ? Hsame _]; subst. discriminate Hsame.
Qed.

Lemma merge_missing_lineItems_throws_witness :
  mergeProjects isoDateParse noOtherOrder [kitchenLocal] [kitchenBare] MERGE
  = TypeError.
Proof.
  apply (merge_missing_lineItems_throws isoDateParse noOtherOrder
           kitchenLocal kitchenBare);
    reflexivity.
Defined.

Lemma manual_merge_witness :
  mergeProjects isoDateParse noOtherOrder [kitchenLocal; garageLocal]
    [kitchenRemote; deckRemote] MANUAL
  = Done [ []; deckRemote; removeField garageLocal "source" ].
Proof.
  apply (manual_merge isoDateParse noOtherOrder
           [kitchenLocal; garageLocal] [kitchenRemote; deckRemote]);
    apply uniqueIds_pair; reflexivity.
Defined.

(** ** The fingerprint *)

Section HashFacts.

Lemma charCode_digitChar (d : Z) :
  0 <= d < 36 ->
  charCode (digitChar d) = if d <? 10 then 48 + d else 87 + d.
Proof.
  intros Hd. unfold charCode, digitChar.
  destruct (d <? 10); rewrite nat_ascii_embedding; lia.
Qed.

Lemma digitValue_digitChar (d : Z) :
  0 <= d < 36 -> digitValue (digitChar d) = d.
Proof.
  intros Hd. unfold digitValue. rewrite (charCode_digitChar d Hd).
  destruct (Z.ltb_spec d 10).
  - destruct (Z.ltb_spec (48 + d) 58); lia.
  - destruct (Z.ltb_spec (87 + d) 58); lia.
Qed.

Lemma valueOf36_app (s t : string) (acc : Z) :
  valueOf36 (s ++ t) acc = valueOf36 t (valueOf36 s acc).
Proof. revert acc. induction s; simpl; intros; auto. Qed.

(** Reading a numeral back gives the number it was written from. *)
Lemma valueOf36_radixDigits (fuel : nat) (n : Z) :
  0 <= n < 2 ^ Z.of_nat fuel ->
  valueOf36 (radixDigits 36 fuel n) 0 = n.
Proof.
  revert n. induction fuel as [|fuel IH]; intros n Hn.
  - simpl in *. lia.
  - cbn [radixDigits]. destruct (Z.ltb_spec n 36).
    + simpl. apply digitValue_digitChar. lia.
    + rewrite valueOf36_app. rewrite IH.
      * simpl. rewrite digitValue_digitChar
          by (apply Z.mod_pos_bound; lia).
        pose proof (Z.div_mod n 36). lia.
      * rewrite Nat2Z.inj_succ, Z.pow_succ_r in Hn by lia.
        split; [apply Z.div_pos; lia|].
        apply Z.div_lt_upper_bound; lia.
Qed.

Lemma numberToString36_value (n : Z) :
  0 <= n -> valueOf36 (numberToString 36 n) 0 = n.
Proof.
  intros Hn. unfold numberToString.
  destruct (Z.ltb_spec n 0); [lia|].
  apply valueOf36_radixDigits. split; [exact Hn|].
  rewrite Nat2Z.inj_succ, Z2Nat.id by apply Z.log2_nonneg.
  destruct (Z.eq_dec n 0) as [->|Hz]; [reflexivity|].
  apply Z.log2_spec. lia.
Qed.

(** The numeral 'empty' denotes 24574534 and nothing else. *)
Lemma numberToString36_empty (n : Z) :
  numberToString 36 n = "empty" <-> n = 24574534.
Proof.
  split.
  - intros H. destruct (Z.ltb_spec n 0) as [Hneg|Hpos].
    + unfold numberToString in H.
      destruct (Z.ltb_spec n 0); [discriminate H | lia].
    + rewrite <- (numberToString36_value n Hpos), H. reflexivity.
  - intros ->. reflexivity.
Qed.

Lemma toInt32_range (z : Z) : - 2 ^ 31 <= toInt32 z < 2 ^ 31.
Proof.
  unfold toInt32. pose proof (Z.mod_pos_bound (z + 2 ^ 31) (2 ^ 32)). lia.
Qed.

(** The hash is a 32-bit integer. *)
Lemma hash32_range (str : string) : - 2 ^ 31 <= hash32 str < 2 ^ 31.
Proof.
  unfold hash32.
  assert (forall l h, - 2 ^ 31 <= h < 2 ^ 31 ->
                      - 2 ^ 31 <= fold_left hashStep l h < 2 ^ 31) as H.
  { induction l as [|c l IH]; intros h Hh; [exact Hh|].
    cbn [fold_left]. apply IH. apply toInt32_range. }
  apply H. lia.
Qed.

(** C9 (amended).  [calculateHash] is a function of the collection; the
    empty and the absent collection map to 'empty'; a non-empty
    collection maps to the base-36 numeral of the 32-bit hash of its JSON
    text, which is 'empty' exactly when that hash is 24574534, and a
    different string otherwise. *)
Theorem calculateHash_sentinel :
  (forall c c', c = c' -> calculateHash c = calculateHash c')
  /\ calculateHash None = "empty"
  /\ calculateHash (Some []) = "empty"
  /\ (forall p ps,
         let h := hash32 (JSON_stringify (VArr (map VObj (p :: ps)))) in
         calculateHash (Some (p :: ps)) = numberToString 36 h
         /\ - 2 ^ 31 <= h < 2 ^ 31
         /\ (calculateHash (Some (p :: ps)) = "empty" <-> h = 24574534)).
Proof.
  split; [now intros c c' ->|].
  split; [reflexivity|]. split; [reflexivity|].
  intros p ps h. split; [reflexivity|]. split; [apply hash32_range|].
  apply numberToString36_empty.
Qed.

End HashFacts.

Example JSON_stringify_kitchenClash :
  JSON_stringify (VArr [VObj kitchenClash])
  = String.concat (String dquote EmptyString)
      ["[{"; "id"; ":"; "ampoiywo"; ","; "name"; ":"; "Kitchen"; ",";
       "updatedAt"; ":"; "2024-01-02"; ","; "lineItems"; ":[]}]"].
Proof. reflexivity. Qed.

(** C9, as stated, fails: a collection of one project has the sentinel for
    its hash. *)
Lemma calculateHash_sentinel_clash :
  [kitchenClash] <> []
  /\ calculateHash (Some [kitchenClash]) = calculateHash (Some []).
Proof. split; [discriminate | vm_compute; reflexivity]. Qed.

(** ** Retry with backoff *)

Section RetryFacts.

Context {W A : Type}.
Variable cfg : RetryConfig.

Lemma categorizeError_permission (e : jsError) :
  categorizeError (Some e) = PERMISSION <-> nonRetryable e = true.
Proof.
  unfold categorizeError, nonRetryable. destruct (code e) as [c|].
  - split.
    + destruct (c =? "")%string; [discriminate|].
      destruct (prefix "auth/" c); [discriminate|].
      destruct (_ || _ || _ || includes c "network"); [discriminate|].
      destruct ((c =? "permission-denied") || (c =? "unauthenticated"))%string;
        [reflexivity|].
      destruct (_ || _ || _); discriminate.
    + intros H. apply orb_prop in H.
      destruct H as [H|H]; apply String.eqb_eq in H; subst c; reflexivity.
  - split; discriminate.
Qed.

(** A network-classified error is one the loop retries. *)
Lemma network_retryable (e : jsError) :
  categorizeError (Some e) = NETWORK -> nonRetryable e = false.
Proof.
  intros H. destruct (nonRetryable e) eqn:E; [|reflexivity].
  apply categorizeError_permission in E. congruence.
Qed.

Lemma retryFrom_exhausted (operation : W -> outcome A * W)
    (errorOf : W -> jsError) (after : W -> W) :
  (forall w, operation w = (Thrown (errorOf w), after w)) ->
  (forall w, nonRetryable (errorOf w) = false) ->
  forall remaining attempt w,
    retryFrom cfg operation remaining attempt w
    = (Thrown (errorOf (Nat.iter remaining after w)),
       Nat.iter (S remaining) after w,
       exhaustedFrom cfg remaining attempt).
Proof.
  intros Hop Hretry.
  induction remaining as [|remaining IH]; intros attempt w;
    cbn [retryFrom exhaustedFrom]; rewrite Hop, Hretry.
  - reflexivity.
  - rewrite IH, <- !Nat.iter_succ_r. reflexivity.
Qed.

Lemma count_exhaustedFrom (remaining : nat) (attempt : Z) :
  count_occ event_eq_dec (exhaustedFrom cfg remaining attempt) Attempt
  = S remaining.
Proof.
  revert attempt. induction remaining as [|remaining IH]; intros attempt;
    cbn [exhaustedFrom]; rewrite count_occ_app; destruct (0 <? attempt);
    simpl; rewrite ?IH; reflexivity.
Qed.

Lemma delays_exhaustedFrom (remaining k : nat) :
  delays (exhaustedFrom cfg remaining (Z.of_nat (S k)))
  = map (fun i => getBackoffDelay cfg (Z.of_nat i)) (seq k (S remaining)).
Proof.
  revert k. induction remaining as [|remaining IH]; intros k;
    cbn [exhaustedFrom];
    (destruct (Z.ltb_spec 0 (Z.of_nat (S k))); [|lia]);
    replace (Z.of_nat (S k) - 1) with (Z.of_nat k) by lia.
  - reflexivity.
  - replace (Z.of_nat (S k) + 1) with (Z.of_nat (S (S k))) by lia.
    cbn [app delays]. rewrite IH. reflexivity.
Qed.

Lemma delays_exhausted (remaining : nat) :
  delays (exhaustedFrom cfg remaining 0)
  = map (fun i => getBackoffDelay cfg (Z.of_nat i)) (seq 0 remaining).
Proof.
  destruct remaining as [|remaining]; [reflexivity|].
  cbn [exhaustedFrom]. simpl (0 <? 0). cbn [app delays].
  change (0 + 1) with (Z.of_nat 1). apply delays_exhaustedFrom.
Qed.

(** The first thing [executeWithRetry] does is to run the operation. *)
Lemma executeWithRetry_first (operation : W -> outcome A * W) (w : W) :
  exists rest, snd (executeWithRetry cfg operation w) = Attempt :: rest.
Proof.
  unfold executeWithRetry.
  destruct (maxRetries cfg) as [|n]; cbn [retryFrom]; simpl (0 <? 0);
    destruct (operation w) as [[r|e] w']; try (eexists; reflexivity);
    destruct (nonRetryable e); try (eexists; reflexivity).
  destruct (retryFrom cfg operation n (0 + 1) w') as [[o w''] t].
  eexists; reflexivity.
Qed.

(** C6.  An operation that fails every time with a network-classified
    error is run [maxRetries + 1] times, the waits between the runs
    being [initialDelay * backoffMultiplier ^ k] capped at [maxDelay]
    for k = 0, 1, ...; then the error of the last run is thrown.  An
    operation that fails with a permission-classified error
    (permission-denied or unauthenticated) is run once and the error is
    thrown at once. *)
Theorem executeWithRetry_attempts
    (failing : W -> outcome A * W) (errorOf : W -> jsError) (after : W -> W)
    (forbidden : W -> outcome A * W) (denied : jsError) (w0 w1 : W) :
  (forall w, failing w = (Thrown (errorOf w), after w)) ->
  (forall w, categorizeError (Some (errorOf w)) = NETWORK) ->
  forbidden w0 = (Thrown denied, w1) ->
  categorizeError (Some denied) = PERMISSION ->
  (exists events,
      executeWithRetry cfg failing w0
      = (Thrown (errorOf (Nat.iter (maxRetries cfg) after w0)),
         Nat.iter (S (maxRetries cfg)) after w0, events)
      /\ count_occ event_eq_dec events Attempt = S (maxRetries cfg)
      /\ delays events
         = map (fun k => Z.min (initialDelay cfg
                                * backoffMultiplier cfg ^ Z.of_nat k)
                               (maxDelay cfg))
             (seq 0 (maxRetries cfg)))
  /\ executeWithRetry cfg forbidden w0 = (Thrown denied, w1, [Attempt])
  /\ (code denied = Some "permission-denied"
      \/ code denied = Some "unauthenticated").
Proof.
  intros Hfail Hnet Hforbidden Hdenied. split; [|split].
  - exists (exhaustedFrom cfg (maxRetries cfg) 0). split; [|split].
    + apply retryFrom_exhausted; [exact Hfail|].
      intros w. apply network_retryable, Hnet.
    + apply count_exhaustedFrom.
    + apply delays_exhausted.
  - apply categorizeError_permission in Hdenied.
    unfold executeWithRetry.
    destruct (maxRetries cfg); cbn [retryFrom];
      now rewrite Hforbidden, Hdenied.
  - apply categorizeError_permission in Hdenied.
    unfold nonRetryable in Hdenied.
    destruct (code denied) as [c|]; [|discriminate].
    apply orb_prop in Hdenied.
    destruct Hdenied as [H|H]; apply String.eqb_eq in H; subst c; auto.
Qed.

End RetryFacts.

Lemma executeWithRetry_attempts_witness :
  (exists events,
      executeWithRetry RETRY_CONFIG (failingRead unavailableError) 0%nat
      = (Thrown unavailableError, 4%nat, events)
      /\ count_occ event_eq_dec events Attempt = 4%nat
      /\ delays events = [1000; 2000; 4000])
  /\ executeWithRetry RETRY_CONFIG (failingRead deniedError) 0%nat
     = (Thrown deniedError, 1%nat, [Attempt])
  /\ (code deniedError = Some "permission-denied"
      \/ code deniedError = Some "unauthenticated").
Proof.
  apply (executeWithRetry_attempts RETRY_CONFIG
           (failingRead unavailableError) (fun _ => unavailableError) S
           (failingRead deniedError) deniedError 0%nat 1%nat);
    reflexivity.
Defined.

(** ** Fetch with cache fallback *)

Section FetchFacts.

Context {W : Type}.
Variable getDocument : string -> string -> outcome (docRef W).

(** C7.  [fetchDocument] reads from the server first.  When that read
    fails with an error [isOfflineError] accepts, the cache is read: a
    document found there is returned with [fromCache] set; when the cache
    read fails or finds no document the answer is a failure,
    [success: false] with no data, whose [error] is the message of the
    server error (or 'Failed to fetch document' when that error has no
    message); the error of the cache read is not reported. *)
Theorem fetchDocument_cache_fallback
    (collectionName documentId : string) (ref : docRef W)
    (serverError : jsError) (w0 w1 : W) (events : list event) :
  getDocument collectionName documentId = Returned ref ->
  executeWithRetry RETRY_CONFIG (getServer ref) w0
  = (Thrown serverError, w1, events) ->
  isOfflineError serverError = true ->
  (exists rest, events = Attempt :: rest)
  /\ ~ In CacheRead events
  /\ fetchDocument getDocument collectionName documentId w0
     = let serverFailure :=
         {| success := false; data := VNull;
            error := Some match message serverError with
                          | Some m => if (m =? "")%string
                                      then "Failed to fetch document" else m
                          | None => "Failed to fetch document"
                          end;
            fromCache := false |} in
       match getCache ref w1 with
       | (Returned cachedSnapshot, w2) =>
           if exists_ cachedSnapshot
           then ({| success := true; data := snapshotData cachedSnapshot;
                    error := None; fromCache := true |},
                 w2, events ++ [CacheRead])
           else (serverFailure, w2, events ++ [CacheRead])
       | (Thrown cacheError, w2) =>
           (serverFailure, w2, events ++ [CacheRead])
       end.
Proof.
  intros Href Hserver Hoffline. split; [|split].
  - destruct (executeWithRetry_first RETRY_CONFIG (getServer ref) w0)
      as [rest Hrest].
    rewrite Hserver in Hrest. now exists rest.
  - assert (forall (op : W -> outcome snapshot * W) n a w,
               ~ In CacheRead (snd (retryFrom RETRY_CONFIG op n a w)))
      as Hno.
    { induction n as [|n IH]; intros a w; cbn [retryFrom];
        destruct (op w) as [[r|e] w']; destruct (0 <? a);
        try destruct (nonRetryable e); simpl;
        try (intros [H|[H|H]]; discriminate || contradiction);
        try (intros [H|H]; discriminate || contradiction);
        specialize (IH (a + 1) w');
        destruct (retryFrom RETRY_CONFIG op n (a + 1) w') as [[o w''] t];
        simpl in *; intros H;
        repeat (destruct H as [H|H]; [discriminate|]); contradiction. }
    specialize (Hno (getServer ref) (maxRetries RETRY_CONFIG) 0 w0).
    unfold executeWithRetry in Hserver. rewrite Hserver in Hno. exact Hno.
  - unfold fetchDocument. rewrite Href, Hserver, Hoffline.
    unfold fetchFailure. reflexivity.
Qed.

End FetchFacts.

Lemma fetchDocument_cache_fallback_witness :
  fetchDocument (fun _ _ => Returned offlineRef) "userProjects" "alice" 0%nat
  = ({| success := true; data := snapshotData cachedKitchen;
        error := None; fromCache := true |},
     4%nat,
     [Attempt; Sleep 1000; Attempt; Sleep 2000; Attempt; Sleep 4000; Attempt;
      CacheRead])
  /\ fetchDocument (fun _ _ => Returned uncachedRef) "userProjects" "alice"
       0%nat
     = ({| success := false; data := VNull;
           error := Some "Failed to get document because the client is offline.";
           fromCache := false |},
        5%nat,
        [Attempt; Sleep 1000; Attempt; Sleep 2000; Attempt; Sleep 4000;
         Attempt; CacheRead]).
Proof.
  split.
  - apply (fetchDocument_cache_fallback (fun _ _ => Returned offlineRef)
             "userProjects" "alice" offlineRef unavailableError 0%nat 4%nat
             [Attempt; Sleep 1000; Attempt; Sleep 2000; Attempt; Sleep 4000;
              Attempt]);
      reflexivity.
  - apply (fetchDocument_cache_fallback (fun _ _ => Returned uncachedRef)
             "userProjects" "alice" uncachedRef unavailableError 0%nat 4%nat
             [Attempt; Sleep 1000; Attempt; Sleep 2000; Attempt; Sleep 4000;
              Attempt]);
      reflexivity.
Defined.

(** ** The realtime filter *)

Section RealtimeFacts.

(** A snapshot is dropped whole while a sync is in progress, and when its
    hash is the last synced one. *)
Lemma snapshot_discarded (m : machine) (snap : list object)
    (fromCache hasPendingWrites : bool) (now : Z) :
  syncInProgress (state m) = true
  \/ lastSyncedHash (state m) = Some (calculateHash (Some snap)) ->
  step m (Snapshot snap fromCache hasPendingWrites now) = m.
Proof.
  intros H. cbn [step].
  destruct (realtimeUnsubscribe (state m)) as [onUpdate|]; [|reflexivity].
  unfold onSnapshot. destruct H as [-> | ->]; [reflexivity|].
  rewrite String.eqb_refl. now destruct (syncInProgress (state m)).
Qed.

Lemma upload_records_hash (m0 : machine) (who : nat) (C : list object)
    (result : FirestoreResult) (now : Z) :
  authenticated m0 = true ->
  syncInProgress (state m0) = false ->
  inFlight m0 = [] ->
  success result = true ->
  lastSyncedHash
    (state (run m0 [Upload who C; SaveSettled who result now]))
  = Some (calculateHash (Some C)).
Proof.
  intros Hauth Hidle Hnone Hok.
  destruct m0 as [[time hash busy sub auto queue] auth uid store full
                    pending flying seen].
  destruct result as [ok d e c].
  cbn in Hauth, Hidle, Hnone, Hok. subst auth busy flying ok.
  unfold run. cbn [fold_left]. frame. rewrite Nat.eqb_refl. frame.
  destruct full; frame; destruct queue; reflexivity.
Qed.

(** C8.  Once an upload of [C] has succeeded the last synced hash is the
    hash of [C], and a snapshot with that hash leaves the whole machine
    as it is: sync state, local storage, and the record of what was
    written and of the calls of [onUpdate].  So does any snapshot that
    arrives while a sync is in progress. *)
Theorem snapshot_echo_discarded (m0 : machine) (who : nat)
    (C : list object) (result : FirestoreResult) (now : Z) :
  authenticated m0 = true ->
  syncInProgress (state m0) = false ->
  inFlight m0 = [] ->
  success result = true ->
  lastSyncedHash
    (state (run m0 [Upload who C; SaveSettled who result now]))
  = Some (calculateHash (Some C))
  /\ (forall snap fromCache hasPendingWrites t,
         calculateHash (Some snap) = calculateHash (Some C) ->
         step (run m0 [Upload who C; SaveSettled who result now])
           (Snapshot snap fromCache hasPendingWrites t)
         = run m0 [Upload who C; SaveSettled who result now])
  /\ (forall m snap fromCache hasPendingWrites t,
         syncInProgress (state m) = true ->
         step m (Snapshot snap fromCache hasPendingWrites t) = m).
Proof.
  intros Hauth Hidle Hnone Hok. split; [|split].
  - now apply upload_records_hash.
  - intros snap fromCache hasPendingWrites t Hsame.
    apply snapshot_discarded. right. rewrite Hsame.
    now apply upload_records_hash.
  - intros m snap fromCache hasPendingWrites t Hbusy.
    apply snapshot_discarded. now left.
Qed.

End RealtimeFacts.

Lemma snapshot_echo_discarded_witness :
  step (run (step (signedIn "alice") (StartRealtime true))
          [Upload 1%nat [kitchenLocal]; SaveSettled 1%nat saved 1000])
    (Snapshot [kitchenLocal] false false 2000)
  = run (step (signedIn "alice") (StartRealtime true))
      [Upload 1%nat [kitchenLocal]; SaveSettled 1%nat saved 1000].
Proof.
  apply (proj1 (proj2 (snapshot_echo_discarded
                         (step (signedIn "alice") (StartRealtime true)) 1%nat
                         [kitchenLocal] saved 1000
                         eq_refl eq_refl eq_refl eq_refl))).
  reflexivity.
Defined.

(** A snapshot with other content is taken: stored, recorded as synced and
    handed to [onUpdate]. *)
Example snapshot_forwarded :
  log (step (run (step (signedIn "alice") (StartRealtime true))
               [Upload 1%nat [kitchenLocal]; SaveSettled 1%nat saved 1000])
         (Snapshot [kitchenRemote] false false 2000))
  = log (run (step (signedIn "alice") (StartRealtime true))
           [Upload 1%nat [kitchenLocal]; SaveSettled 1%nat saved 1000])
    ++ [Stored "constructionEstimatorProjects:alice"
          (JSON_stringify (VArr [VObj kitchenRemote]));
        Updated [kitchenRemote] false false].
Proof. vm_compute. reflexivity. Qed.

(** ** The upload queue *)

Section QueueFacts.

(** Two uploads issued together: two saves, the second started after the
    first has ended, and both promises resolved. *)
Lemma two_concurrent_uploads (uid : string) (A B : list object)
    (r1 r2 : FirestoreResult) (t1 t2 : Z) :
  let m := run (signedIn uid)
             [Upload 1%nat A; Upload 2%nat B; SaveSettled 1%nat r1 t1;
              TimerFired; SaveSettled 2%nat r2 t2] in
  saveCalls (log m)
  = [SaveStarted 1%nat A; SaveEnded 1%nat;
     SaveStarted 2%nat B; SaveEnded 2%nat]
  /\ resolved (log m) = [1%nat; 2%nat]
  /\ inFlight m = [] /\ timers m = [] /\ syncQueue (state m) = []
  /\ syncInProgress (state m) = false.
Proof.
  destruct r1 as [ok1 d1 e1 c1], r2 as [ok2 d2 e2 c2].
  destruct ok1, ok2; repeat split; reflexivity.
Qed.

(** As long as [clearSyncState] is not called, a save starts only when
    none is under way. *)
Lemma step_singleFlight (m : machine) (i : input) :
  singleFlight m -> i <> ClearSyncState -> singleFlight (step m i).
Proof.
  intros H Hi.
  assert (Hsync : forall r m', singleFlight m' ->
                               singleFlight (syncToCloud r m')).
  { intros r [[time hash busy sub auto queue] auth uid store full
                pending flying seen] H'.
    unfold singleFlight in *. cbn in H'. destruct auth; [|exact H'].
    destruct H' as [[-> [p ->]] | [-> ->]]; frame.
    - left. split; [reflexivity | now exists p].
    - left. split; [reflexivity | eexists; reflexivity]. }
  destruct i; try contradiction; try exact H.
  - now apply Hsync.
  - destruct m as [[time hash busy sub auto queue] auth uid store full
                     pending flying seen].
    unfold singleFlight in *. cbn in H.
    destruct H as [[-> [[pc pp ph] ->]] | [-> ->]]; frame;
      [|right; now split].
    destruct (Nat.eqb pc who); frame; [|left; split; eauto].
    right. destruct result as [[] d e c]; frame;
      destruct full; frame; destruct queue; split; reflexivity.
  - cbn [step]. destruct (timers m) as [|next rest] eqn:T; [exact H|].
    apply Hsync.
    destruct m as [[time hash busy sub auto queue] auth uid store full
                     pending flying seen].
    exact H.
  - destruct m as [[time hash busy sub auto queue] auth uid store full
                     pending flying seen].
    unfold singleFlight in *. cbn in H. destruct sub as [onUpdate|];
      [|exact H].
    destruct H as [[-> [p ->]] | [-> ->]]; frame.
    + left. split; eauto.
    + destruct (match hash with
                | Some h => (_ =? h)%string
                | None => false
                end); [right; now split|].
      right. destruct onUpdate; frame; destruct full; frame; now split.
  - destruct m as [[time hash busy sub auto queue] auth uid store full
                     pending flying seen].
    unfold singleFlight in *. cbn in H. destruct auth; frame; [|exact H].
    destruct sub; exact H.
Qed.

Lemma run_singleFlight (inputs : list input) (m : machine) :
  singleFlight m -> Forall (fun i => i <> ClearSyncState) inputs ->
  (List.length (inFlight (run m inputs)) <= 1)%nat.
Proof.
  revert m. unfold run.
  induction inputs as [|i rest IH]; cbn [fold_left]; intros m H Hall.
  - destruct H as [[_ [p ->]] | [_ ->]]; simpl; lia.
  - apply Forall_cons_iff in Hall as [Hi Hrest].
    apply IH; [now apply step_singleFlight | exact Hrest].
Qed.

(** [clearSyncState] in the middle of an upload lets the next upload
    start while the first save is still under way. *)
Example upload_after_clear_overlaps (uid : string) (A B : list object) :
  map saveCaller
    (inFlight (run (signedIn uid)
                 [Upload 1%nat A; ClearSyncState; Upload 2%nat B]))
  = [1%nat; 2%nat].
Proof. reflexivity. Qed.

(** C3.  An upload issued in the 100 ms between the end of a save and
    the start of the next queued one runs at once, and the queued request
    whose timer then fires goes to the back of the queue: of the requests
    2 and 3, queued in this order behind 1, request 3 is saved before
    request 2, and request 4, issued last, before both. *)
Theorem queued_upload_overtaken (uid : string) (A B C D : list object)
    (r1 r2 r3 r4 : FirestoreResult) (t1 t2 t3 t4 : Z) :
  map caller
    (syncQueue (state (run (signedIn uid)
                         [Upload 1%nat A; Upload 2%nat B; Upload 3%nat C])))
  = [2%nat; 3%nat]
  /\ savesStarted
       (log (run (signedIn uid)
               [Upload 1%nat A; Upload 2%nat B; Upload 3%nat C;
                SaveSettled 1%nat r1 t1;
                Upload 4%nat D; TimerFired;
                SaveSettled 4%nat r4 t4; TimerFired;
                SaveSettled 3%nat r3 t3; TimerFired;
                SaveSettled 2%nat r2 t2]))
     = [1%nat; 4%nat; 3%nat; 2%nat].
Proof.
  split; [reflexivity|].
  destruct r1 as [[] d1 e1 c1], r2 as [[] d2 e2 c2],
           r3 as [[] d3 e3 c3], r4 as [[] d4 e4 c4]; reflexivity.
Qed.

End QueueFacts.

(* ================================================================== *)
(** * Further properties of the merge engine *)

Section MergeMore.

Variable Date_parse : string -> option Z.
Variable runtime_gt : value -> value -> bool.

Local Abbreviation merge := (mergeProjects Date_parse runtime_gt).
Local Abbreviation mergeLocal' := (mergeLocal Date_parse runtime_gt).
Local Abbreviation resolve := (resolveConflict Date_parse runtime_gt).
Local Abbreviation mergeField' := (mergeField Date_parse runtime_gt).

(** *** Objects, continued *)

Lemma get_setField_same (o : object) (k : string) (v : value) :
  get (setField o k v) k = v.
Proof.
  unfold setField. destruct (hasOwn o k) eqn:H.
  - induction o as [|[k0 v0] rest IH]; simpl in *; [discriminate|].
    destruct (String.eqb_spec k0 k) as [->|Hk]; simpl.
    + now rewrite String.eqb_refl.
    + destruct (String.eqb_spec k0 k); [contradiction | now apply IH].
  - destruct (arrayIndex k) as [n|].
    + induction o as [|[k0 v0] rest IH]; simpl in *.
      * now rewrite String.eqb_refl.
      * destruct (String.eqb_spec k0 k) as [->|Hk]; [discriminate|].
        simpl in H.
        destruct (arrayIndex k0) as [n'|]; [destruct (n' <? n)|]; simpl;
          rewrite ?String.eqb_refl; try reflexivity.
        destruct (String.eqb_spec k0 k); [contradiction | now apply IH].
    + induction o as [|[k0 v0] rest IH]; simpl in *.
      * now rewrite String.eqb_refl.
      * destruct (String.eqb_spec k0 k) as [->|Hk]; [discriminate|].
        now apply IH.
Qed.

Lemma hasOwn_setField_other (o : object) (k k' : string) (v : value) :
  k <> k' -> hasOwn (setField o k v) k' = hasOwn o k'.
Proof.
  intros Hne. unfold setField. destruct (hasOwn o k).
  - induction o as [|[k0 v0] rest IH]; simpl; [reflexivity|].
    destruct (String.eqb_spec k0 k) as [->|Hk]; simpl; [reflexivity|].
    now rewrite IH.
  - destruct (arrayIndex k) as [n|].
    + induction o as [|[k0 v0] rest IH]; simpl.
      * destruct (String.eqb_spec k k'); [contradiction | reflexivity].
      * destruct (arrayIndex k0) as [n'|]; [destruct (n' <? n)|]; simpl;
          try (destruct (String.eqb_spec k k'); [contradiction | reflexivity]).
        now rewrite IH.
    + unfold hasOwn. rewrite existsb_app. simpl.
      destruct (String.eqb_spec k k'); [contradiction|].
      now rewrite !orb_false_r.
Qed.

Lemma truthyAt_withSource (o : object) (origin k : string) :
  k <> "source" -> truthyAt (withSource o origin) k = truthyAt o k.
Proof.
  intros H. unfold truthyAt, withSource.
  rewrite hasOwn_setField_other, get_setField_other by congruence.
  reflexivity.
Qed.

(** *** The keys of the map *)

Lemma map_set_key_in (m : jsmap) (k k' : value) (v : object) :
  In k' (map fst (map_set m k v)) <-> In k' (map fst m) \/ k' = k.
Proof.
  induction m as [|[k0 v0] rest IH]; simpl.
  - split; [intros [H|[]]; auto | intros [[]|H]; auto].
  - destruct (sameValueZero k0 k) eqn:E; simpl.
    + apply sameValueZero_eq in E. subst k0. split; [tauto|].
      intros [H|H]; [exact H | left; now symmetry].
    + rewrite IH. tauto.
Qed.

Lemma fold_addRemote_keys (remote : list object) (m : jsmap) (k : value) :
  In k (map fst (fold_left addRemote remote m))
  <-> In k (map fst m) \/ In k (map idOf remote).
Proof.
  revert m. induction remote as [|r rest IH]; intros m; simpl.
  - tauto.
  - rewrite IH. unfold addRemote. rewrite map_set_key_in.
    unfold idOf. intuition congruence.
Qed.

Lemma fold_mergeLocal_keys (s : strategy) (locals : list object)
    (m m' : jsmap) (k : value) :
  fold_left (mergeLocal' s) locals (Done m) = Done m' ->
  In k (map fst m') <-> In k (map fst m) \/ In k (map idOf locals).
Proof.
  revert m. induction locals as [|l rest IH]; intros m; cbn [fold_left].
  - intros [= <-]. simpl. tauto.
  - destruct (mergeLocal' s (Done m) l) as [m1|] eqn:E;
      [|now rewrite fold_mergeLocal_TypeError].
    intros H. rewrite (IH m1 H).
    assert (In k (map fst m1) <-> In k (map fst m) \/ k = idOf l) as ->.
    { cbn [mergeLocal] in E.
      destruct (map_get m (get l "id")) as [rp|].
      - destruct (resolve s l rp) as [r|]; [|discriminate].
        injection E as <-. apply map_set_key_in.
      - injection E as <-. apply map_set_key_in. }
    simpl. intuition congruence.
Qed.

(** X1.  Under latest_wins and under merge no id is lost and none is
    made up: the ids of the records [mergeProjects] returns are the ids
    of the local and of the remote records. *)
Theorem mergeProjects_keeps_ids (s : strategy)
    (localProjects remoteProjects merged : list object) (k : value) :
  s = LATEST_WINS \/ s = MERGE ->
  merge localProjects remoteProjects s = Done merged ->
  In k (map idOf merged)
  <-> In k (map idOf remoteProjects) \/ In k (map idOf localProjects).
Proof.
  intros Hs H.
  assert (exists m, fold_left (mergeLocal' s) localProjects
                      (Done (fold_left addRemote remoteProjects []))
                    = Done m /\ merged = stripSource m) as [m [Hm ->]].
  { destruct Hs as [-> | ->]; simpl in H;
      destruct (fold_left _ localProjects _) as [m|];
      try discriminate; injection H as <-; now exists m. }
  assert (map idOf (stripSource m) = map fst m) as ->.
  { apply fold_mergeLocal_inv in Hm; [|exact Hs| |].
    - destruct Hm as [_ Hk]. unfold stripSource, keyedById in *.
      rewrite map_map. apply map_ext_in. intros e He. unfold idOf.
      rewrite get_removeField_other by discriminate.
      rewrite Forall_forall in Hk. now apply Hk.
    - apply fold_addRemote_distinct. constructor.
    - apply fold_addRemote_keyed. constructor. }
  rewrite (fold_mergeLocal_keys s _ _ _ k Hm), fold_addRemote_keys.
  simpl. tauto.
Qed.

(** *** Collections without a common id *)

Lemma fold_mergeLocal_fresh (s : strategy) (locals : list object) (m : jsmap) :
  uniqueIds locals ->
  Forall (fun l => Forall (fun e => sameValueZero (fst e) (get l "id") = false)
                     m) locals ->
  fold_left (mergeLocal' s) locals (Done m)
  = Done (m ++ map (fun l => (get l "id", withSource l "local")) locals).
Proof.
  unfold uniqueIds. revert m.
  induction locals as [|l rest IH]; intros m Hu Hm; cbn [fold_left map].
  - now rewrite app_nil_r.
  - inversion Hu as [|? ? Hhd Htl]; subst.
    apply Forall_cons_iff in Hm as [Hl Hrest].
    cbn [mergeLocal]. rewrite (map_get_fresh _ _ Hl), (map_set_fresh _ _ _ Hl).
    rewrite IH; [now rewrite <- app_assoc | exact Htl |].
    rewrite Forall_forall in *. intros l' Hl'. apply Forall_app. split.
    + now apply Hrest.
    + constructor; [|constructor]. now apply Hhd.
Qed.

(** X2.  When no local record has the id of a remote record (and the ids
    are unique on each side), every strategy that merges returns the
    remote records followed by the local ones, each without its 'source'
    field, and does not fail. *)
Theorem mergeProjects_disjoint (s : strategy)
    (localProjects remoteProjects : list object) :
  s <> SERVER_WINS -> s <> LOCAL_WINS ->
  uniqueIds localProjects -> uniqueIds remoteProjects ->
  Forall (fun l => withoutCounterpart remoteProjects l = true) localProjects ->
  merge localProjects remoteProjects s
  = Done (map (fun p => removeField p "source")
            (remoteProjects ++ localProjects)).
Proof.
  intros Hs1 Hs2 Hl Hr Hdis.
  assert (merge localProjects remoteProjects s
          = match fold_left (mergeLocal' s) localProjects
                    (Done (fold_left addRemote remoteProjects [])) with
            | Done m => Done (stripSource m)
            | TypeError => TypeError
            end) as -> by (destruct s; try reflexivity; contradiction).
  rewrite (fold_addRemote_shape remoteProjects [] Hr) by constructor.
  rewrite app_nil_l, fold_mergeLocal_fresh; [|exact Hl|].
  - f_equal. unfold stripSource. rewrite !map_app, !map_map.
    f_equal; apply map_ext; intros p; apply removeField_withSource.
  - eapply Forall_impl; [|exact Hdis]. intros l Hnone.
    unfold withoutCounterpart in Hnone.
    destruct (counterpart remoteProjects l) eqn:C; [discriminate|].
    rewrite Forall_map. apply Forall_forall. intros r Hin.
    exact (find_none _ _ C r Hin).
Qed.

(** *** Records with line items *)






End MergeMore.

Lemma mergeProjects_keeps_ids_witness :
  In (VStr "p2")
    (map idOf
       [ [("id", VStr "p1"); ("name", VStr "Kitchen remodel");
          ("updatedAt", VStr "2024-01-02T09:30:00.000Z");
          ("lineItems", VArr [kitchenItem])];
         deckRemote;
         [("id", VStr "p2"); ("name", VStr "Garage");
          ("updatedAt", VStr "2024-02-10"); ("lineItems", VArr [])] ])
  <-> In (VStr "p2") (map idOf [kitchenRemote; deckRemote])
      \/ In (VStr "p2") (map idOf [kitchenLocal; garageLocal]).
Proof.
  apply (mergeProjects_keeps_ids isoDateParse noOtherOrder MERGE
           [kitchenLocal; garageLocal] [kitchenRemote; deckRemote]);
    [now right | reflexivity].
Defined.

Lemma mergeProjects_disjoint_witness :
  mergeProjects isoDateParse noOtherOrder [garageLocal]
    [kitchenRemote; deckRemote] MERGE
  = Done [kitchenRemote; deckRemote; removeField garageLocal "source"].
Proof.
  apply (mergeProjects_disjoint isoDateParse noOtherOrder MERGE
           [garageLocal] [kitchenRemote; deckRemote]);
    try discriminate;
    [apply uniqueIds_singleton
    |apply uniqueIds_pair; reflexivity
    |repeat constructor].
Defined.


(** *** The fields of a merged record *)

Section MergeFields.

Variable Date_parse : string -> option Z.
Variable runtime_gt : value -> value -> bool.

Local Abbreviation merge := (mergeProjects Date_parse runtime_gt).
Local Abbreviation mergeField' := (mergeField Date_parse runtime_gt).
Local Abbreviation time := (updatedTime Date_parse).

Lemma hasOwn_keys (o : object) (k : string) :
  existsb (fun key => (key =? k)%string) (map fst o) = hasOwn o k.
Proof. unfold hasOwn. induction o as [|[k0 v0] rest IH]; simpl; congruence. Qed.

Lemma fold_mergeField_other (lp rp : object) (k : string) (keys : list string)
    (acc res : object) :
  k <> "updatedAt" -> k <> "lineItems" ->
  fold_left (mergeField' lp rp) keys (Done acc) = Done res ->
  get res k
  = if existsb (fun key => (key =? k)%string) keys
       && (truthy (get lp k) && negb (truthyAt rp k))
    then get lp k else get acc k.
Proof.
  intros Hu Hi. revert acc.
  induction keys as [|key rest IH]; intros acc; cbn [fold_left existsb].
  - now intros [= <-].
  - unfold mergeField at 2.
    destruct (String.eqb_spec key "updatedAt") as [->|Hu'].
    { intros H. rewrite (IH _ H), get_setField_other by congruence.
      destruct (String.eqb_spec "updatedAt" k); [congruence | reflexivity]. }
    destruct (String.eqb_spec key "lineItems") as [->|Hi'].
    { destruct (lengthOf (get lp "lineItems")) as [ll|];
        [|now rewrite fold_mergeField_TypeError].
      destruct (lengthOf (get rp "lineItems")) as [rl|];
        [|now rewrite fold_mergeField_TypeError].
      destruct (String.eqb_spec "lineItems" k); [congruence|].
      destruct (js_gt runtime_gt ll rl); intros H; rewrite (IH _ H);
        rewrite ?get_setField_other by congruence; reflexivity. }
    destruct (String.eqb_spec key k) as [->|Hk].
    + destruct (truthy (get lp k) && negb (truthyAt rp k)); intros H;
        rewrite (IH _ H); rewrite ?get_setField_same;
        rewrite ?andb_false_r; simpl; try reflexivity.
      now destruct (existsb _ rest).
    + destruct (truthy (get lp key) && negb (truthyAt rp key)); intros H;
        rewrite (IH _ H); rewrite ?get_setField_other by exact Hk;
        reflexivity.
Qed.

Lemma fold_mergeField_updatedAt (lp rp : object) (keys : list string)
    (acc res : object) :
  fold_left (mergeField' lp rp) keys (Done acc) = Done res ->
  get res "updatedAt"
  = if existsb (fun key => (key =? "updatedAt")%string) keys
    then (if time_gt (time lp) (time rp)
          then get lp "updatedAt" else get rp "updatedAt")
    else get acc "updatedAt".
Proof.
  revert acc.
  induction keys as [|key rest IH]; intros acc; cbn [fold_left existsb].
  - now intros [= <-].
  - unfold mergeField at 2.
    destruct (String.eqb_spec key "updatedAt") as [->|Hu].
    { intros H. rewrite (IH _ H), get_setField_same. cbn [orb].
      now destruct (existsb _ rest). }
    destruct (String.eqb_spec key "lineItems") as [->|Hi].
    { destruct (lengthOf (get lp "lineItems")) as [ll|];
        [|now rewrite fold_mergeField_TypeError].
      destruct (lengthOf (get rp "lineItems")) as [rl|];
        [|now rewrite fold_mergeField_TypeError].
      destruct (js_gt runtime_gt ll rl); intros H; rewrite (IH _ H);
        rewrite ?get_setField_other by discriminate; reflexivity. }
    destruct (truthy (get lp key) && negb (truthyAt rp key)); intros H;
      rewrite (IH _ H); rewrite ?get_setField_other by exact Hu;
      reflexivity.
Qed.

Lemma fold_mergeField_lineItems (lp rp : object) (a b : list value)
    (keys : list string) (acc res : object) :
  get lp "lineItems" = VArr a -> get rp "lineItems" = VArr b ->
  fold_left (mergeField' lp rp) keys (Done acc) = Done res ->
  get res "lineItems"
  = if existsb (fun key => (key =? "lineItems")%string) keys
       && (List.length b <? List.length a)%nat
    then VArr a else get acc "lineItems".
Proof.
  intros Ha Hb. revert acc.
  induction keys as [|key rest IH]; intros acc; cbn [fold_left existsb].
  - now intros [= <-].
  - unfold mergeField at 2.
    destruct (String.eqb_spec key "updatedAt") as [->|Hu].
    { intros H. rewrite (IH _ H), get_setField_other by discriminate.
      reflexivity. }
    destruct (String.eqb_spec key "lineItems") as [->|Hi].
    { rewrite Ha, Hb. cbn [lengthOf js_gt orb andb].
      assert ((Z.of_nat (List.length b) <? Z.of_nat (List.length a))
              = (List.length b <? List.length a)%nat) as ->.
      { destruct (Nat.ltb_spec (List.length b) (List.length a));
          [apply Z.ltb_lt | apply Z.ltb_ge]; lia. }
      destruct (List.length b <? List.length a)%nat; intros H;
        rewrite (IH _ H); rewrite ?get_setField_same, ?andb_false_r;
        try reflexivity.
      now destruct (existsb _ rest). }
    destruct (truthy (get lp key) && negb (truthyAt rp key)); intros H;
      rewrite (IH _ H); rewrite ?get_setField_other by exact Hi;
      reflexivity.
Qed.

Local Abbreviation mergeLocal' := (mergeLocal Date_parse runtime_gt).
Local Abbreviation resolve := (resolveConflict Date_parse runtime_gt).
Local Abbreviation resolvedBy := (resolvedOf Date_parse runtime_gt).

(** In a collection with unique ids a record is known by its id. *)
Lemma uniqueIds_same (ps : list object) (a b : object) :
  uniqueIds ps -> In a ps -> In b ps -> sameId a b = true -> a = b.
Proof.
  unfold uniqueIds. induction ps as [|p rest IH]; cbn [In];
    intros Hu Ha Hb Hab; [contradiction|].
  inversion Hu as [|? ? Hhd Htl]; subst. rewrite Forall_forall in Hhd.
  destruct Ha as [-> | Ha], Hb as [-> | Hb].
  - reflexivity.
  - unfold sameId in Hab. rewrite (Hhd b Hb) in Hab. discriminate.
  - unfold sameId in Hab. rewrite sameValueZero_sym, (Hhd a Ha) in Hab.
    discriminate.
  - now apply IH.
Qed.

Lemma counterpart_unique (ps : list object) (p q : object) :
  uniqueIds ps -> In p ps -> sameId p q = true -> counterpart ps q = Some p.
Proof.
  intros Hu Hin Hpq.
  destruct (counterpart ps q) as [p'|] eqn:C.
  - unfold counterpart in C. apply find_some in C as [Hin' Hp'q].
    f_equal. apply (uniqueIds_same ps); try assumption.
    unfold sameId in *. apply sameValueZero_eq in Hpq. now rewrite Hpq.
  - unfold counterpart in C. now rewrite (find_none _ _ C p Hin) in Hpq.
Qed.

(** The map once the local records are in, when no conflict made the
    merge throw; and no conflict did. *)
Lemma fold_mergeLocal_partial (s : strategy) (locals remote : list object)
    (m : jsmap) :
  uniqueIds locals -> uniqueIds remote ->
  fold_left (mergeLocal' s) locals
    (Done (map (fun r => (get r "id", withSource r "remote")) remote
           : jsmap))
  = Done m ->
  m = shapeOf (resolvedBy s) locals remote
  /\ (forall l r, In l locals -> counterpart remote l = Some r ->
                  exists x, resolve s l (withSource r "remote") = Done x).
Proof.
  intros Hl Hr. revert m.
  induction locals as [|l locals' IH] using rev_ind; intros m.
  - cbn [fold_left]. intros [= <-]. split.
    + unfold shapeOf. cbn [filter map]. now rewrite app_nil_r.
    + intros l r [].
  - apply uniqueIds_snoc in Hl as [Hl' Hfresh].
    rewrite fold_left_app. cbn [fold_left].
    destruct (fold_left (mergeLocal' s) locals' _) as [m'|] eqn:F;
      [|discriminate].
    destruct (IH Hl' m' eq_refl) as [-> Hres].
    cbn [mergeLocal]. unfold shapeOf at 1. rewrite map_get_keyed_list.
    change (find (fun r => sameValueZero (get r "id") (get l "id")) remote)
      with (counterpart remote l).
    destruct (counterpart remote l) as [r|] eqn:C.
    + (* a remote record has the id of [l] *)
      assert (Hnone : forall r', sameId r' l = true ->
                                 counterpart locals' r' = None).
      { intros r' Hr'. apply counterpart_none.
        eapply Forall_impl; [|exact Hfresh]. intros q Hq. simpl in Hq.
        destruct (sameId q r') eqn:E; [|reflexivity].
        unfold sameId in *.
        now rewrite (sameValueZero_trans _ _ _ E Hr') in Hq. }
      assert (Hrl : sameId r l = true).
      { unfold counterpart in C. now apply find_some in C. }
      unfold entryOf at 1. rewrite (Hnone r Hrl).
      destruct (resolve s l (withSource r "remote")) as [x|] eqn:R;
        [|discriminate].
      intros [= <-].
      assert (Hx : withSource (spread x) "merged"
                   = mergedEntry (resolvedBy s) l r).
      { unfold mergedEntry, resolvedOf. now rewrite R. }
      split.
      * rewrite Hx. unfold shapeOf.
        rewrite (map_set_hit (entryOf (resolvedBy s) locals')
                   (mergedEntry (resolvedBy s) l) remote _ _ r Hr C).
        f_equal.
        -- apply map_ext_in. intros r' _. f_equal.
           change (sameValueZero (get r' "id") (get l "id"))
             with (sameId r' l).
           destruct (sameId r' l) eqn:E; unfold entryOf.
           ++ rewrite counterpart_snoc_hit; [reflexivity| |].
              ** pose proof (Hnone r' E) as Hn. unfold counterpart in Hn.
                 apply Forall_forall. intros q Hq.
                 exact (find_none _ _ Hn q Hq).
              ** unfold sameId. now rewrite sameValueZero_sym.
           ++ rewrite counterpart_snoc_other; [reflexivity|].
              unfold sameId. now rewrite sameValueZero_sym.
        -- rewrite filter_app. cbn [filter].
           assert (withoutCounterpart remote l = false) as ->
             by (unfold withoutCounterpart; now rewrite C).
           now rewrite app_nil_r.
      * intros l0 r0 Hin0 C0. apply in_app_or in Hin0 as [Hin0 | [<- | []]].
        -- now apply Hres.
        -- rewrite C in C0. injection C0 as <-. now exists x.
    + (* no remote record has the id of [l] *)
      assert (Hrem : Forall (fun r' => sameId r' l = false) remote).
      { apply Forall_forall. intros q Hq.
        exact (find_none _ _ C q Hq). }
      rewrite map_get_fresh.
      2:{ rewrite Forall_map. apply Forall_forall. intros q Hq. simpl.
          apply filter_In in Hq as [Hq _].
          rewrite Forall_forall in Hfresh. exact (Hfresh q Hq). }
      rewrite map_set_fresh.
      2:{ apply Forall_app. split; rewrite Forall_map.
          - eapply Forall_impl; [|exact Hrem]. now intros q Hq.
          - apply Forall_forall. intros q Hq. simpl.
            apply filter_In in Hq as [Hq _].
            rewrite Forall_forall in Hfresh. exact (Hfresh q Hq). }
      intros [= <-]. split.
      * unfold shapeOf. rewrite <- app_assoc. f_equal.
        -- apply map_ext_in. intros r' Hin. f_equal. unfold entryOf.
           rewrite counterpart_snoc_other; [reflexivity|].
           rewrite Forall_forall in Hrem. specialize (Hrem r' Hin).
           unfold sameId in *. now rewrite sameValueZero_sym.
        -- rewrite filter_app, map_app. cbn [filter].
           assert (withoutCounterpart remote l = true) as ->
             by (unfold withoutCounterpart; now rewrite C).
           reflexivity.
      * intros l0 r0 Hin0 C0. apply in_app_or in Hin0 as [Hin0 | [<- | []]].
        -- now apply Hres.
        -- rewrite C in C0. discriminate.
Qed.

(** The field-level merge of a local record with the remote record of
    its id, inside the merge of two collections: the loop over the fields
    has run on the pair, and the record it leaves is the one returned
    under that id. *)
Lemma merge_conflict_record (localProjects remoteProjects merged : list object)
    (localProject remoteProject : object) :
  uniqueIds localProjects -> uniqueIds remoteProjects ->
  merge localProjects remoteProjects MERGE = Done merged ->
  In localProject localProjects -> In remoteProject remoteProjects ->
  sameId remoteProject localProject = true ->
  exists res,
    fold_left (mergeField' localProject (withSource remoteProject "remote"))
      (map fst localProject) (Done (withSource remoteProject "remote"))
    = Done res
    /\ In (removeField res "source") merged
    /\ idOf (removeField res "source") = idOf remoteProject
    /\ (forall other, In other merged -> sameId other remoteProject = true ->
                      other = removeField res "source").
Proof.
  intros Hl Hr Hm Hinl Hinr Hid.
  assert (Hu : uniqueIds merged).
  { apply (mergeProjects_map_unique_ids Date_parse runtime_gt MERGE
             localProjects remoteProjects); [now right | exact Hm]. }
  cbn [mergeProjects] in Hm.
  rewrite (fold_addRemote_shape remoteProjects [] Hr) in Hm by constructor.
  rewrite app_nil_l in Hm.
  destruct (fold_left _ localProjects _) as [m|] eqn:F; [|discriminate].
  injection Hm as <-.
  destruct (fold_mergeLocal_partial MERGE localProjects remoteProjects m
              Hl Hr F) as [-> Hres].
  assert (Hcr : counterpart remoteProjects localProject = Some remoteProject)
    by now apply counterpart_unique.
  assert (Hcl : counterpart localProjects remoteProject = Some localProject).
  { apply counterpart_unique; [exact Hl | exact Hinl|].
    unfold sameId in *. now rewrite sameValueZero_sym. }
  destruct (Hres localProject remoteProject Hinl Hcr) as [x Hx].
  cbn [resolveConflict] in Hx.
  destruct (fold_left _ (map fst localProject) _) as [res|] eqn:Fields;
    [|discriminate].
  injection Hx as <-. exists res. split; [reflexivity|].
  assert (Hin : In (removeField res "source")
                  (stripSource (shapeOf (resolvedBy MERGE) localProjects
                                  remoteProjects))).
  { unfold stripSource, shapeOf. rewrite map_app, !map_map.
    apply in_or_app. left. apply in_map_iff. exists remoteProject.
    split; [|exact Hinr]. cbn [snd]. unfold entryOf. rewrite Hcl.
    unfold mergedEntry, resolvedOf. cbn [resolveConflict].
    rewrite Fields. cbn [spread]. apply removeField_withSource. }
  assert (Hsame : idOf (removeField res "source") = idOf remoteProject).
  { unfold idOf. rewrite get_removeField_other by discriminate.
    rewrite (fold_mergeField_other _ _ "id" _ _ _ ltac:(discriminate)
               ltac:(discriminate) Fields).
    rewrite get_withSource by discriminate.
    unfold sameId in Hid. apply sameValueZero_eq in Hid.
    now destruct (_ && _). }
  split; [exact Hin|]. split; [exact Hsame|].
  intros other Hother Hoid.
  apply (uniqueIds_same _ other (removeField res "source") Hu Hother Hin).
  unfold sameId, idOf in *. now rewrite Hsame.
Qed.

(** X4.  Field-level merge, for collections with unique ids on each
    side: where a local and a remote record share an id, exactly one
    record is returned under that id, and in it a field other than
    [updatedAt], [lineItems] and [source] takes the local value when that
    value is truthy and the remote side has nothing truthy under the
    name, and keeps the remote value (or absence) otherwise; a truthy
    remote value is never overwritten. *)
Theorem merge_field_rule (localProjects remoteProjects merged : list object)
    (localProject remoteProject : object) (k : string) :
  uniqueIds localProjects -> uniqueIds remoteProjects ->
  merge localProjects remoteProjects MERGE = Done merged ->
  In localProject localProjects -> In remoteProject remoteProjects ->
  sameId remoteProject localProject = true ->
  k <> "updatedAt" -> k <> "lineItems" -> k <> "source" ->
  exists res,
    In res merged /\ idOf res = idOf remoteProject
    /\ (forall other, In other merged -> sameId other remoteProject = true ->
                      other = res)
    /\ get res k
       = if truthy (get localProject k) && negb (truthyAt remoteProject k)
         then get localProject k else get remoteProject k.
Proof.
  intros Hl Hr Hm Hinl Hinr Hid Hu Hi Hs.
  destruct (merge_conflict_record _ _ _ _ _ Hl Hr Hm Hinl Hinr Hid)
    as [res [Hres [Hin [Hsame Honly]]]].
  exists (removeField res "source").
  split; [exact Hin|]. split; [exact Hsame|]. split; [exact Honly|].
  rewrite get_removeField_other by congruence.
  rewrite (fold_mergeField_other _ _ k _ _ _ Hu Hi Hres).
  rewrite hasOwn_keys, truthyAt_withSource, get_withSource by exact Hs.
  destruct (truthy (get localProject k)) eqn:T.
  - now rewrite (truthy_get_hasOwn _ _ T).
  - now rewrite andb_false_r.
Qed.

(** X5.  Field-level merge, for collections with unique ids on each
    side: in the one record returned under an id both sides hold,
    [updatedAt] becomes the local timestamp when the local record has one
    that is strictly later, and stays the remote one otherwise; of two
    arrays of line items the local one is taken only when it is strictly
    longer. *)
Theorem merge_updatedAt_lineItems_rule
    (localProjects remoteProjects merged : list object)
    (localProject remoteProject : object) :
  uniqueIds localProjects -> uniqueIds remoteProjects ->
  merge localProjects remoteProjects MERGE = Done merged ->
  In localProject localProjects -> In remoteProject remoteProjects ->
  sameId remoteProject localProject = true ->
  exists res,
    In res merged /\ idOf res = idOf remoteProject
    /\ (forall other, In other merged -> sameId other remoteProject = true ->
                      other = res)
    /\ get res "updatedAt"
       = (if hasOwn localProject "updatedAt"
             && time_gt (time localProject) (time remoteProject)
          then get localProject "updatedAt"
          else get remoteProject "updatedAt")
    /\ (forall a b,
           get localProject "lineItems" = VArr a ->
           get remoteProject "lineItems" = VArr b ->
           get res "lineItems"
           = VArr (if (List.length b <? List.length a)%nat then a else b)).
Proof.
  intros Hl Hr Hm Hinl Hinr Hid.
  destruct (merge_conflict_record _ _ _ _ _ Hl Hr Hm Hinl Hinr Hid)
    as [res [Hres [Hin [Hsame Honly]]]].
  exists (removeField res "source").
  split; [exact Hin|]. split; [exact Hsame|]. split; [exact Honly|]. split.
  - rewrite get_removeField_other by discriminate.
    rewrite (fold_mergeField_updatedAt _ _ _ _ _ Hres), hasOwn_keys.
    rewrite updatedTime_withSource, get_withSource by discriminate.
    now destruct (hasOwn localProject "updatedAt"), (time_gt _ _).
  - intros a b Ha Hb.
    rewrite get_removeField_other by discriminate.
    assert (Hb' : get (withSource remoteProject "remote") "lineItems"
                  = VArr b)
      by now rewrite get_withSource by discriminate.
    rewrite (fold_mergeField_lineItems _ _ a b _ _ _ Ha Hb' Hres).
    rewrite hasOwn_keys, Hb'.
    assert (hasOwn localProject "lineItems" = true) as ->.
    { destruct (hasOwn localProject "lineItems") eqn:E; [reflexivity|].
      rewrite (get_hasOwn _ _ E) in Ha. discriminate. }
    now destruct (List.length b <? List.length a)%nat.
Qed.

End MergeFields.

Lemma merge_field_rule_witness :
  exists res,
    In res [ [("id", VStr "p1"); ("name", VStr "Kitchen remodel");
              ("updatedAt", VStr "2024-01-02T09:30:00.000Z");
              ("lineItems", VArr [kitchenItem])];
             deckRemote; removeField garageLocal "source" ]
    /\ idOf res = idOf kitchenRemote
    /\ (forall other,
           In other [ [("id", VStr "p1"); ("name", VStr "Kitchen remodel");
                       ("updatedAt", VStr "2024-01-02T09:30:00.000Z");
                       ("lineItems", VArr [kitchenItem])];
                      deckRemote; removeField garageLocal "source" ] ->
           sameId other kitchenRemote = true -> other = res)
    /\ get res "name"
       = if truthy (get kitchenLocal "name")
            && negb (truthyAt kitchenRemote "name")
         then get kitchenLocal "name" else get kitchenRemote "name".
Proof.
  apply (merge_field_rule isoDateParse noOtherOrder
           [kitchenLocal; garageLocal] [kitchenRemote; deckRemote] _
           kitchenLocal kitchenRemote "name");
    [repeat constructor | repeat constructor | reflexivity
    | now left | now left | reflexivity
    | discriminate | discriminate | discriminate].
Defined.

Lemma merge_updatedAt_lineItems_rule_witness :
  exists res,
    In res [ [("id", VStr "p1"); ("name", VStr "Kitchen remodel");
              ("updatedAt", VStr "2024-01-02T09:30:00.000Z");
              ("lineItems", VArr [kitchenItem])];
             deckRemote; removeField garageLocal "source" ]
    /\ idOf res = idOf kitchenRemote
    /\ (forall other,
           In other [ [("id", VStr "p1"); ("name", VStr "Kitchen remodel");
                       ("updatedAt", VStr "2024-01-02T09:30:00.000Z");
                       ("lineItems", VArr [kitchenItem])];
                      deckRemote; removeField garageLocal "source" ] ->
           sameId other kitchenRemote = true -> other = res)
    /\ get res "updatedAt"
       = (if hasOwn kitchenLocal "updatedAt"
             && time_gt (updatedTime isoDateParse kitchenLocal)
                  (updatedTime isoDateParse kitchenRemote)
          then get kitchenLocal "updatedAt"
          else get kitchenRemote "updatedAt")
    /\ (forall a b,
           get kitchenLocal "lineItems" = VArr a ->
           get kitchenRemote "lineItems" = VArr b ->
           get res "lineItems"
           = VArr (if (List.length b <? List.length a)%nat then a else b)).
Proof.
  apply (merge_updatedAt_lineItems_rule isoDateParse noOtherOrder
           [kitchenLocal; garageLocal] [kitchenRemote; deckRemote] _
           kitchenLocal kitchenRemote);
    [repeat constructor | repeat constructor | reflexivity
    | now left | now left | reflexivity].
Defined.

(* ================================================================== *)
(** * Further properties of the fingerprint *)

Section HashMore.

Lemma toInt32_wrap (z : Z) : exists q, toInt32 z = z + q * 2 ^ 32.
Proof.
  unfold toInt32. exists (- ((z + 2 ^ 31) / 2 ^ 32)).
  pose proof (Z.div_mod (z + 2 ^ 31) (2 ^ 32)). lia.
Qed.

Lemma toInt32_congr (a b q : Z) :
  a = b + q * 2 ^ 32 -> toInt32 a = toInt32 b.
Proof.
  intros ->. unfold toInt32.
  replace (b + q * 2 ^ 32 + 2 ^ 31) with (b + 2 ^ 31 + q * 2 ^ 32) by ring.
  now rewrite Z.mod_add by lia.
Qed.

Lemma toInt32_small (x : Z) : - 2 ^ 31 <= x < 2 ^ 31 -> toInt32 x = x.
Proof. intros H. unfold toInt32. rewrite Z.mod_small; lia. Qed.

(** One turn of the loop is [31 * hash + char], wrapped to 32 bits. *)
Lemma hashStep_poly (h : Z) (c : ascii) :
  hashStep h c = toInt32 (31 * h + charCode c).
Proof.
  unfold hashStep, shl32. change (Z.land 5 31) with 5.
  rewrite Z.shiftl_mul_pow2 by lia.
  destruct (toInt32_wrap h) as [q1 H1].
  destruct (toInt32_wrap (toInt32 h * 2 ^ 5)) as [q2 H2].
  apply (toInt32_congr _ _ (32 * q1 + q2)). rewrite H2, H1. ring.
Qed.

Lemma fold_hashStep_poly (l : list ascii) (h p : Z) :
  (exists q, h = p + q * 2 ^ 32) ->
  exists q, fold_left hashStep l h
            = fold_left (fun h c => 31 * h + charCode c) l p + q * 2 ^ 32.
Proof.
  revert h p. induction l as [|c l IH]; intros h p [q Hq]; cbn [fold_left].
  - now exists q.
  - apply IH. rewrite hashStep_poly.
    destruct (toInt32_wrap (31 * h + charCode c)) as [q' ->].
    exists (31 * q + q'). subst h. ring.
Qed.

(** X6.  The hash of [calculateHash] is the polynomial hash with
    multiplier 31 of the code units of the text (Java's
    [String.hashCode]), reduced to a signed 32-bit integer: the shift and
    subtract of the loop and its [hash & hash] compute nothing else. *)
Theorem hash32_is_polynomial (str : string) :
  hash32 str = toInt32 (polyHash str).
Proof.
  unfold hash32, polyHash.
  destruct (fold_hashStep_poly (list_ascii_of_string str) 0 0) as [q Hq];
    [exists 0; ring|].
  rewrite <- (toInt32_small (fold_left hashStep _ 0)) by apply hash32_range.
  now apply (toInt32_congr _ _ q).
Qed.

Lemma noMinus_app (s t : string) :
  noMinus (s ++ t) = noMinus s && noMinus t.
Proof.
  induction s as [|c s IH]; simpl; [reflexivity|].
  now rewrite IH, andb_assoc.
Qed.

Lemma digitChar_noMinus (d : Z) :
  0 <= d < 36 -> (digitChar d =? "-")%char = false.
Proof.
  intros Hd. apply Ascii.eqb_neq. intros H.
  apply (f_equal charCode) in H. rewrite (charCode_digitChar d Hd) in H.
  change (charCode "-") with 45 in H.
  destruct (d <? 10); lia.
Qed.

Lemma radixDigits_noMinus (fuel : nat) (n : Z) :
  0 <= n -> noMinus (radixDigits 36 fuel n) = true.
Proof.
  revert n. induction fuel as [|fuel IH]; intros n Hn; [reflexivity|].
  cbn [radixDigits]. destruct (Z.ltb_spec n 36).
  - simpl. rewrite digitChar_noMinus by lia. reflexivity.
  - rewrite noMinus_app, IH by (apply Z.div_pos; lia). simpl.
    rewrite digitChar_noMinus by (apply Z.mod_pos_bound; lia). reflexivity.
Qed.

(** The base-36 numeral of an integer reads back as that integer. *)
Lemma signedValueOf36_numberToString (n : Z) :
  signedValueOf36 (numberToString 36 n) = n.
Proof.
  destruct (Z.ltb_spec n 0) as [Hneg|Hpos].
  - pose proof (numberToString36_value (- n)) as Hv.
    unfold numberToString in *.
    destruct (Z.ltb_spec n 0) as [_|Hge]; [|lia].
    destruct (Z.ltb_spec (- n) 0) as [Hlt|_]; [lia|].
    cbn [append signedValueOf36]. rewrite Ascii.eqb_refl.
    rewrite Hv by lia. lia.
  - pose proof (numberToString36_value n Hpos) as Hv.
    pose proof (radixDigits_noMinus (S (Z.to_nat (Z.log2 n))) n Hpos) as Hm.
    unfold numberToString in *.
    destruct (Z.ltb_spec n 0) as [Hlt|_]; [lia|].
    destruct (radixDigits 36 _ n) as [|c rest]; [exact Hv|].
    cbn [noMinus] in Hm. apply andb_prop in Hm as [Hc _].
    unfold signedValueOf36. apply negb_true_iff in Hc. now rewrite Hc.
Qed.

(** X7.  Two non-empty collections have the same fingerprint exactly when
    the 32-bit hashes of their JSON texts are equal: the base-36 rendering
    loses nothing. *)
Theorem calculateHash_equal_iff (p q : object) (ps qs : list object) :
  calculateHash (Some (p :: ps)) = calculateHash (Some (q :: qs))
  <-> hash32 (JSON_stringify (VArr (map VObj (p :: ps))))
      = hash32 (JSON_stringify (VArr (map VObj (q :: qs)))).
Proof.
  cbn [calculateHash]. split; [|now intros ->].
  intros H. apply (f_equal signedValueOf36) in H.
  now rewrite !signedValueOf36_numberToString in H.
Qed.

End HashMore.

(* ================================================================== *)
(** * Further properties of the retry loops and of the fetch *)

Section RetryMore.

Context {W A : Type}.
Variable cfg : RetryConfig.

Lemma exhaustedFrom_succ (remaining : nat) (attempt : Z) :
  exhaustedFrom cfg (S remaining) attempt
  = (if 0 <? attempt then [Sleep (getBackoffDelay cfg (attempt - 1))] else [])
    ++ Attempt :: exhaustedFrom cfg remaining (attempt + 1).
Proof. reflexivity. Qed.

(** Whatever the operation does, the loop is seen to do what a run of
    [retries] failed and retried attempts does, and it stops short of
    the last attempt only on a value or on an error it must not retry. *)
Lemma retryFrom_shape (operation : W -> outcome A * W) (remaining : nat)
    (attempt : Z) (w : W) :
  exists retries,
    (retries <= remaining)%nat
    /\ snd (retryFrom cfg operation remaining attempt w)
       = exhaustedFrom cfg retries attempt
    /\ (forall e,
           fst (fst (retryFrom cfg operation remaining attempt w)) = Thrown e ->
           nonRetryable e = false -> retries = remaining).
Proof.
  revert attempt w.
  induction remaining as [|remaining IH]; intros attempt w; cbn [retryFrom].
  - exists 0%nat. destruct (operation w) as [[r|e] w'];
      [|destruct (nonRetryable e) eqn:E]; cbn [fst snd exhaustedFrom];
      repeat split; auto; discriminate.
  - destruct (operation w) as [[r|e] w'].
    + exists 0%nat. cbn [fst snd exhaustedFrom].
      repeat split; [lia | discriminate].
    + destruct (nonRetryable e) eqn:E.
      * exists 0%nat. cbn [fst snd exhaustedFrom].
        repeat split; [lia|]. intros e' [= <-]. congruence.
      * destruct (IH (attempt + 1) w') as [retries [Hle [Hshape Hlast]]].
        destruct (retryFrom cfg operation remaining (attempt + 1) w')
          as [[o w''] t].
        cbn [fst snd] in *. exists (S retries). rewrite exhaustedFrom_succ.
        repeat split; [lia | now rewrite Hshape |].
        intros e' He' Hretry. f_equal. now apply (Hlast e').
Qed.

(** The always-failing run written out: an attempt, then a wait and an
    attempt for each retry. *)
Lemma exhaustedFrom_interleaved (remaining k : nat) :
  exhaustedFrom cfg remaining (Z.of_nat (S k))
  = flat_map (fun i => [Sleep (getBackoffDelay cfg (Z.of_nat i)); Attempt])
      (seq k (S remaining)).
Proof.
  revert k. induction remaining as [|remaining IH]; intros k;
    cbn [exhaustedFrom];
    (destruct (Z.ltb_spec 0 (Z.of_nat (S k))); [|lia]);
    replace (Z.of_nat (S k) - 1) with (Z.of_nat k) by lia.
  - reflexivity.
  - replace (Z.of_nat (S k) + 1) with (Z.of_nat (S (S k))) by lia.
    rewrite IH. reflexivity.
Qed.

Lemma exhausted_interleaved (remaining : nat) :
  exhaustedFrom cfg remaining 0
  = Attempt
    :: flat_map (fun i => [Sleep (getBackoffDelay cfg (Z.of_nat i)); Attempt])
         (seq 0 remaining).
Proof.
  destruct remaining as [|remaining]; [reflexivity|].
  cbn [exhaustedFrom]. change (0 <? 0) with false. cbn [app]. f_equal.
  change (0 + 1) with (Z.of_nat 1). apply exhaustedFrom_interleaved.
Qed.

(** X8.  For every operation that returns a value or rejects with an
    error object, what [executeWithRetry] does is an attempt, then for
    k = 1 .. retries a wait of [getBackoffDelay(k - 1)] followed by the
    k-th retry, and nothing else, for some [retries <= maxRetries].  So
    the operation runs at least once and at most [maxRetries + 1] times,
    no wait is longer than [maxDelay], and when the loop throws an error
    whose code is neither permission-denied nor unauthenticated it has
    made all [maxRetries + 1] attempts. *)
Theorem executeWithRetry_bounded (operation : W -> outcome A * W) (w : W) :
  exists retries,
    (retries <= maxRetries cfg)%nat
    /\ snd (executeWithRetry cfg operation w)
       = Attempt
         :: flat_map (fun k => [Sleep (getBackoffDelay cfg (Z.of_nat k));
                                Attempt])
              (seq 0 retries)
    /\ count_occ event_eq_dec (snd (executeWithRetry cfg operation w)) Attempt
       = S retries
    /\ delays (snd (executeWithRetry cfg operation w))
       = map (fun k => getBackoffDelay cfg (Z.of_nat k)) (seq 0 retries)
    /\ Forall (fun ms => ms <= maxDelay cfg)
         (delays (snd (executeWithRetry cfg operation w)))
    /\ (forall e,
           fst (fst (executeWithRetry cfg operation w)) = Thrown e ->
           nonRetryable e = false -> retries = maxRetries cfg).
Proof.
  unfold executeWithRetry.
  destruct (retryFrom_shape operation (maxRetries cfg) 0 w)
    as [retries [Hle [Hshape Hlast]]].
  exists retries. rewrite Hshape.
  split; [exact Hle|]. split; [apply exhausted_interleaved|].
  split; [apply count_exhaustedFrom|].
  split; [apply delays_exhausted|]. split; [|exact Hlast].
  rewrite delays_exhausted, Forall_map. apply Forall_forall.
  intros k _. apply Z.le_min_r.
Qed.

(** X9.  An operation that fails [failures] times with errors the loop
    retries, [failures] being at most [maxRetries], and then returns a
    value, makes [executeWithRetry] return that value after
    [failures + 1] attempts, with the waits of the first [failures]
    retries. *)
Theorem executeWithRetry_recovers (operation : W -> outcome A * W)
    (errorOf : nat -> jsError) (after : W -> W) (failures : nat)
    (w0 w' : W) (v : A) :
  (failures <= maxRetries cfg)%nat ->
  (forall i, (i < failures)%nat ->
             operation (Nat.iter i after w0)
             = (Thrown (errorOf i), Nat.iter (S i) after w0)
             /\ nonRetryable (errorOf i) = false) ->
  operation (Nat.iter failures after w0) = (Returned v, w') ->
  executeWithRetry cfg operation w0
  = (Returned v, w', exhaustedFrom cfg failures 0).
Proof.
  unfold executeWithRetry. generalize (maxRetries cfg) as remaining.
  generalize 0 as attempt. revert errorOf w0.
  induction failures as [|failures IH];
    intros errorOf w0 attempt remaining Hle Hfail Hok.
  - simpl in Hok.
    destruct remaining; cbn [retryFrom exhaustedFrom]; now rewrite Hok.
  - destruct remaining as [|remaining]; [lia|].
    destruct (Hfail 0%nat ltac:(lia)) as [H0 Hr0]. simpl in H0.
    cbn [retryFrom]. rewrite H0, Hr0.
    rewrite (IH (fun i => errorOf (S i)) (after w0) (attempt + 1) remaining).
    + now rewrite exhaustedFrom_succ.
    + lia.
    + intros i Hi. destruct (Hfail (S i) ltac:(lia)) as [Hi1 Hi2].
      rewrite <- !Nat.iter_succ_r. now split.
    + now rewrite <- Nat.iter_succ_r.
Qed.

(** X10.  With a non-negative initial delay and a multiplier of at least
    one the waits never shrink from one retry to the next, and no wait
    exceeds [maxDelay]. *)
Theorem getBackoffDelay_monotone (a b : Z) :
  0 <= initialDelay cfg -> 1 <= backoffMultiplier cfg -> 0 <= a <= b ->
  getBackoffDelay cfg a <= getBackoffDelay cfg b <= maxDelay cfg.
Proof.
  intros Hi Hm Hab. unfold getBackoffDelay. split; [|apply Z.le_min_r].
  apply Z.min_le_compat_r. apply Z.mul_le_mono_nonneg_l; [exact Hi|].
  apply Z.pow_le_mono_r; lia.
Qed.

Lemma retryOperationFrom_agrees (operation : W -> outcome A * W)
    (remaining : nat) (attempt : Z) (lastError : rejection) (w : W) :
  retryOperationFrom cfg None (asOperation operation) remaining attempt
    lastError w
  = asRun (retryFrom cfg operation remaining attempt w).
Proof.
  revert w attempt lastError.
  induction remaining as [|remaining IH]; intros w attempt lastError;
    cbn [retryOperationFrom retryFrom]; unfold getBackoffDelay, asOperation;
    destruct (0 <? attempt); destruct (operation w) as [[r|e] w'];
    cbn [asAttempted asRun categorizeRejection]; try reflexivity;
    (destruct (nonRetryable e) eqn:E;
     [apply categorizeError_permission in E; rewrite E; reflexivity|]);
    (destruct (categorizeError (Some e)) eqn:C;
     try (apply categorizeError_permission in C; congruence));
    try reflexivity;
    fold (asOperation operation); rewrite IH;
    destruct (retryFrom cfg operation remaining (attempt + 1) w')
      as [[o w''] t];
    cbn [asRun]; now rewrite <- ?app_assoc.
Qed.

(** X11.  On an operation that rejects with error objects whose code is
    missing or a string, and without an [onRetry] callback,
    [retryOperation] of the error handler does what [executeWithRetry] of
    the Firestore service does: the same attempts, the same waits, the
    same outcome; the errors of the permission category are the two codes
    [executeWithRetry] does not retry.  On an error whose code is truthy
    and not a string the agreement ends: [categorizeError] throws inside
    the [catch], and [retryOperation] rejects with that [TypeError] after
    one attempt, whatever the number of retries allowed. *)
Theorem retryOperation_agrees (operation : W -> outcome A * W) (w : W) :
  retryOperation cfg None (asOperation operation) w
  = asRun (executeWithRetry cfg operation w)
  /\ (forall e,
         categorizeRejection (ErrorObject e) = Done PERMISSION
         <-> nonRetryable e = true)
  /\ (forall (odd : W -> attempted A * W)
             (onRetry : option (Z -> rejection -> W -> attempted unit * W))
             (message : option string) (w' : W),
         odd w = (Raised (OddCode message), w') ->
         retryOperation cfg onRetry odd w
         = (Raised (ErrorObject notAFunction), w', [Attempt])).
Proof.
  split; [|split].
  - apply retryOperationFrom_agrees.
  - intros e. cbn [categorizeRejection]. split.
    + intros [= H]. now apply categorizeError_permission.
    + intros H. apply categorizeError_permission in H. now rewrite H.
  - intros odd onRetry message w' Hodd. unfold retryOperation.
    destruct (maxRetries cfg); cbn [retryOperationFrom];
      change (0 <? 0) with false; cbn iota; rewrite Hodd; reflexivity.
Qed.

(** A rejection with [null] is retried by the second loop like any
    unclassified error, and thrown as it is in the end. *)
Example retryOperation_null_rejection :
  retryOperation RETRY_CONFIG None
    (fun reads : nat => (@Raised unit Nullish, S reads)) 0%nat
  = (Raised Nullish, 4%nat,
     [Attempt; Sleep 1000; Attempt; Sleep 2000; Attempt; Sleep 4000; Attempt]).
Proof. reflexivity. Qed.

End RetryMore.

Lemma executeWithRetry_recovers_witness :
  executeWithRetry RETRY_CONFIG (flakyRead 2) 0%nat
  = (Returned cachedKitchen, 3%nat,
     [Attempt; Sleep 1000; Attempt; Sleep 2000; Attempt]).
Proof.
  apply (executeWithRetry_recovers RETRY_CONFIG (flakyRead 2)
           (fun _ => unavailableError) S 2%nat 0%nat 3%nat cachedKitchen).
  - simpl. lia.
  - intros [|[|i]] Hi; [split; reflexivity | split; reflexivity | lia].
  - reflexivity.
Defined.

Lemma getBackoffDelay_monotone_witness :
  getBackoffDelay RETRY_CONFIG 2 <= getBackoffDelay RETRY_CONFIG 5
  <= maxDelay RETRY_CONFIG.
Proof.
  apply (getBackoffDelay_monotone RETRY_CONFIG 2 5); simpl; lia.
Defined.

Section FetchMore.

Context {W : Type}.
Variable getDocument : string -> string -> outcome (docRef W).

(** X12.  [fetchDocument] reports [fromCache] only for a document it read
    from the cache after the server read failed with an offline error; an
    answer has an error message exactly when it is no success. *)
Theorem fetchDocument_fromCache_only_offline
    (collectionName documentId : string) (w : W) :
  fromCache (fst (fst (fetchDocument getDocument collectionName documentId w)))
  = true ->
  exists ref serverError w1 events cachedSnapshot,
    getDocument collectionName documentId = Returned ref
    /\ executeWithRetry RETRY_CONFIG (getServer ref) w
       = (Thrown serverError, w1, events)
    /\ isOfflineError serverError = true
    /\ fst (getCache ref w1) = Returned cachedSnapshot
    /\ exists_ cachedSnapshot = true
    /\ fetchDocument getDocument collectionName documentId w
       = ({| success := true; data := snapshotData cachedSnapshot;
             error := None; fromCache := true |},
          snd (getCache ref w1), events ++ [CacheRead]).
Proof.
  unfold fetchDocument.
  destruct (getDocument collectionName documentId) as [ref|e];
    [|discriminate].
  destruct (executeWithRetry RETRY_CONFIG (getServer ref) w)
    as [[[snap|serverError] w1] events] eqn:Server.
  - destruct (exists_ snap); discriminate.
  - destruct (isOfflineError serverError) eqn:Off; [|discriminate].
    destruct (getCache ref w1) as [[cached|cacheError] w2] eqn:C;
      [|discriminate].
    destruct (exists_ cached) eqn:Ex; [|discriminate].
    intros _. exists ref, serverError, w1, events, cached.
    rewrite C. repeat split; try reflexivity; assumption.
Qed.

End FetchMore.

Lemma fetchDocument_fromCache_only_offline_witness :
  exists ref serverError w1 events cachedSnapshot,
    Returned offlineRef = Returned ref
    /\ executeWithRetry RETRY_CONFIG (getServer ref) 0%nat
       = (Thrown serverError, w1, events)
    /\ isOfflineError serverError = true
    /\ fst (getCache ref w1) = Returned cachedSnapshot
    /\ exists_ cachedSnapshot = true
    /\ fetchDocument (fun _ _ => Returned offlineRef) "userProjects" "alice"
         0%nat
       = ({| success := true; data := snapshotData cachedSnapshot;
             error := None; fromCache := true |},
          snd (getCache ref w1), events ++ [CacheRead]).
Proof.
  apply (fetchDocument_fromCache_only_offline
           (fun _ _ => Returned offlineRef) "userProjects" "alice" 0%nat).
  reflexivity.
Defined.

(* ================================================================== *)
(** * Invariants of the sync coordinator *)

Lemma resolved_app (l1 l2 : list observation) :
  resolved (l1 ++ l2) = resolved l1 ++ resolved l2.
Proof.
  induction l1 as [|o l1 IH]; [reflexivity|].
  destruct o; cbn [app resolved]; now rewrite IH.
Qed.

Lemma savesStarted_app (l1 l2 : list observation) :
  savesStarted (l1 ++ l2) = savesStarted l1 ++ savesStarted l2.
Proof.
  induction l1 as [|o l1 IH]; [reflexivity|].
  destruct o; cbn [app savesStarted]; now rewrite IH.
Qed.

Lemma takeSave_length (who : nat) (saves : list pendingSave)
    (p : pendingSave) (rest : list pendingSave) :
  takeSave who saves = Some (p, rest) ->
  List.length saves = S (List.length rest).
Proof.
  revert p rest. induction saves as [|q saves IH]; intros p rest;
    cbn [takeSave]; [discriminate|].
  destruct (Nat.eqb (saveCaller q) who).
  - intros [= <- <-]. reflexivity.
  - destruct (takeSave who saves) as [[p' rest']|]; [|discriminate].
    intros [= <- <-]. cbn [List.length]. f_equal. now apply (IH p').
Qed.

Ltac tally :=
  rewrite ?resolved_app, ?savesStarted_app, ?length_app;
  cbn [resolved savesStarted List.length app]; try lia.

Section CoordinatorMore.

Lemma syncToCloud_conserves (r : request) (m : machine) :
  (answered (syncToCloud r m) + waiting (syncToCloud r m)
   = answered m + waiting m + 1)%nat.
Proof.
  destruct m as [[time hash busy sub auto queue] auth uid store full
                   pending flying seen].
  destruct auth, busy; frameLog; tally.
Qed.

Lemma resume_conserves (p : pendingSave) (result : FirestoreResult) (now : Z)
    (m : machine) :
  (answered (resume p result now m) + waiting (resume p result now m)
   = answered m + waiting m + 1)%nat.
Proof.
  destruct m as [[time hash busy sub auto queue] auth uid store full
                   pending flying seen].
  destruct result as [ok d e c], p as [pc pp ph].
  destruct ok, full, queue; frameLog; tally.
Qed.

Lemma step_conserves (m : machine) (i : input) :
  i <> ClearSyncState ->
  (answered (step m i) + waiting (step m i)
   = answered m + waiting m + (if isUpload i then 1 else 0))%nat.
Proof.
  intros Hi.
  destruct i as [who projects | who result now | | projects c h now
                | onUpdate | | | signed user];
    try contradiction; cbn [isUpload step].
  - apply syncToCloud_conserves.
  - destruct (takeSave who (inFlight m)) as [[p rest]|] eqn:T; [|lia].
    rewrite resume_conserves. apply takeSave_length in T.
    destruct m as [[time hash busy sub auto queue] auth uid store full
                     pending flying seen].
    frameLog. cbn [inFlight] in T. lia.
  - destruct (timers m) as [|next rest] eqn:T; [lia|].
    rewrite syncToCloud_conserves.
    destruct m as [[time hash busy sub auto queue] auth uid store full
                     pending flying seen].
    cbn [timers] in T. subst pending. frameLog. cbn [List.length]. lia.
  - destruct m as [[time hash busy sub auto queue] auth uid store full
                     pending flying seen].
    destruct sub as [onUpdate|]; frameLog; [|lia].
    destruct busy; frameLog; [lia|].
    destruct (match hash with
              | Some h => (_ =? h)%string
              | None => false
              end); [lia|].
    destruct onUpdate, full; frameLog; tally.
  - destruct m as [[time hash busy sub auto queue] auth uid store full
                     pending flying seen].
    destruct auth, sub; frameLog; lia.
  - destruct m as [[time hash busy sub auto queue] auth uid store full
                     pending flying seen].
    frameLog. lia.
  - destruct m as [[time hash busy sub auto queue] auth uid store full
                     pending flying seen].
    frameLog. lia.
Qed.

(** X13.  As long as [clearSyncState] is not called no upload request is
    lost: at every moment the promises resolved so far and the requests
    queued, waiting for their timer or being saved add up to the requests
    made. *)
Theorem uploads_conserved (inputs : list input) (m : machine) :
  Forall (fun i => i <> ClearSyncState) inputs ->
  (answered (run m inputs) + waiting (run m inputs)
   = answered m + waiting m + List.length (filter isUpload inputs))%nat.
Proof.
  revert m. unfold run.
  induction inputs as [|i rest IH]; cbn [fold_left filter]; intros m Hall.
  - cbn [List.length]. lia.
  - apply Forall_cons_iff in Hall as [Hi Hrest].
    rewrite (IH (step m i) Hrest), (step_conserves m i Hi).
    destruct (isUpload i); cbn [List.length]; lia.
Qed.

Lemma step_signed_out (m : machine) (i : input) :
  authenticated m = false -> signsIn i = false ->
  authenticated (step m i) = false
  /\ savesStarted (log (step m i)) = savesStarted (log m)
  /\ (realtimeUnsubscribe (state m) = None ->
      realtimeUnsubscribe (state (step m i)) = None).
Proof.
  intros Hauth Hi.
  destruct m as [[time hash busy sub auto queue] auth uid store full
                   pending flying seen].
  cbn [authenticated] in Hauth. subst auth.
  destruct i; frameLog.
  - split; [reflexivity|]. split; [tally; now rewrite ?app_nil_r | auto].
  - destruct (takeSave who flying) as [[[pc pp ph] rest]|]; [|auto].
    destruct result as [ok d e c].
    destruct ok, full, queue; frameLog;
      (split; [reflexivity|]); (split; [tally; now rewrite ?app_nil_r | auto]).
  - destruct pending as [|next rest]; frameLog; [auto|].
    split; [reflexivity|]. split; [tally; now rewrite ?app_nil_r | auto].
  - destruct sub as [onUpdate|]; frameLog; [|auto].
    destruct busy; frameLog; [auto|].
    destruct (match hash with
              | Some h => (_ =? h)%string
              | None => false
              end); [auto|].
    destruct onUpdate, full; frameLog;
      (split; [reflexivity|]);
      (split; [tally; now rewrite ?app_nil_r | discriminate]).
  - auto.
  - auto.
  - auto.
  - cbn [signsIn] in Hi. destruct isAuthenticated; [discriminate|auto].
Qed.

(** X14.  While no user is signed in the coordinator starts no save and
    no realtime subscription, whatever is asked of it. *)
Theorem signed_out_starts_nothing (inputs : list input) (m : machine) :
  authenticated m = false ->
  Forall (fun i => signsIn i = false) inputs ->
  savesStarted (log (run m inputs)) = savesStarted (log m)
  /\ (realtimeUnsubscribe (state m) = None ->
      realtimeUnsubscribe (state (run m inputs)) = None).
Proof.
  revert m. unfold run.
  induction inputs as [|i rest IH]; cbn [fold_left]; intros m Hauth Hall.
  - auto.
  - apply Forall_cons_iff in Hall as [Hi Hrest].
    destruct (step_signed_out m i Hauth Hi) as [Hauth' [Hlog Hsub]].
    destruct (IH (step m i) Hauth' Hrest) as [Hlog' Hsub'].
    split; [congruence | auto].
Qed.

(** The handler drops what it has just been through. *)
Lemma snapshot_twice (m : machine) (projects : list object)
    (fromCache hasPendingWrites fromCache' hasPendingWrites' : bool)
    (now now' : Z) :
  step (step m (Snapshot projects fromCache hasPendingWrites now))
    (Snapshot projects fromCache' hasPendingWrites' now')
  = step m (Snapshot projects fromCache hasPendingWrites now).
Proof.
  destruct m as [[time hash busy sub auto queue] auth uid store full
                   pending flying seen].
  destruct sub as [onUpdate|]; [|reflexivity].
  destruct busy; [reflexivity|]. frameLog.
  destruct (match hash with
            | Some h => (calculateHash (Some projects) =? h)%string
            | None => false
            end) eqn:Same.
  - frameLog. now rewrite Same.
  - destruct onUpdate, full; frameLog; now rewrite String.eqb_refl.
Qed.

(** X15.  A snapshot delivered again right after its delivery, any
    number of times in a row and whatever the metadata and the times of
    the repeats, has no further effect: the machine stays as the first
    delivery left it. *)
Theorem snapshot_redelivery (m : machine) (projects : list object)
    (fromCache hasPendingWrites : bool) (now : Z)
    (repeats : list (bool * bool * Z)) :
  run (step m (Snapshot projects fromCache hasPendingWrites now))
    (map (fun '(c, h, t) => Snapshot projects c h t) repeats)
  = step m (Snapshot projects fromCache hasPendingWrites now).
Proof.
  unfold run.
  induction repeats as [|[[c h] t] rest IH]; cbn [map fold_left];
    [reflexivity|].
  now rewrite snapshot_twice.
Qed.

Lemma saveDiscipline_app (l1 l2 : list observation) :
  saveDiscipline (l1 ++ l2) = fold_left scanStep l2 (saveDiscipline l1).
Proof. unfold saveDiscipline. apply fold_left_app. Qed.

Lemma step_discipline (m : machine) (i : input) :
  singleFlight m ->
  saveDiscipline (log m) = Some (syncInProgress (state m)) ->
  i <> ClearSyncState ->
  saveDiscipline (log (step m i)) = Some (syncInProgress (state (step m i))).
Proof.
  intros H Hlog Hi.
  assert (Hsync : forall r m',
             saveDiscipline (log m') = Some (syncInProgress (state m')) ->
             saveDiscipline (log (syncToCloud r m'))
             = Some (syncInProgress (state (syncToCloud r m')))).
  { intros r [[time hash busy sub auto queue] auth uid store full
                pending flying seen] H'.
    cbn [log state syncInProgress] in H'.
    destruct auth, busy; frameLog; rewrite ?saveDiscipline_app, ?H';
      reflexivity. }
  destruct i; try contradiction; try exact Hlog.
  - now apply Hsync.
  - destruct m as [[time hash busy sub auto queue] auth uid store full
                     pending flying seen].
    unfold singleFlight in H. cbn in H. cbn [log state syncInProgress] in Hlog.
    destruct H as [[-> [[pc pp ph] ->]] | [-> ->]];
      cbn [step inFlight takeSave saveCaller]; [|exact Hlog].
    destruct (Nat.eqb pc who); [|exact Hlog].
    destruct result as [[] d e c]; destruct full, queue; frameLog;
      rewrite ?saveDiscipline_app, ?Hlog; reflexivity.
  - cbn [step]. destruct (timers m) as [|next rest] eqn:T; [exact Hlog|].
    apply Hsync.
    destruct m as [[time hash busy sub auto queue] auth uid store full
                     pending flying seen].
    exact Hlog.
  - destruct m as [[time hash busy sub auto queue] auth uid store full
                     pending flying seen].
    cbn [log state syncInProgress] in Hlog.
    destruct sub as [onUpdate|]; [|exact Hlog].
    destruct busy; [exact Hlog|]. frameLog.
    destruct (match hash with
              | Some h => (_ =? h)%string
              | None => false
              end); [exact Hlog|].
    destruct onUpdate, full; frameLog;
      rewrite ?saveDiscipline_app, ?Hlog; reflexivity.
  - destruct m as [[time hash busy sub auto queue] auth uid store full
                     pending flying seen].
    cbn [log state syncInProgress] in Hlog.
    destruct auth, sub; exact Hlog.
Qed.

(** X16.  As long as [clearSyncState] is not called, saves follow one
    another in the record of what the coordinator did: every save starts
    when none is under way, every end of a save closes the one under way,
    and a save is under way exactly while [syncInProgress] is set. *)
Theorem saves_never_overlap (inputs : list input) (m : machine) :
  singleFlight m ->
  saveDiscipline (log m) = Some (syncInProgress (state m)) ->
  Forall (fun i => i <> ClearSyncState) inputs ->
  saveDiscipline (log (run m inputs))
  = Some (syncInProgress (state (run m inputs))).
Proof.
  revert m. unfold run.
  induction inputs as [|i rest IH]; cbn [fold_left]; intros m H Hlog Hall.
  - exact Hlog.
  - apply Forall_cons_iff in Hall as [Hi Hrest].
    apply IH; [now apply step_singleFlight | now apply step_discipline
              | exact Hrest].
Qed.

End CoordinatorMore.

Lemma uploads_conserved_witness :
  (answered (run (signedIn "alice")
               [Upload 1%nat [kitchenLocal]; Upload 2%nat [kitchenEdited];
                SaveSettled 1%nat saved 1000; TimerFired])
   + waiting (run (signedIn "alice")
                [Upload 1%nat [kitchenLocal]; Upload 2%nat [kitchenEdited];
                 SaveSettled 1%nat saved 1000; TimerFired])
   = answered (signedIn "alice") + waiting (signedIn "alice") + 2)%nat.
Proof.
  apply (uploads_conserved
           [Upload 1%nat [kitchenLocal]; Upload 2%nat [kitchenEdited];
            SaveSettled 1%nat saved 1000; TimerFired] (signedIn "alice")).
  repeat constructor; discriminate.
Defined.

Lemma signed_out_starts_nothing_witness :
  savesStarted
    (log (run (withSession (signedIn "alice") false None)
            [Upload 1%nat [kitchenLocal]; StartRealtime true; TimerFired]))
  = []
  /\ (realtimeUnsubscribe (state (withSession (signedIn "alice") false None))
      = None ->
      realtimeUnsubscribe
        (state (run (withSession (signedIn "alice") false None)
                  [Upload 1%nat [kitchenLocal]; StartRealtime true;
                   TimerFired]))
      = None).
Proof.
  apply (signed_out_starts_nothing
           [Upload 1%nat [kitchenLocal]; StartRealtime true; TimerFired]
           (withSession (signedIn "alice") false None)).
  - reflexivity.
  - repeat constructor.
Defined.

Lemma saves_never_overlap_witness :
  saveDiscipline
    (log (run (signedIn "alice")
            [Upload 1%nat [kitchenLocal]; Upload 2%nat [kitchenEdited];
             SaveSettled 1%nat saved 1000; TimerFired]))
  = Some (syncInProgress
            (state (run (signedIn "alice")
                      [Upload 1%nat [kitchenLocal];
                       Upload 2%nat [kitchenEdited];
                       SaveSettled 1%nat saved 1000; TimerFired]))).
Proof.
  apply (saves_never_overlap
           [Upload 1%nat [kitchenLocal]; Upload 2%nat [kitchenEdited];
            SaveSettled 1%nat saved 1000; TimerFired] (signedIn "alice")).
  - right. split; reflexivity.
  - reflexivity.
  - repeat constructor; discriminate.
Defined.

(* ================================================================== *)
(** * Local storage, messages and the logger *)

Section StorageFacts.

Lemma append_inv_head (p a b : string) :
  (p ++ a)%string = (p ++ b)%string -> a = b.
Proof.
  induction p as [|c p IH]; cbn [append]; [auto|].
  intros [= H]. now apply IH.
Qed.

Lemma append_eq_self (p a : string) :
  (p ++ a)%string = p -> a = EmptyString.
Proof.
  induction p as [|c p IH]; cbn [append]; [auto|].
  intros [= H]. now apply IH.
Qed.

Lemma getStorageKey_owner (m m' : machine) :
  getStorageKey m = getStorageKey m' ->
  keyOwner (userId m) = keyOwner (userId m').
Proof.
  unfold getStorageKey, keyOwner.
  destruct (userId m) as [a|], (userId m') as [b|];
    try destruct (a =? "")%string eqn:Ea;
    try destruct (b =? "")%string eqn:Eb;
    try reflexivity; intros H.
  - change ("constructionEstimatorProjects:" ++ b)%string
      with ("constructionEstimatorProjects" ++ String ":" b)%string in H.
    symmetry in H. apply append_eq_self in H. discriminate.
  - change ("constructionEstimatorProjects:" ++ a)%string
      with ("constructionEstimatorProjects" ++ String ":" a)%string in H.
    apply append_eq_self in H. discriminate.
  - apply append_inv_head in H. now subst.
  - change ("constructionEstimatorProjects:" ++ a)%string
      with ("constructionEstimatorProjects" ++ String ":" a)%string in H.
    apply append_eq_self in H. discriminate.
  - change ("constructionEstimatorProjects:" ++ b)%string
      with ("constructionEstimatorProjects" ++ String ":" b)%string in H.
    symmetry in H. apply append_eq_self in H. discriminate.
Qed.

Lemma getItem_setItem_same (store : list (string * string))
    (key item : string) :
  getItem (setItem store key item) key = Some item.
Proof.
  induction store as [|[k v] store IH]; cbn [setItem getItem].
  - now rewrite String.eqb_refl.
  - destruct (k =? key)%string eqn:E; cbn [getItem]; now rewrite E.
Qed.

Lemma getItem_setItem_other (store : list (string * string))
    (key other item : string) :
  key <> other ->
  getItem (setItem store key item) other = getItem store other.
Proof.
  intros Hne. induction store as [|[k v] store IH]; cbn [setItem getItem].
  - apply String.eqb_neq in Hne. now rewrite Hne.
  - destruct (k =? key)%string eqn:E; cbn [getItem].
    + apply String.eqb_eq in E. subst k.
      apply String.eqb_neq in Hne. now rewrite Hne.
    + now rewrite IH.
Qed.

(** X17.  [saveLocalProjects] writes under a key of the signed-in user
    alone: what is stored for any other user, or for no user, is read
    back unchanged, and unless the quota is exceeded the key of the
    current user then holds the JSON text of the collection. *)
Theorem saveLocalProjects_isolated (m other : machine)
    (projects : list object) :
  keyOwner (userId m) <> keyOwner (userId other) ->
  getItem (localStorage (saveLocalProjects m projects)) (getStorageKey other)
  = getItem (localStorage m) (getStorageKey other)
  /\ (quotaExceeded m = false ->
      getItem (localStorage (saveLocalProjects m projects)) (getStorageKey m)
      = Some (JSON_stringify (VArr (map VObj projects)))).
Proof.
  intros Hne.
  assert (Hkey : getStorageKey m <> getStorageKey other).
  { intros H. apply Hne. now apply getStorageKey_owner. }
  destruct m as [st auth uid store full pending flying seen].
  unfold saveLocalProjects. cbn [observe quotaExceeded localStorage].
  change (getStorageKey {| state := st; authenticated := auth; userId := uid;
                           localStorage := store; quotaExceeded := full;
                           timers := pending; inFlight := flying;
                           log := seen |}) with
    (getStorageKey (mkMachine st auth uid store full pending flying seen))
    in *.
  destruct full; cbn [withStorage localStorage observe].
  - split; [reflexivity | discriminate].
  - split; [now apply getItem_setItem_other|].
    intros _. apply getItem_setItem_same.
Qed.

End StorageFacts.

Lemma saveLocalProjects_isolated_witness :
  getItem (localStorage (saveLocalProjects (signedIn "alice") [kitchenLocal]))
    (getStorageKey (signedIn "bob"))
  = getItem (localStorage (signedIn "alice")) (getStorageKey (signedIn "bob"))
  /\ (quotaExceeded (signedIn "alice") = false ->
      getItem
        (localStorage (saveLocalProjects (signedIn "alice") [kitchenLocal]))
        (getStorageKey (signedIn "alice"))
      = Some (JSON_stringify (VArr (map VObj [kitchenLocal])))).
Proof.
  apply (saveLocalProjects_isolated (signedIn "alice") (signedIn "bob")
           [kitchenLocal]).
  simpl. discriminate.
Defined.

Section MessageFacts.

Lemma categorizeError_code (e1 e2 : jsError) :
  code e1 = code e2 ->
  categorizeError (Some e1) = categorizeError (Some e2).
Proof. intros H. unfold categorizeError. now rewrite H. Qed.

(** X18.  For an error that [categorizeError] classifies, the message
    shown to the user depends on the error's code alone: the text the
    provider put into the error is never shown. *)
Theorem classified_error_hides_provider_text (e1 e2 : jsError) :
  categorizeError (Some e1) <> UNKNOWN ->
  code e1 = code e2 ->
  getUserFriendlyError (Some e1) = getUserFriendlyError (Some e2).
Proof.
  intros Hclass Hcode. unfold getUserFriendlyError.
  rewrite <- (categorizeError_code e1 e2 Hcode), <- Hcode.
  now destruct (categorizeError (Some e1)).
Qed.

(** X19.  [getUserFriendlyError] never returns the empty text, whatever
    the error: not for a missing error, not for one without code or
    message. *)
Theorem getUserFriendlyError_nonempty (error : option jsError) :
  getUserFriendlyError error <> EmptyString.
Proof.
  unfold getUserFriendlyError. destruct error as [e|]; [|discriminate].
  destruct (categorizeError (Some e));
    repeat match goal with
           | |- context [if (?a =? ?b)%string then _ else _] =>
               destruct (a =? b)%string eqn:?
           end; try discriminate.
  destruct (message e) as [m|]; [|discriminate].
  destruct (m =? "")%string eqn:E; [discriminate|].
  now apply String.eqb_neq.
Qed.

(** The default of the [switch] over the data codes is never taken: the
    three codes of the category have a message each. *)
Lemma data_error_messages (e : jsError) :
  categorizeError (Some e) = DATA ->
  In (getUserFriendlyError (Some e))
    ["The requested data was not found."; "This data already exists.";
     "Invalid data provided."]%string.
Proof.
  unfold getUserFriendlyError. intros H. rewrite H.
  unfold categorizeError in H. destruct (code e) as [c|]; [|discriminate].
  cbn [orEmpty].
  destruct (c =? "")%string; [discriminate|].
  destruct (prefix "auth/" c); [discriminate|].
  destruct ((c =? "unavailable")%string || (c =? "deadline-exceeded")%string
            || (c =? "cancelled")%string || includes c "network");
    [discriminate|].
  destruct ((c =? "permission-denied")%string
            || (c =? "unauthenticated")%string); [discriminate|].
  destruct (c =? "not-found")%string; [now left|].
  destruct (c =? "already-exists")%string; [right; now left|].
  destruct (c =? "invalid-argument")%string; [right; right; now left|].
  discriminate.
Qed.

End MessageFacts.

Lemma classified_error_hides_provider_text_witness :
  getUserFriendlyError (Some unavailableError)
  = getUserFriendlyError
      (Some {| code := Some "unavailable"; message := Some "ECONNRESET" |}).
Proof.
  apply (classified_error_hides_provider_text unavailableError
           {| code := Some "unavailable"; message := Some "ECONNRESET" |}).
  - discriminate.
  - reflexivity.
Defined.

Section LoggerFacts.

Context {A : Type}.

Lemma lastN_short (n : nat) (l : list A) :
  (List.length l <= n)%nat -> lastN n l = l.
Proof.
  intros H. unfold lastN.
  replace (List.length l - n)%nat with 0%nat by lia. reflexivity.
Qed.

Lemma lastN_length (n : nat) (l : list A) :
  (List.length (lastN n l) <= n)%nat.
Proof. unfold lastN. rewrite length_skipn. lia. Qed.

Lemma lastN_app (n : nat) (a b : list A) :
  lastN n (lastN n a ++ b) = lastN n (a ++ b).
Proof.
  destruct (Nat.le_gt_cases (List.length a) n) as [Hle|Hgt].
  - now rewrite (lastN_short n a Hle).
  - unfold lastN. rewrite !length_app, length_skipn, !skipn_app.
    rewrite skipn_skipn, length_skipn. f_equal; f_equal; lia.
Qed.

End LoggerFacts.

Section LoggerRuns.

Lemma pushLimited_lastN (stored : list logEntry) (entry : logEntry) :
  (List.length stored <= maxStoredLogs)%nat ->
  pushLimited stored entry = lastN maxStoredLogs (stored ++ [entry]).
Proof.
  intros H. unfold pushLimited, lastN. rewrite length_app. cbn [List.length].
  destruct (Nat.ltb_spec maxStoredLogs (List.length stored + 1)) as [Hgt|Hle].
  - replace (List.length stored + 1 - maxStoredLogs)%nat with 1%nat by lia.
    reflexivity.
  - replace (List.length stored + 1 - maxStoredLogs)%nat with 0%nat by lia.
    reflexivity.
Qed.

(** X20.  With storage switched on, the logger keeps the last hundred of
    the entries at or above the minimum level, in the order of the calls,
    and never more than a hundred. *)
Theorem storedLogs_most_recent (calls : list logCall) (l : logger) :
  enableStorage l = true ->
  (List.length (storedLogs l) <= maxStoredLogs)%nat ->
  storedLogs (logAll calls l)
  = lastN maxStoredLogs
      (storedLogs l
       ++ map entryOfCall
            (filter (fun c => negb (callLevel c <? minLevel l)) calls))
  /\ (List.length (storedLogs (logAll calls l)) <= maxStoredLogs)%nat.
Proof.
  intros Hon Hlen.
  assert (Heq : storedLogs (logAll calls l)
                = lastN maxStoredLogs
                    (storedLogs l
                     ++ map entryOfCall
                          (filter (fun c => negb (callLevel c <? minLevel l))
                             calls))).
  { revert l Hon Hlen. unfold logAll.
    induction calls as [|c calls IH]; intros l Hon Hlen;
      cbn [fold_left filter map].
    - rewrite app_nil_r. symmetry. now apply lastN_short.
    - unfold logAt at 2. destruct (callLevel c <? minLevel l) eqn:Low;
        cbn [negb]; [now apply IH|].
      rewrite IH; cbn [enableStorage storedLogs minLevel]; rewrite ?Hon;
        [|reflexivity|].
      + rewrite (pushLimited_lastN _ _ Hlen), lastN_app.
        cbn [map]. now rewrite <- app_assoc.
      + rewrite (pushLimited_lastN _ _ Hlen). apply lastN_length. }
  split; [exact Heq|]. rewrite Heq. apply lastN_length.
Qed.

End LoggerRuns.

Lemma storedLogs_most_recent_witness :
  storedLogs
    (logAll [mkLogCall 0 "Retry attempt 1/3 after 1000ms" VNull
               "2024-01-02T09:30:00.000Z";
             mkLogCall 3 "Sync failed" VNull "2024-01-02T09:30:01.000Z"]
       {| minLevel := 1; enableStorage := true; storedLogs := [];
          console := [] |})
  = [{| timestamp := "2024-01-02T09:30:01.000Z"; levelName := Some "ERROR";
        logMessage := "Sync failed"; logData := VNull |}].
Proof.
  apply (proj1 (storedLogs_most_recent
                  [mkLogCall 0 "Retry attempt 1/3 after 1000ms" VNull
                     "2024-01-02T09:30:00.000Z";
                   mkLogCall 3 "Sync failed" VNull "2024-01-02T09:30:01.000Z"]
                  {| minLevel := 1; enableStorage := true; storedLogs := [];
                     console := [] |} eq_refl (Nat.le_0_l _))).
Defined.

(* ================================================================== *)
(** * Stability of latest_wins *)

Section Idempotence.

Variable Date_parse : string -> option Z.
Variable runtime_gt : value -> value -> bool.

Local Abbreviation merge := (mergeProjects Date_parse runtime_gt).
Local Abbreviation time := (updatedTime Date_parse).
Local Abbreviation strip := (fun p : object => removeField p "source").














End Idempotence.


(* ================================================================== *)
(** * The queue without interference *)

Section Drain.

Lemma run_app (m : machine) (a b : list input) :
  run m (a ++ b) = run (run m a) b.
Proof. unfold run. apply fold_left_app. Qed.

(** While a save is under way an upload is queued. *)
Lemma upload_queued (m : machine) (r : request) :
  authenticated m = true -> syncInProgress (state m) = true ->
  step m (uploadOf r)
  = withState m (setQueue (state m) (syncQueue (state m) ++ [r])).
Proof.
  destruct m as [[time hash busy sub auto queue] auth uid store full
                   pending flying seen], r as [who projects].
  cbn [authenticated state syncInProgress]. intros -> ->. reflexivity.
Qed.

Lemma uploads_queued (rs : list request) (m : machine) :
  authenticated m = true -> syncInProgress (state m) = true ->
  run m (map uploadOf rs)
  = withState m (setQueue (state m) (syncQueue (state m) ++ rs)).
Proof.
  revert m. unfold run.
  induction rs as [|r rs IH]; intros m Hauth Hbusy; cbn [map fold_left].
  - destruct m as [[time hash busy sub auto queue] auth uid store full
                     pending flying seen].
    cbn [withState setQueue state syncQueue authenticated userId localStorage
           quotaExceeded timers inFlight log lastSyncTime lastSyncedHash
           syncInProgress realtimeUnsubscribe autoSyncEnabled].
    now rewrite app_nil_r.
  - rewrite (upload_queued m r Hauth Hbusy), IH.
    + destruct m as [[time hash busy sub auto queue] auth uid store full
                       pending flying seen].
      cbn [withState setQueue state syncQueue authenticated userId
             localStorage quotaExceeded timers inFlight log lastSyncTime
             lastSyncedHash syncInProgress realtimeUnsubscribe
             autoSyncEnabled].
      now rewrite <- app_assoc.
    + now destruct m.
    + destruct m as [[time hash busy sub auto queue] auth uid store full
                       pending flying seen]. exact Hbusy.
Qed.

(** The save under way settles and the timer fires: the head of the
    queue is started. *)
Lemma drain_next (m : machine) (first next : request)
    (queued : list request) (result : FirestoreResult) (now : Z)
    (hash : string) :
  authenticated m = true -> syncInProgress (state m) = true ->
  inFlight m = [mkPending (caller first) (payload first) hash] ->
  syncQueue (state m) = next :: queued ->
  timers m = [] ->
  let m' := step (step m (SaveSettled (caller first) result now)) TimerFired in
  authenticated m' = true /\ syncInProgress (state m') = true
  /\ inFlight m' = [mkPending (caller next) (payload next)
                      (calculateHash (Some (payload next)))]
  /\ syncQueue (state m') = queued /\ timers m' = []
  /\ savesStarted (log m') = savesStarted (log m) ++ [caller next]
  /\ resolved (log m') = resolved (log m) ++ [caller first].
Proof.
  destruct m as [[time hash0 busy sub auto queue] auth uid store full
                   pending flying seen].
  destruct first as [who projects], next as [who' projects'],
    result as [ok d e c].
  cbn [authenticated state syncInProgress inFlight syncQueue timers caller
         payload].
  intros -> -> -> -> ->.
  cbn [step inFlight takeSave saveCaller]. rewrite Nat.eqb_refl.
  destruct ok, full; frameLog; cbn [app]; frameLog; tally;
    rewrite ?app_nil_r; repeat split; reflexivity.
Qed.

(** The last save settles: nothing is left. *)
Lemma drain_last (m : machine) (first : request) (result : FirestoreResult)
    (now : Z) (hash : string) :
  syncInProgress (state m) = true ->
  inFlight m = [mkPending (caller first) (payload first) hash] ->
  syncQueue (state m) = [] ->
  timers m = [] ->
  let m' := step (step m (SaveSettled (caller first) result now)) TimerFired in
  waiting m' = 0%nat /\ syncInProgress (state m') = false
  /\ savesStarted (log m') = savesStarted (log m)
  /\ resolved (log m') = resolved (log m) ++ [caller first].
Proof.
  destruct m as [[time hash0 busy sub auto queue] auth uid store full
                   pending flying seen].
  destruct first as [who projects], result as [ok d e c].
  cbn [state syncInProgress inFlight syncQueue timers caller payload].
  intros -> -> -> ->.
  cbn [step inFlight takeSave saveCaller]. rewrite Nat.eqb_refl.
  destruct ok, full; frameLog; cbn [app]; frameLog; tally;
    rewrite ?app_nil_r; repeat split; reflexivity.
Qed.

(** The saves of the queued requests follow one another in the order of
    the queue. *)
Lemma queue_drained (rest : list settlement) (first : settlement)
    (m : machine) (hash : string) :
  authenticated m = true -> syncInProgress (state m) = true ->
  inFlight m = [mkPending (caller (settledRequest first))
                  (payload (settledRequest first)) hash] ->
  syncQueue (state m) = map settledRequest rest ->
  timers m = [] ->
  savesStarted (log (run m (flat_map drainOf (first :: rest))))
  = savesStarted (log m) ++ map (fun s => caller (settledRequest s)) rest
  /\ resolved (log (run m (flat_map drainOf (first :: rest))))
     = resolved (log m)
       ++ map (fun s => caller (settledRequest s)) (first :: rest)
  /\ waiting (run m (flat_map drainOf (first :: rest))) = 0%nat
  /\ syncInProgress (state (run m (flat_map drainOf (first :: rest)))) = false.
Proof.
  revert first m hash.
  induction rest as [|next rest IH]; intros first m hash Hauth Hbusy Hfly
    Hqueue Htimers.
  - unfold run. cbn [flat_map drainOf app fold_left map].
    destruct (drain_last m (settledRequest first) (settledResult first)
                (settledAt first) hash Hbusy Hfly Hqueue Htimers)
      as [Hw [Hp [Hs Hr]]].
    rewrite app_nil_r. auto.
  - cbn [map] in Hqueue.
    destruct (drain_next m (settledRequest first) (settledRequest next)
                (map settledRequest rest) (settledResult first)
                (settledAt first) hash Hauth Hbusy Hfly Hqueue Htimers)
      as [Hauth' [Hbusy' [Hfly' [Hqueue' [Htimers' [Hs Hr]]]]]].
    change (run m (flat_map drainOf (first :: next :: rest)))
      with (run (step (step m (SaveSettled (caller (settledRequest first))
                                 (settledResult first) (settledAt first)))
                   TimerFired)
              (flat_map drainOf (next :: rest))).
    destruct (IH next _ _ Hauth' Hbusy' Hfly' Hqueue' Htimers')
      as [Hs' [Hr' [Hw' Hp']]].
    rewrite Hs', Hr', Hs, Hr. cbn [map]. rewrite <- !app_assoc.
    auto.
Qed.

(** X22.  Uploads asked for in a burst, with nothing asked for while the
    queue drains, are saved one after the other in the order of the
    calls, every promise is resolved in that order, and the coordinator
    ends idle with nothing left. *)
Theorem burst_served_in_order (settlements : list settlement) (m : machine) :
  authenticated m = true ->
  syncInProgress (state m) = false ->
  syncQueue (state m) = [] -> timers m = [] -> inFlight m = [] ->
  savesStarted (log (run m (burst settlements)))
  = savesStarted (log m)
    ++ map (fun s => caller (settledRequest s)) settlements
  /\ resolved (log (run m (burst settlements)))
     = resolved (log m)
       ++ map (fun s => caller (settledRequest s)) settlements
  /\ waiting (run m (burst settlements)) = 0%nat
  /\ syncInProgress (state (run m (burst settlements))) = false.
Proof.
  intros Hauth Hidle Hqueue Htimers Hfly.
  destruct settlements as [|first rest].
  - unfold burst, run, waiting. cbn [map flat_map app fold_left].
    rewrite Hqueue, Htimers, Hfly, !app_nil_r. auto.
  - unfold burst. rewrite run_app. cbn [map].
    change (run m (uploadOf (settledRequest first)
                   :: map (fun s => uploadOf (settledRequest s)) rest))
      with (run (step m (uploadOf (settledRequest first)))
              (map (fun s => uploadOf (settledRequest s)) rest)).
    rewrite <- (map_map settledRequest uploadOf).
    assert (Hstart : exists m1,
               step m (uploadOf (settledRequest first)) = m1
               /\ authenticated m1 = true /\ syncInProgress (state m1) = true
               /\ inFlight m1
                  = [mkPending (caller (settledRequest first))
                       (payload (settledRequest first))
                       (calculateHash (Some (payload (settledRequest first))))]
               /\ syncQueue (state m1) = [] /\ timers m1 = []
               /\ savesStarted (log m1)
                  = savesStarted (log m) ++ [caller (settledRequest first)]
               /\ resolved (log m1) = resolved (log m)).
    { eexists. split; [reflexivity|].
      destruct m as [[time hash busy sub auto queue] auth uid store full
                       pending flying seen].
      destruct first as [[who projects] result now].
      cbn [authenticated state syncInProgress inFlight syncQueue timers]
        in Hauth, Hidle, Hqueue, Htimers, Hfly.
      subst auth busy flying queue pending.
      cbn [settledRequest]. unfold uploadOf. frameLog. tally.
      rewrite ?app_nil_r. repeat split; reflexivity. }
    destruct Hstart as [m1 [-> [Hauth1 [Hbusy1 [Hfly1 [Hqueue1 [Htimers1
                          [Hs1 Hr1]]]]]]]].
    rewrite (uploads_queued _ m1 Hauth1 Hbusy1).
    destruct (queue_drained rest first
                (withState m1
                   (setQueue (state m1)
                      (syncQueue (state m1) ++ map settledRequest rest)))
                (calculateHash (Some (payload (settledRequest first)))))
      as [Hs [Hr [Hw Hp]]].
    + now destruct m1.
    + destruct m1 as [[time1 hash1 busy1 sub1 auto1 queue1] auth1 uid1 store1
                        full1 pending1 flying1 seen1]. exact Hbusy1.
    + destruct m1 as [[time1 hash1 busy1 sub1 auto1 queue1] auth1 uid1 store1
                        full1 pending1 flying1 seen1]. exact Hfly1.
    + destruct m1 as [[time1 hash1 busy1 sub1 auto1 queue1] auth1 uid1 store1
                        full1 pending1 flying1 seen1].
      cbn [state syncQueue] in Hqueue1. subst queue1. reflexivity.
    + destruct m1 as [[time1 hash1 busy1 sub1 auto1 queue1] auth1 uid1 store1
                        full1 pending1 flying1 seen1]. exact Htimers1.
    + rewrite Hs, Hr.
      assert (Hlog : log (withState m1
                            (setQueue (state m1)
                               (syncQueue (state m1)
                                ++ map settledRequest rest))) = log m1)
        by now destruct m1.
      rewrite Hlog, Hs1, Hr1. cbn [map]. rewrite <- !app_assoc. auto.
Qed.

End Drain.

Lemma burst_served_in_order_witness :
  savesStarted
    (log (run (signedIn "alice")
            (burst [mkSettlement (mkRequest 1%nat [kitchenLocal]) saved 1000;
                    mkSettlement (mkRequest 2%nat [kitchenEdited]) saved 2000;
                    mkSettlement (mkRequest 3%nat [kitchenBare]) saved 3000])))
  = [1%nat; 2%nat; 3%nat].
Proof.
  apply (proj1 (burst_served_in_order
                  [mkSettlement (mkRequest 1%nat [kitchenLocal]) saved 1000;
                   mkSettlement (mkRequest 2%nat [kitchenEdited]) saved 2000;
                   mkSettlement (mkRequest 3%nat [kitchenBare]) saved 3000]
                  (signedIn "alice")
                  eq_refl eq_refl eq_refl eq_refl eq_refl)).
Defined.

(* ================================================================== *)
(** * Batched writes and the connection monitor *)

Section BatchFacts.

Context {W R F : Type}.
Variable getFirestore : outcome F.
Variable getDocument : string -> string -> outcome R.
Variable commit : list (stagedWrite R) -> W -> outcome unit * W.

Lemma stageOperation_known (op : batchOperation) (write : stagedWrite R) :
  stageOperation getDocument op = Returned write ->
  knownType (opType op) = true.
Proof.
  unfold stageOperation, knownType.
  destruct (getDocument _ _) as [docRef|e]; [|discriminate].
  destruct (opType op) as [t|]; [|discriminate].
  destruct (t =? "set")%string; [reflexivity|].
  destruct (t =? "update")%string; [reflexivity|].
  destruct (t =? "delete")%string; [reflexivity | discriminate].
Qed.

Lemma stageAll_known (operations : list batchOperation)
    (batch : list (stagedWrite R)) :
  stageAll getDocument operations = Returned batch ->
  forallb (fun op => knownType (opType op)) operations = true
  /\ List.length batch = List.length operations.
Proof.
  revert batch. induction operations as [|op rest IH]; intros batch;
    cbn [stageAll forallb].
  - intros [= <-]. auto.
  - destruct (stageOperation getDocument op) as [write|e] eqn:S;
      [|discriminate].
    destruct (stageAll getDocument rest) as [writes|e]; [|discriminate].
    intros [= <-]. destruct (IH writes eq_refl) as [Hk Hl].
    rewrite (stageOperation_known op write S), Hk. cbn [List.length].
    now rewrite Hl.
Qed.

(** X23.  A batch that holds an operation of a type other than set,
    update and delete is not committed, not even in part: [batchWrite]
    answers with a failure, makes no attempt on the store and leaves it
    as it was. *)
Theorem batchWrite_unknown_type (operations : list batchOperation) (w : W) :
  existsb (fun op => negb (knownType (opType op))) operations = true ->
  exists reason,
    batchWrite getFirestore getDocument commit operations w
    = ({| success := false; data := VNull; error := Some reason;
          fromCache := false |}, w, []).
Proof.
  intros Hbad. unfold batchWrite.
  destruct getFirestore as [firestore|e];
    [|eexists; reflexivity].
  destruct (stageAll getDocument operations) as [batch|e] eqn:S;
    [|eexists; reflexivity].
  apply stageAll_known in S as [Hknown _].
  apply existsb_exists in Hbad as [op [Hin Hop]].
  rewrite forallb_forall in Hknown. rewrite (Hknown op Hin) in Hop.
  discriminate.
Qed.

End BatchFacts.

Lemma batchWrite_unknown_type_witness :
  exists reason,
    batchWrite (Returned tt) pathOf countingCommit
      [mkBatchOperation (Some "set") "userProjects" "alice"
         (VObj kitchenLocal) VUndef;
       mkBatchOperation (Some "upsert") "userProjects" "bob"
         (VObj kitchenRemote) VUndef] 0%nat
    = ({| success := false; data := VNull; error := Some reason;
          fromCache := false |}, 0%nat, []).
Proof.
  apply (batchWrite_unknown_type (Returned tt) pathOf countingCommit
           [mkBatchOperation (Some "set") "userProjects" "alice"
              (VObj kitchenLocal) VUndef;
            mkBatchOperation (Some "upsert") "userProjects" "bob"
              (VObj kitchenRemote) VUndef] 0%nat).
  reflexivity.
Defined.

Section MonitorFacts.

Variable listener : nat.

Lemma seenBy_app (a b : list (nat * ConnectionStatus)) :
  seenBy listener (a ++ b) = seenBy listener a ++ seenBy listener b.
Proof. unfold seenBy. now rewrite filter_app, map_app. Qed.

Lemma seenBy_absent (status : ConnectionStatus) (ls : list nat) :
  ~ In listener ls ->
  seenBy listener (map (fun l => (l, status)) ls) = [].
Proof.
  unfold seenBy. induction ls as [|l ls IH]; cbn [map filter fst];
    intros Hnot; [reflexivity|].
  destruct (Nat.eqb_spec l listener) as [->|Hne].
  - exfalso. apply Hnot. now left.
  - apply IH. intros Hin. apply Hnot. now right.
Qed.

Lemma seenBy_broadcast (status : ConnectionStatus) (ls : list nat) :
  NoDup ls -> In listener ls ->
  seenBy listener (map (fun l => (l, status)) ls) = [status].
Proof.
  induction ls as [|l ls IH]; intros Hnd Hin; [contradiction|].
  inversion Hnd as [|? ? Hnot Hnd']; subst.
  change (map (fun l0 => (l0, status)) (l :: ls))
    with ([(l, status)] ++ map (fun l0 => (l0, status)) ls).
  rewrite seenBy_app. unfold seenBy at 1. cbn [filter map fst snd].
  destruct (Nat.eqb_spec l listener) as [->|Hne].
  - now rewrite (seenBy_absent status ls Hnot).
  - destruct Hin as [-> | Hin]; [contradiction|]. now apply IH.
Qed.

Lemma lastOf_snoc {A : Type} (l : list A) (x : A) : lastOf (l ++ [x]) = Some x.
Proof.
  induction l as [|a l IH]; [reflexivity|].
  cbn [app lastOf]. destruct (l ++ [x]) eqn:E; [|exact IH].
  now destruct l.
Qed.

Lemma changesOnly_snoc (l : list ConnectionStatus) (x : ConnectionStatus) :
  changesOnly (l ++ [x])
  = changesOnly l && match lastOf l with
                     | Some y => negb (sameConnectivity y x)
                     | None => true
                     end.
Proof.
  induction l as [|a l IH]; [reflexivity|].
  cbn [app changesOnly lastOf]. rewrite IH.
  destruct l as [|b l]; cbn [app lastOf]; [now rewrite !andb_true_r|].
  now rewrite andb_assoc.
Qed.

Lemma updateConnectionStatus_informed (online firestoreConnected : bool)
    (now : Z) (m : monitor) :
  informed listener m -> informed listener (updateConnectionStatus online firestoreConnected now m).
Proof.
  intros [Hnd [Hin [Hlast Hch]]]. unfold updateConnectionStatus.
  destruct (negb (Bool.eqb (isOnline (connectionState m)) online)
            || negb (Bool.eqb (isFirestoreConnected (connectionState m))
                       firestoreConnected)) eqn:Changed;
    [|now repeat split].
  unfold informed. cbn [listeners calls connectionState].
  rewrite seenBy_app, (seenBy_broadcast _ _ Hnd Hin).
  repeat split; try assumption.
  - apply lastOf_snoc.
  - rewrite changesOnly_snoc, Hch, Hlast. unfold sameConnectivity.
    cbn [isOnline isFirestoreConnected andb].
    now rewrite <- negb_andb in Changed.
Qed.

Lemma monitorStep_informed (m : monitor) (i : monitorInput) :
  informed listener m -> concerns listener i = false -> informed listener (monitorStep m i).
Proof.
  intros H Hi.
  assert (Hwatch : forall b,
             informed listener {| connectionState := connectionState m; watching := b;
                         listeners := listeners m; calls := calls m |})
    by (intros b; exact H).
  destruct i as [online callback now | now | now | connected now | l | l | ];
    cbn [monitorStep concerns] in *.
  - pose proof (updateConnectionStatus_informed online
                  (isFirestoreConnected (connectionState m)) now _
                  (Hwatch true)) as H'.
    cbn [connectionState] in H'.
    destruct callback as [f|]; [|exact H'].
    destruct H' as [Hnd [Hin [Hlast Hch]]].
    unfold informed. cbn [listeners calls connectionState].
    rewrite seenBy_app. unfold seenBy at 2 4. cbn [filter fst map].
    rewrite Hi. cbn [map]. rewrite app_nil_r. now repeat split.
  - destruct (watching m); [|exact H].
    now apply updateConnectionStatus_informed.
  - destruct (watching m); [|exact H].
    now apply updateConnectionStatus_informed.
  - now apply updateConnectionStatus_informed.
  - destruct H as [Hnd [Hin [Hlast Hch]]].
    unfold informed. cbn [listeners calls connectionState].
    rewrite seenBy_app. unfold seenBy at 2 4. cbn [filter fst map].
    rewrite Hi. cbn [map]. rewrite app_nil_r.
    destruct (existsb (Nat.eqb l) (listeners m)) eqn:E;
      [now repeat split|].
    repeat split; try assumption.
    + apply NoDup_app; [exact Hnd | repeat constructor; intros [] |].
      intros a Ha [Heq | []]. subst a.
      assert (existsb (Nat.eqb l) (listeners m) = true).
      { apply existsb_exists. exists l. split; [exact Ha|].
        apply Nat.eqb_refl. }
      congruence.
    + apply in_or_app. now left.
  - destruct H as [Hnd [Hin [Hlast Hch]]].
    unfold informed. cbn [listeners calls connectionState].
    repeat split; try assumption.
    + now apply NoDup_filter.
    + apply filter_In. split; [exact Hin|]. now rewrite Hi.
  - discriminate.
Qed.

(** X24.  A listener that stays subscribed is called once for every
    change of the connectivity and only then: it is never told the same
    connectivity twice in a row, and what it was told last is the
    status the monitor holds. *)
Theorem listener_told_changes_only (inputs : list monitorInput) (m : monitor) :
  NoDup (listeners m) -> In listener (listeners m) ->
  lastOf (seenBy listener (calls m)) = Some (connectionState m) ->
  changesOnly (seenBy listener (calls m)) = true ->
  Forall (fun i => concerns listener i = false) inputs ->
  changesOnly (seenBy listener (calls (runMonitor m inputs))) = true
  /\ lastOf (seenBy listener (calls (runMonitor m inputs)))
     = Some (connectionState (runMonitor m inputs)).
Proof.
  intros Hnd Hin Hlast Hch Hall.
  assert (H : informed listener m) by now repeat split.
  clear Hnd Hin Hlast Hch. revert m H. unfold runMonitor.
  induction inputs as [|i rest IH]; cbn [fold_left]; intros m H.
  - destruct H as [_ [_ [Hlast Hch]]]. now split.
  - apply Forall_cons_iff in Hall as [Hi Hrest].
    apply (IH Hrest). now apply monitorStep_informed.
Qed.

End MonitorFacts.

Lemma listener_told_changes_only_witness :
  changesOnly
    (seenBy 1%nat
       (calls (runMonitor
                 (runMonitor monitorAtLoad
                    [InitConnectionMonitor true None 0;
                     OnConnectionChange 1%nat])
                 [SetFirestoreConnectionStatus true 10;
                  SetFirestoreConnectionStatus true 20;
                  WindowOffline 30; WindowOffline 40; WindowOnline 50])))
  = true
  /\ lastOf
       (seenBy 1%nat
          (calls (runMonitor
                    (runMonitor monitorAtLoad
                       [InitConnectionMonitor true None 0;
                        OnConnectionChange 1%nat])
                    [SetFirestoreConnectionStatus true 10;
                     SetFirestoreConnectionStatus true 20;
                     WindowOffline 30; WindowOffline 40; WindowOnline 50])))
     = Some {| isOnline := true; isFirestoreConnected := false;
               lastStatusChange := 50 |}.
Proof.
  apply (listener_told_changes_only 1%nat
           [SetFirestoreConnectionStatus true 10;
            SetFirestoreConnectionStatus true 20;
            WindowOffline 30; WindowOffline 40; WindowOnline 50]
           (runMonitor monitorAtLoad
              [InitConnectionMonitor true None 0; OnConnectionChange 1%nat])).
  - repeat constructor. intros [].
  - simpl. now left.
  - reflexivity.
  - reflexivity.
  - repeat constructor.
Defined.

(* ================================================================== *)
(** * The missing document and the initialisation *)

Section MissingDocument.

(** X25.  The snapshot of a document that does not exist reaches the
    realtime handler as the empty collection, and unless a sync is in
    progress or the last synced hash is 'empty' the handler then replaces
    the local copy of the user's projects by the empty collection. *)
Theorem missing_document_empties_local_copy (m : machine) (snap : snapshot)
    (onUpdate fromCache hasPendingWrites : bool) (now : Z) :
  exists_ snap = false ->
  realtimeUnsubscribe (state m) = Some onUpdate ->
  syncInProgress (state m) = false ->
  lastSyncedHash (state m) <> Some "empty"%string ->
  quotaExceeded m = false ->
  projectsOfData (documentData snap) = VArr []
  /\ getItem
       (localStorage (step m (Snapshot [] fromCache hasPendingWrites now)))
       (getStorageKey m)
     = Some "[]"%string
  /\ lastSyncedHash
       (state (step m (Snapshot [] fromCache hasPendingWrites now)))
     = Some "empty"%string.
Proof.
  intros Hmissing Hsub Hidle Hhash Hquota.
  split; [unfold documentData; now rewrite Hmissing|].
  destruct m as [[time hash busy sub auto queue] auth uid store full
                   pending flying seen].
  cbn [state realtimeUnsubscribe syncInProgress lastSyncedHash quotaExceeded]
    in Hsub, Hidle, Hhash, Hquota.
  subst sub busy full. cbn [step state realtimeUnsubscribe].
  unfold onSnapshot. cbn [state syncInProgress lastSyncedHash calculateHash].
  assert (Hne : match hash with
                | Some h => ("empty" =? h)%string
                | None => false
                end = false).
  { destruct hash as [h|]; [|reflexivity].
    apply String.eqb_neq. congruence. }
  rewrite Hne. destruct onUpdate; frameLog;
    (split; [apply getItem_setItem_same | reflexivity]).
Qed.

End MissingDocument.

Lemma missing_document_empties_local_copy_witness :
  getItem
    (localStorage
       (step (run (signedIn "alice")
                [StartRealtime true; Upload 1%nat [kitchenLocal];
                 SaveSettled 1%nat saved 1000])
          (Snapshot [] false false 2000)))
    (getStorageKey (signedIn "alice"))
  = Some "[]"%string.
Proof.
  apply (proj1 (proj2 (missing_document_empties_local_copy
                         (run (signedIn "alice")
                            [StartRealtime true; Upload 1%nat [kitchenLocal];
                             SaveSettled 1%nat saved 1000])
                         {| exists_ := false; snapshotData := VUndef |}
                         true false false 2000
                         eq_refl eq_refl eq_refl
                         ltac:(vm_compute; discriminate) eq_refl))).
Defined.

Section InitFacts.



(** A reset while the initialisation is under way does not last: the
    body that was waiting marks Firebase initialised all the same. *)
Example reset_during_initialisation :
  initialized
    (runFirebase firebaseAtLoad
       [InitializeFirebase None; ResetFirebase; PersistenceSettled 0 None])
  = true
  /\ initializationPromise
       (runFirebase firebaseAtLoad
          [InitializeFirebase None; ResetFirebase; PersistenceSettled 0 None])
     = None.
Proof. split; reflexivity. Qed.

End InitFacts.

